(** * Munkres (Hungarian) assignment solver: model of [hungarian.cpp]

    The element type [T] of the template is instantiated as in [main]: the
    32-bit signed [int].  Values are integers of [Z]; every arithmetic
    operation of the source that can leave the range is written with its
    two's-complement wrap-around ([Int.add], [Int.sub], [Int.abs]), which is
    what the usual targets compute where the language leaves signed
    overflow undefined.

    Vectors are lists.  The matrix, the mask and the two cover vectors are
    only indexed by loop counters below their size; the path buffer of
    step 5 is indexed by a running counter, so its accesses are checked and
    an access outside the buffer ends the run with [out_of_range].

    The input is a matrix: a container of rows of one length.  On an input
    without rows the source dereferences [begin()] of an empty container
    ([deref_end]).  The [while (!done)] loops take a number of turns as fuel
    and end with [out_of_fuel] when it is used up.  The printing at the end
    of [hungarian] is left out.  [path_row_0] and [path_col_0], which the
    source declares without a value and step 4 assigns before step 5 reads
    them, start at 0. *)

From Stdlib Require Import ZArith List Lia Bool Permutation.
Import ListNotations.
Open Scope Z_scope.

(** ** The element type: 32-bit signed integers *)

Module Int.
Definition max : Z := 2147483647.      (* std::numeric_limits<int>::max() *)
Definition min : Z := -2147483648.
Definition modulus : Z := 4294967296.
Definition in_range (z : Z) : Prop := min <= z <= max.
Definition wrap (z : Z) : Z := (z - min) mod modulus + min.
Definition add (x y : Z) : Z := wrap (x + y).
Definition sub (x y : Z) : Z := wrap (x - y).
Definition abs (x : Z) : Z := wrap (Z.abs x).
End Int.

(** ** Vectors and matrices *)

Definition matrix_t := list (list Z).

Fixpoint upd {A : Type} (l : list A) (i : nat) (v : A) : list A :=
  match l, i with
  | [], _ => []
  | _ :: t, O => v :: t
  | h :: t, S i' => h :: upd t i' v
  end.

(* m[r][c] *)
Definition get (m : matrix_t) (r c : nat) : Z := nth c (nth r m []) 0.

(* m[r][c] = v *)
Definition set (m : matrix_t) (r c : nat) (v : Z) : matrix_t :=
  upd m r (upd (nth r m []) c v).

(* Indexing by an [int] variable. *)
Definition getZ (m : matrix_t) (r c : Z) : Z := get m (Z.to_nat r) (Z.to_nat c).
Definition setZ (m : matrix_t) (r c : Z) (v : Z) : matrix_t :=
  set m (Z.to_nat r) (Z.to_nat c) v.

(* std::vector::resize(n, v) *)
Definition resize {A : Type} (n : nat) (v : A) (l : list A) : list A :=
  firstn n l ++ repeat v (n - length l).

(** ** Outcomes of a run *)

Inductive failure : Type :=
| runtime_error    (* thrown by handle_negatives: "Only non-negative values allowed" *)
| out_of_range     (* undefined: the path buffer is indexed outside its rows *)
| deref_end        (* undefined: begin() of an empty container is dereferenced *)
| out_of_fuel.     (* the loops of the model were given too few iterations *)

Inductive outcome (A : Type) : Type :=
| Ok (a : A)
| Fail (e : failure).
Arguments Ok {A} a.
Arguments Fail {A} e.

Definition bind {A B : Type} (x : outcome A) (f : A -> outcome B) : outcome B :=
  match x with
  | Ok a => f a
  | Fail e => Fail e
  end.

Notation "x <- e ;; k" := (bind e (fun x => k))
  (at level 61, e at next level, right associativity).

(** ** Preprocessing *)

Definition matrix_min (matrix : matrix_t) : Z :=
  fold_left (fun minval elem => fold_left Z.min elem minval) matrix Int.max.

(* The matrix is taken by reference: the result is the matrix as the call
   leaves it, together with the exception thrown, if any. *)
Definition handle_negatives (matrix : matrix_t) (allowed : bool)
  : matrix_t * option failure :=
  let minval := matrix_min matrix in
  if minval <? 0 then
    if negb allowed then (matrix, Some runtime_error)
    else
      let minval := Int.abs minval in
      (map (map (fun num => Int.add num minval)) matrix, None)
  else (matrix, None).

Definition pad_matrix (matrix : matrix_t) : matrix_t :=
  let i_size := length matrix in
  let j_size := length (nth 0 matrix []) in
  if (j_size <? i_size)%nat then
    map (resize i_size Int.max) matrix
  else if (i_size <? j_size)%nat then
    matrix ++ repeat (repeat Int.max j_size) (j_size - i_size)
  else matrix.

Definition clear_covers (cover : list Z) : list Z := map (fun _ => 0) cover.

(** ** Steps 1 to 3 *)

(* *std::min_element(begin(row), end(row)) on a non-empty row *)
Definition min_element (row : list Z) : Z := fold_left Z.min (tl row) (hd 0 row).

Definition step1 (matrix : matrix_t) : matrix_t * Z :=
  (map (fun row =>
          let smallest := min_element row in
          if 0 <? smallest then map (fun n => Int.sub n smallest) row else row)
       matrix,
   2).

Definition step2_cell (matrix : matrix_t) (r : nat)
    (st : matrix_t * list Z * list Z) (c : nat) : matrix_t * list Z * list Z :=
  let '(M, RowCover, ColCover) := st in
  if get matrix r c =? 0 then
    if (nth r RowCover 0 =? 0) && (nth c ColCover 0 =? 0) then
      (set M r c 1, upd RowCover r 1, upd ColCover c 1)
    else st
  else st.

Definition step2 (matrix M : matrix_t) (RowCover ColCover : list Z)
  : matrix_t * list Z * list Z * Z :=
  let sz := length matrix in
  let '(M, RowCover, ColCover) :=
    fold_left (fun st r => fold_left (step2_cell matrix r) (seq 0 sz) st)
              (seq 0 sz) (M, RowCover, ColCover) in
  (M, clear_covers RowCover, clear_covers ColCover, 3).

Definition step3 (M : matrix_t) (ColCover : list Z) : list Z * Z :=
  let sz := length M in
  let ColCover :=
    fold_left (fun CC r =>
                 fold_left (fun CC c => if get M r c =? 1 then upd CC c 1 else CC)
                           (seq 0 sz) CC)
              (seq 0 sz) ColCover in
  let colcount :=
    fold_left (fun cnt n => if n =? 1 then cnt + 1 else cnt) ColCover 0 in
  if colcount >=? Z.of_nat sz then (ColCover, 7) else (ColCover, 4).

(** ** Step 4 and its helpers *)

(* The inner loop of find_a_zero over the columns of row r. *)
Fixpoint find_a_zero_cols (matrix : matrix_t) (RowCover ColCover : list Z)
    (r : nat) (cs : list nat) : option nat :=
  match cs with
  | [] => None
  | c :: cs' =>
      if (get matrix r c =? 0) && (nth r RowCover 0 =? 0) && (nth c ColCover 0 =? 0)
      then Some c
      else find_a_zero_cols matrix RowCover ColCover r cs'
  end.

(* The outer loop of find_a_zero; (row, col) stays (-1, -1) when nothing is found. *)
Fixpoint find_a_zero_rows (matrix : matrix_t) (RowCover ColCover : list Z)
    (sz : nat) (rs : list nat) : Z * Z :=
  match rs with
  | [] => (-1, -1)
  | r :: rs' =>
      match find_a_zero_cols matrix RowCover ColCover r (seq 0 sz) with
      | Some c => (Z.of_nat r, Z.of_nat c)
      | None => find_a_zero_rows matrix RowCover ColCover sz rs'
      end
  end.

Definition find_a_zero (matrix : matrix_t) (RowCover ColCover : list Z) : Z * Z :=
  let sz := length matrix in
  find_a_zero_rows matrix RowCover ColCover sz (seq 0 sz).

Definition star_in_row (row : Z) (M : matrix_t) : bool :=
  fold_left (fun tmp c => if get M (Z.to_nat row) c =? 1 then true else tmp)
            (seq 0 (length M)) false.

Definition find_star_in_row (row : Z) (M : matrix_t) : Z :=
  fold_left (fun col c => if get M (Z.to_nat row) c =? 1 then Z.of_nat c else col)
            (seq 0 (length M)) (-1).

(* The while loop of step 4; the result is (M, RowCover, ColCover,
   path_row_0, path_col_0, step). *)
Fixpoint step4_loop (fuel : nat) (matrix M : matrix_t) (RowCover ColCover : list Z)
    (path_row_0 path_col_0 : Z)
  : outcome (matrix_t * list Z * list Z * Z * Z * Z) :=
  match fuel with
  | O => Fail out_of_fuel
  | S fuel' =>
      let '(row, col) := find_a_zero matrix RowCover ColCover in
      if row =? -1 then
        Ok (M, RowCover, ColCover, path_row_0, path_col_0, 6)
      else
        let M := setZ M row col 2 in
        if star_in_row row M then
          let col := find_star_in_row row M in
          let RowCover := upd RowCover (Z.to_nat row) 1 in
          let ColCover := upd ColCover (Z.to_nat col) 0 in
          step4_loop fuel' matrix M RowCover ColCover path_row_0 path_col_0
        else
          Ok (M, RowCover, ColCover, row, col, 5)
  end.

Definition step4 (fuel : nat) (matrix M : matrix_t) (RowCover ColCover : list Z)
    (path_row_0 path_col_0 : Z) :=
  step4_loop fuel matrix M RowCover ColCover path_row_0 path_col_0.

(** ** Step 5 and its helpers *)

Definition find_star_in_col (c : Z) (M : matrix_t) : Z :=
  fold_left (fun r i => if get M i (Z.to_nat c) =? 1 then Z.of_nat i else r)
            (seq 0 (length M)) (-1).

(* c is passed by reference and keeps its value when the row has no prime. *)
Definition find_prime_in_row (r : Z) (c : Z) (M : matrix_t) : Z :=
  fold_left (fun c j => if get M (Z.to_nat r) j =? 2 then Z.of_nat j else c)
            (seq 0 (length M)) c.

Definition path_t := list (Z * Z).

(* path[i] read, path[i][0] = v and path[i][1] = v, i an int *)
Definition path_read (path : path_t) (i : Z) : outcome (Z * Z) :=
  if (0 <=? i) && (i <? Z.of_nat (length path))
  then Ok (nth (Z.to_nat i) path (0, 0))
  else Fail out_of_range.

Definition path_write0 (path : path_t) (i : Z) (v : Z) : outcome path_t :=
  p <- path_read path i ;;
  Ok (upd path (Z.to_nat i) (v, snd p)).

Definition path_write1 (path : path_t) (i : Z) (v : Z) : outcome path_t :=
  p <- path_read path i ;;
  Ok (upd path (Z.to_nat i) (fst p, v)).

Fixpoint augment_path_loop (path : path_t) (ps : list nat) (M : matrix_t)
  : outcome matrix_t :=
  match ps with
  | [] => Ok M
  | p :: ps' =>
      rc <- path_read path (Z.of_nat p) ;;
      let M := if getZ M (fst rc) (snd rc) =? 1
               then setZ M (fst rc) (snd rc) 0
               else setZ M (fst rc) (snd rc) 1 in
      augment_path_loop path ps' M
  end.

Definition augment_path (path : path_t) (path_count : Z) (M : matrix_t)
  : outcome matrix_t :=
  augment_path_loop path (seq 0 (Z.to_nat path_count)) M.

Definition erase_primes (M : matrix_t) : matrix_t :=
  map (map (fun val => if val =? 2 then 0 else val)) M.

(* The while loop of step 5; r is not read before it is assigned and is
   left out, c is carried because find_prime_in_row may leave it as it is. *)
Fixpoint step5_loop (fuel : nat) (path : path_t) (path_count : Z) (c : Z)
    (M : matrix_t) : outcome (path_t * Z) :=
  match fuel with
  | O => Fail out_of_fuel
  | S fuel' =>
      last <- path_read path (path_count - 1) ;;
      let r := find_star_in_col (snd last) M in
      if r >? -1 then
        let path_count := path_count + 1 in
        path <- path_write0 path (path_count - 1) r ;;
        prev <- path_read path (path_count - 2) ;;
        path <- path_write1 path (path_count - 1) (snd prev) ;;
        last <- path_read path (path_count - 1) ;;
        let c := find_prime_in_row (fst last) c M in
        let path_count := path_count + 1 in
        prev <- path_read path (path_count - 2) ;;
        path <- path_write0 path (path_count - 1) (fst prev) ;;
        path <- path_write1 path (path_count - 1) c ;;
        step5_loop fuel' path path_count c M
      else Ok (path, path_count)
  end.

(* The result is (path, M, RowCover, ColCover, step). *)
Definition step5 (fuel : nat) (path : path_t) (path_row_0 path_col_0 : Z)
    (M : matrix_t) (RowCover ColCover : list Z)
  : outcome (path_t * matrix_t * list Z * list Z * Z) :=
  let c := -1 in
  let path_count := 1 in
  path <- path_write0 path (path_count - 1) path_row_0 ;;
  path <- path_write1 path (path_count - 1) path_col_0 ;;
  pc <- step5_loop fuel path path_count c M ;;
  let '(path, path_count) := pc in
  M <- augment_path path path_count M ;;
  Ok (path, erase_primes M, clear_covers RowCover, clear_covers ColCover, 3).

(** ** Step 6 and its helper *)

Definition find_smallest (minval : Z) (matrix : matrix_t)
    (RowCover ColCover : list Z) : Z :=
  let sz := length matrix in
  fold_left (fun minval r =>
               fold_left (fun minval c =>
                            if (nth r RowCover 0 =? 0) && (nth c ColCover 0 =? 0) then
                              if minval >? get matrix r c then get matrix r c else minval
                            else minval)
                         (seq 0 sz) minval)
            (seq 0 sz) minval.

Definition step6_cell (RowCover ColCover : list Z) (minval : Z) (r : nat)
    (matrix : matrix_t) (c : nat) : matrix_t :=
  let matrix :=
    if nth r RowCover 0 =? 1 then set matrix r c (Int.add (get matrix r c) minval)
    else matrix in
  if nth c ColCover 0 =? 0 then set matrix r c (Int.sub (get matrix r c) minval)
  else matrix.

Definition step6 (matrix : matrix_t) (RowCover ColCover : list Z) : matrix_t * Z :=
  let minval := find_smallest Int.max matrix RowCover ColCover in
  let sz := length matrix in
  (fold_left (fun matrix r =>
                fold_left (step6_cell RowCover ColCover minval r) (seq 0 sz) matrix)
             (seq 0 sz) matrix,
   4).

(** ** The solution and the main loop *)

Definition output_solution (original M : matrix_t) : Z :=
  fold_left (fun res j =>
               fold_left (fun res i =>
                            if negb (get M i j =? 0)
                            then Int.add res (get original i j)
                            else res)
                         (seq 0 (length original)) res)
            (seq 0 (length (hd [] original))) 0.

Record state : Type := mkState {
  matrix : matrix_t;
  M : matrix_t;
  RowCover : list Z;
  ColCover : list Z;
  path_row_0 : Z;
  path_col_0 : Z;
  path : path_t;
  step : Z
}.

(* One turn of the switch inside [while (!done)]: the new state and the new
   value of [done].  rows and cols are the dimensions of the original matrix,
   used by case 7. *)
Definition work_step (fuel : nat) (rows cols : nat) (s : state)
  : outcome (state * bool) :=
  match step s with
  | 1 =>
      let '(matrix', step') := step1 (matrix s) in
      Ok (mkState matrix' (M s) (RowCover s) (ColCover s)
                  (path_row_0 s) (path_col_0 s) (path s) step', false)
  | 2 =>
      let '(M', RowCover', ColCover', step') :=
        step2 (matrix s) (M s) (RowCover s) (ColCover s) in
      Ok (mkState (matrix s) M' RowCover' ColCover'
                  (path_row_0 s) (path_col_0 s) (path s) step', false)
  | 3 =>
      let '(ColCover', step') := step3 (M s) (ColCover s) in
      Ok (mkState (matrix s) (M s) (RowCover s) ColCover'
                  (path_row_0 s) (path_col_0 s) (path s) step', false)
  | 4 =>
      res <- step4 fuel (matrix s) (M s) (RowCover s) (ColCover s)
                   (path_row_0 s) (path_col_0 s) ;;
      let '(M', RowCover', ColCover', path_row_0', path_col_0', step') := res in
      Ok (mkState (matrix s) M' RowCover' ColCover'
                  path_row_0' path_col_0' (path s) step', false)
  | 5 =>
      res <- step5 fuel (path s) (path_row_0 s) (path_col_0 s)
                   (M s) (RowCover s) (ColCover s) ;;
      let '(path', M', RowCover', ColCover', step') := res in
      Ok (mkState (matrix s) M' RowCover' ColCover'
                  (path_row_0 s) (path_col_0 s) path' step', false)
  | 6 =>
      let '(matrix', step') := step6 (matrix s) (RowCover s) (ColCover s) in
      Ok (mkState matrix' (M s) (RowCover s) (ColCover s)
                  (path_row_0 s) (path_col_0 s) (path s) step', false)
  | 7 =>
      let M' := resize rows [] (map (resize cols 0) (M s)) in
      Ok (mkState (matrix s) M' (RowCover s) (ColCover s)
                  (path_row_0 s) (path_col_0 s) (path s) (step s), true)
  | _ => Ok (s, true)
  end.

Fixpoint work (fuel : nat) (rows cols : nat) (s : state) : outcome state :=
  match fuel with
  | O => Fail out_of_fuel
  | S fuel' =>
      sd <- work_step fuel' rows cols s ;;
      let '(s', done) := sd in
      if done then Ok s' else work fuel' rows cols s'
  end.

(* std::copy(src.begin(), src.end(), dst.begin()) for src no longer than dst *)
Definition std_copy (src dst : list Z) : list Z :=
  firstn (length dst) src ++ skipn (length src) dst.

Definition copy_original (original : matrix_t) : matrix_t :=
  map (fun row => std_copy row (repeat 0 (length (hd [] original)))) original.

Definition init_state (matrix : matrix_t) : state :=
  let sz := length matrix in
  mkState matrix
          (repeat (repeat 0 sz) sz)
          (repeat 0 sz) (repeat 0 sz)
          0 0
          (repeat (0, 0) (sz + 1))
          1.

(* The run up to the end of the while loop: the final state. *)
Definition hungarian_run (fuel : nat) (original : matrix_t) (allow_negatives : bool)
  : outcome state :=
  match original with
  | [] => Fail deref_end
  | _ =>
      let matrix := copy_original original in
      match handle_negatives matrix allow_negatives with
      | (_, Some e) => Fail e
      | (matrix, None) =>
          let matrix := pad_matrix matrix in
          work fuel (length original) (length (hd [] original)) (init_state matrix)
      end
  end.

Definition hungarian (fuel : nat) (original : matrix_t) (allow_negatives : bool)
  : outcome Z :=
  s <- hungarian_run fuel original allow_negatives ;;
  Ok (output_solution original (M s)).


(* The first n turns of the while loop, for looking at the state in between. *)
Fixpoint work_n (n fuel rows cols : nat) (s : state) : outcome state :=
  match n with
  | O => Ok s
  | S n' =>
      sd <- work_step fuel rows cols s ;;
      work_n n' fuel rows cols (fst sd)
  end.

(** ** Notions of the specification *)

(* A matrix with n rows of n entries. *)
Definition square (n : nat) (m : matrix_t) : Prop :=
  length m = n /\ Forall (fun row => length row = n) m.

(* All rows as long as the first one, and at least one row. *)
Definition rectangular (m : matrix_t) : Prop :=
  m <> [] /\ Forall (fun row => length row = length (hd [] m)) m.

Definition sumZ (l : list Z) : Z := fold_right Z.add 0 l.

(* The cost of assigning row i to column sigma[i], as an exact integer. *)
Definition assignment_cost (original : matrix_t) (sigma : list nat) : Z :=
  sumZ (map (fun i => get original i (nth i sigma O)) (seq 0 (length sigma))).

(* v is the least cost of a one-to-one assignment of the n rows to the n columns. *)
Definition is_min_assignment (n : nat) (original : matrix_t) (v : Z) : Prop :=
  (exists sigma, Permutation (seq 0 n) sigma /\ assignment_cost original sigma = v) /\
  (forall sigma, Permutation (seq 0 n) sigma -> v <= assignment_cost original sigma).

(* The cells (row, column) of the rows x cols region that the mask marks as
   starred, listed column by column. *)
Definition starred_cells (rows cols : nat) (M : matrix_t) : list (nat * nat) :=
  filter (fun rc => get M (fst rc) (snd rc) =? 1)
         (flat_map (fun j => map (fun i => (i, j)) (seq 0 rows)) (seq 0 cols)).

(* The exact sum of the original entries at the starred cells. *)
Definition starred_sum (original M : matrix_t) : Z :=
  sumZ (map (fun rc => get original (fst rc) (snd rc))
            (starred_cells (length original) (length (hd [] original)) M)).

Definition stars_in_row (n : nat) (M : matrix_t) (r : nat) : nat :=
  length (filter (fun c => get M r c =? 1) (seq 0 n)).

Definition stars_in_col (n : nat) (M : matrix_t) (c : nat) : nat :=
  length (filter (fun r => get M r c =? 1) (seq 0 n)).

(* Exactly n starred cells, one in every row and one in every column. *)
Definition permutation_matrix (n : nat) (M : matrix_t) : Prop :=
  length (starred_cells n n M) = n /\
  (forall r, (r < n)%nat -> stars_in_row n M r = 1%nat) /\
  (forall c, (c < n)%nat -> stars_in_col n M c = 1%nat).

(** ** Sample inputs *)

Definition sample_3x3 : matrix_t := [[25; 40; 35]; [40; 60; 35]; [20; 40; 25]].
Definition long_path_3x3 : matrix_t := [[0; 0; 5]; [5; 0; 0]; [0; 5; 5]].
Definition multiples_3x3 : matrix_t := [[1; 2; 3]; [2; 4; 6]; [3; 6; 9]].
Definition negative_2x2 : matrix_t := [[1; -2]; [3; 4]].
Definition wrapping_2x2 : matrix_t := [[2147483647; 0]; [0; -1]].
Definition large_2x2 : matrix_t :=
  [[2000000000; 2147483647]; [2147483647; 2000000000]].


(** * Notions used in the proofs

    Predicates on the mask, the covers and the working matrix, and the
    invariants of the loop. *)

Definition loop_failure (e : failure) : Prop := e = out_of_range \/ e = out_of_fuel.

(* What step 6 does to one entry x of row r and column c. *)
Definition adjust (RC CC : list Z) (minval : Z) (r c : nat) (x : Z) : Z :=
  let x1 := if nth r RC 0 =? 1 then Int.add x minval else x in
  if nth c CC 0 =? 0 then Int.sub x1 minval else x1.

Definition mask_values (P : Z -> Prop) (M : matrix_t) : Prop := Forall (Forall P) M.

Definition is01 (v : Z) : Prop := v = 0 \/ v = 1.

Definition is012 (v : Z) : Prop := v = 0 \/ v = 1 \/ v = 2.

Definition values_inv (s : state) : Prop :=
  1 <= step s <= 7 /\
  mask_values is012 (M s) /\
  (step s = 1 \/ step s = 2 \/ step s = 3 \/ step s = 7 -> mask_values is01 (M s)).

Definition star (M : matrix_t) (r c : nat) : Prop := get M r c = 1.

Definition prime (M : matrix_t) (r c : nat) : Prop := get M r c = 2.

(* The test of find_a_zero on one cell. *)
Definition uncovered_zero (matrix : matrix_t) (RC CC : list Z) (r c : nat) : bool :=
  (get matrix r c =? 0) && (nth r RC 0 =? 0) && (nth c CC 0 =? 0).

Definition bin (l : list Z) : Prop := Forall is01 l.

Definition all_zero (l : list Z) : Prop := Forall (fun x => x = 0) l.

Definition shape (n : nat) (M : matrix_t) (RC CC : list Z) : Prop :=
  square n M /\ length RC = n /\ length CC = n /\ bin RC /\ bin CC.

(* At most one star in every row and in every column. *)
Definition matching (M : matrix_t) : Prop :=
  (forall r c c', star M r c -> star M r c' -> c = c') /\
  (forall r r' c, star M r c -> star M r' c -> r = r').

Definition step2_inv (n : nat) (matrix : matrix_t) (st : matrix_t * list Z * list Z) : Prop :=
  let '(M, RC, CC) := st in
  shape n M RC CC /\ matching M /\
  (forall r c, star M r c -> nth r RC 0 = 1 /\ nth c CC 0 = 1) /\
  (forall r c, star M r c -> get matrix r c = 0).

Definition step3_cell (M : matrix_t) (r : nat) (CC : list Z) (c : nat) : list Z :=
  if get M r c =? 1 then upd CC c 1 else CC.

(* The rows covered during step 4, the latest first: each has a star and a
   prime, and the stars in the column of its prime lie in rows covered
   earlier. *)
Fixpoint ord (M : matrix_t) (L : list nat) : Prop :=
  match L with
  | [] => True
  | r :: L2 =>
      ~ In r L2 /\ (exists c, star M r c) /\
      (exists c', prime M r c' /\ forall r'', star M r'' c' -> In r'' L2) /\
      ord M L2
  end.

(* Stars and primes sit on zeros of the working matrix. *)
Definition zero_marks (matrix M : matrix_t) : Prop :=
  forall r c, star M r c \/ prime M r c -> get matrix r c = 0.

(* What holds between the turns of the loop of step 4, and in step 6. *)
Definition search_inv (n : nat) (M : matrix_t) (RC CC : list Z) (L : list nat) : Prop :=
  matching M /\
  (forall r c, star M r c -> nth r RC 0 + nth c CC 0 = 1) /\
  (forall r c, prime M r c -> nth r RC 0 = 1 /\ nth c CC 0 = 0) /\
  (forall r c c', prime M r c -> prime M r c' -> c = c') /\
  (forall r, In r L <-> nth r RC 0 = 1) /\
  ord M L /\
  (exists r0, (r0 < n)%nat /\ forall c, ~ star M r0 c) /\
  (exists c0, (c0 < n)%nat /\ nth c0 CC 0 = 0).

(* What holds on entry to step 5, for the primed zero (r0, c0) found last. *)
Definition aug_inv (M : matrix_t) (L : list nat) (r0 c0 : nat) : Prop :=
  matching M /\
  (forall r c c', prime M r c -> prime M r c' -> c = c') /\
  ord M L /\ prime M r0 c0 /\ (forall c, ~ star M r0 c) /\ ~ In r0 L /\
  (forall r, star M r c0 -> In r L).

(* The outcome of the loop of step 4. *)
Definition step4_post (n : nat) (matrix M : matrix_t) (RC CC : list Z) (L : list nat)
    (res : matrix_t * list Z * list Z * Z * Z * Z) : Prop :=
  let '(M', RC', CC', r0', c0', st') := res in
  shape n M' RC' CC' /\ zero_marks matrix M' /\
  (forall x y, star M x y <-> star M' x y) /\
  ((st' = 6 /\
    exists L', search_inv n M' RC' CC' (L' ++ L) /\
               (forall r c, (r < n)%nat -> (c < n)%nat ->
                            uncovered_zero matrix RC' CC' r c = false) /\
               (L' = [] ->
                forall r c, (r < n)%nat -> (c < n)%nat ->
                            uncovered_zero matrix RC CC r c = false)) \/
   (st' = 5 /\
    exists L' r c, r0' = Z.of_nat r /\ c0' = Z.of_nat c /\ (r < n)%nat /\ (c < n)%nat /\
                   aug_inv M' (L' ++ L) r c)).

(* The cells that follow a primed zero of column c on the alternating path:
   the star of column c, the prime of its row, and so on, through rows of L
   in the order of L, up to a prime whose column holds no star. *)
Inductive chain (M : matrix_t) : list nat -> nat -> list (nat * nat) -> Prop :=
| chain_end L c : (forall r, ~ star M r c) -> chain M L c []
| chain_step L1 r L2 c c' rest :
    star M r c -> prime M r c' -> chain M L2 c' rest ->
    chain M (L1 ++ r :: L2) c ((r, c) :: (r, c') :: rest).

(* The mask after the cells of P have been flipped: a star is erased, any
   other cell is starred. *)
Definition flip (v : Z) : Z := if v =? 1 then 0 else 1.

Definition memb (P : list (nat * nat)) (r c : nat) : bool :=
  existsb (fun p => Nat.eqb (fst p) r && Nat.eqb (snd p) c)%bool P.

Definition flipped (M : matrix_t) (P : list (nat * nat)) (r c : nat) : Z :=
  if memb P r c then flip (get M r c) else get M r c.

Definition cellZ (rc : nat * nat) : Z * Z := (Z.of_nat (fst rc), Z.of_nat (snd rc)).

(* The buffer starts with the cells of P. *)
Definition holds (path : path_t) (P : list (nat * nat)) : Prop :=
  (length P <= length path)%nat /\
  forall i, (i < length P)%nat -> nth i path (0, 0) = cellZ (nth i P (O, O)).

Definition flip_cell (M : matrix_t) (rc : nat * nat) : matrix_t :=
  set M (fst rc) (snd rc) (flip (get M (fst rc) (snd rc))).

(* The mask that step 5 leaves behind. *)
Definition step5_post (n : nat) (M : matrix_t) (r0 : nat) (M' : matrix_t) : Prop :=
  square n M' /\ matching M' /\
  (forall r c, ~ prime M' r c) /\
  (forall r, (exists x, star M' r x) <-> (exists x, star M r x) \/ r = r0) /\
  (forall r x, star M' r x -> star M r x \/ prime M r x).

Definition struct_inv (n : nat) (s : state) : Prop :=
  square n (matrix s) /\
  shape n (M s) (RowCover s) (ColCover s) /\
  zero_marks (matrix s) (M s) /\
  (((step s = 1 \/ step s = 2) /\
    (forall r c, get (M s) r c = 0) /\
    all_zero (RowCover s) /\ all_zero (ColCover s)) \/
   (step s = 3 /\ matching (M s) /\ (forall r c, ~ prime (M s) r c) /\
    all_zero (RowCover s) /\ all_zero (ColCover s)) \/
   ((step s = 4 \/ step s = 6) /\
    exists L, search_inv n (M s) (RowCover s) (ColCover s) L) \/
   (step s = 5 /\
    exists L r0 c0, path_row_0 s = Z.of_nat r0 /\ path_col_0 s = Z.of_nat c0 /\
                    aug_inv (M s) L r0 c0) \/
   (step s = 7 /\ matching (M s) /\
    forall c, (c < n)%nat -> exists r, star (M s) r c)).

Definition uncovered (RC CC : list Z) (r c : nat) : Prop :=
  nth r RC 0 = 0 /\ nth c CC 0 = 0.

Definition find_smallest_cell (matrix : matrix_t) (RC CC : list Z) (r : nat)
    (minval : Z) (c : nat) : Z :=
  if (nth r RC 0 =? 0) && (nth c CC 0 =? 0) then
    if minval >? get matrix r c then get matrix r c else minval
  else minval.

(* The working matrix e is the matrix A reduced by the row potentials u and
   the column potentials v; it is non-negative, and so are the column
   potentials and the potentials of the rows without star. *)
Definition potentials (n : nat) (A : matrix_t) (e : nat -> nat -> Z) (M : matrix_t)
    (u v : nat -> Z) : Prop :=
  (forall r c, (r < n)%nat -> (c < n)%nat -> e r c = get A r c - u r - v c) /\
  (forall r c, (r < n)%nat -> (c < n)%nat -> 0 <= e r c) /\
  (forall c, (c < n)%nat -> 0 <= v c) /\
  (forall r, (r < n)%nat -> (forall c, ~ star M r c) -> 0 <= u r).

Definition value_inv (n : nat) (A : matrix_t) (s : state) : Prop :=
  mask_values Int.in_range (matrix s) /\
  exists u v, potentials n A (get (matrix s)) (M s) u v.

(* The rows that hold a star. *)
Definition starred_rows (M : matrix_t) (S : list nat) : Prop :=
  NoDup S /\ forall r, In r S <-> exists c, star M r c.

Definition W (n : nat) : nat := 2 * n + 5.

Definition base (n k : nat) : nat := (n - k - 1) * W n + 3.

(* The turns of the loop that a state can still need. *)
Definition budget_ok (n B : nat) (s : state) (S : list nat) : Prop :=
  (step s = 1 -> (n * W n + 4 <= B)%nat) /\
  (step s = 2 -> (n * W n + 3 <= B)%nat) /\
  (step s = 3 -> ((n - length S) * W n + 2 <= B)%nat) /\
  (step s = 7 -> (1 <= B)%nat) /\
  (step s = 5 -> (length S < n)%nat /\ (base n (length S) <= B)%nat) /\
  (step s = 6 -> (length S < n)%nat /\
     exists L, search_inv n (M s) (RowCover s) (ColCover s) L /\
               (base n (length S) + 2 * (n - length L) + 2 <= B)%nat) /\
  (step s = 4 -> (length S < n)%nat /\
     exists L, search_inv n (M s) (RowCover s) (ColCover s) L /\
       ((base n (length S) + 2 * (n - length L) + 3 <= B)%nat \/
        ((base n (length S) + 2 * (n - length L) + 1 <= B)%nat /\
         exists r c, (r < n)%nat /\ (c < n)%nat /\
                     uncovered_zero (matrix s) (RowCover s) (ColCover s) r c = true))).

Definition run_inv (n B : nat) (s : state) : Prop :=
  struct_inv n s /\ mask_values Int.in_range (matrix s) /\
  exists S, starred_rows (M s) S /\ budget_ok n B s S.

(* Step 2 stars greedily: afterwards every zero has a star in its row or in
   its column. *)
Definition step2_cover_inv (n : nat) (matrix : matrix_t)
    (st : matrix_t * list Z * list Z) : Prop :=
  let '(M, RC, CC) := st in
  step2_inv n matrix st /\
  (forall r, nth r RC 0 = 1 -> exists c, star M r c) /\
  (forall c, nth c CC 0 = 1 -> exists r, star M r c).

(* The column of the star of row r, and the row of the star of column c. *)
Definition star_col (M : matrix_t) (r : nat) : nat :=
  Z.to_nat (find_star_in_row (Z.of_nat r) M).
Definition star_row (M : matrix_t) (c : nat) : nat :=
  Z.to_nat (find_star_in_col (Z.of_nat c) M).

(* The assignment that a mask with a star in every row stands for. *)
Definition assignment (n : nat) (M : matrix_t) : list nat :=
  map (star_col M) (seq 0 n).

(** * The states of a run *)

(* The states in which the loop of [hungarian] starts a turn, when it is
   entered on the working matrix m; rows and cols are the dimensions of the
   original matrix, which only the last turn uses. *)
Inductive reachable (rows cols : nat) (m : matrix_t) : state -> Prop :=
| reach_init : reachable rows cols m (init_state m)
| reach_turn fuel s s' :
    reachable rows cols m s ->
    work_step fuel rows cols s = Ok (s', false) ->
    reachable rows cols m s'.

(* The state after k turns of the loop on the square matrix m (the initial
   state when the run fails before). *)
Definition state_after (k : nat) (m : matrix_t) : state :=
  match work_n k 20 (length m) (length m) (init_state m) with
  | Ok s => s
  | Fail _ => init_state m
  end.
(** * Properties *)

(** ** The element type *)

Lemma wrap_in_range z : Int.in_range z -> Int.wrap z = z.
Proof.
  unfold Int.in_range, Int.wrap, Int.min, Int.max, Int.modulus. intros H.
  rewrite Z.mod_small; lia.
Qed.

Lemma wrap_range z : Int.in_range (Int.wrap z).
Proof.
  unfold Int.in_range, Int.wrap, Int.min, Int.max, Int.modulus.
  pose proof (Z.mod_pos_bound (z - -2147483648) 4294967296). lia.
Qed.

Lemma wrap_wrap_add x y : Int.wrap (Int.wrap x + y) = Int.wrap (x + y).
Proof.
  unfold Int.wrap.
  replace ((x - Int.min) mod Int.modulus + Int.min + y - Int.min)
    with ((x - Int.min) mod Int.modulus + y) by lia.
  replace (x + y - Int.min) with ((x - Int.min) + y) by lia.
  rewrite Zplus_mod_idemp_l. reflexivity.
Qed.

Lemma wrap_add_wrap x y : Int.wrap (x + Int.wrap y) = Int.wrap (x + y).
Proof. rewrite Z.add_comm, wrap_wrap_add, Z.add_comm. reflexivity. Qed.

Lemma add_sub_cancel x m : Int.in_range x -> Int.sub (Int.add x m) m = x.
Proof.
  intros H. unfold Int.sub, Int.add.
  replace (Int.wrap (x + m) - m) with (Int.wrap (x + m) + - m) by lia.
  rewrite wrap_wrap_add. replace (x + m + - m) with x by lia.
  apply wrap_in_range; assumption.
Qed.

(** ** Fuel *)

Lemma step4_loop_fuel fuel : forall fuel' matrix M RC CC r0 c0 res,
  step4_loop fuel matrix M RC CC r0 c0 = res ->
  res <> Fail out_of_fuel -> (fuel <= fuel')%nat ->
  step4_loop fuel' matrix M RC CC r0 c0 = res.
Proof.
  induction fuel as [|fuel IH]; intros fuel' matrix M RC CC r0 c0 res Hr Hne Hle.
  - simpl in Hr. congruence.
  - destruct fuel' as [|fuel']; [lia|].
    simpl in *. destruct (find_a_zero matrix RC CC) as [row col].
    destruct (row =? -1); [assumption|].
    destruct (star_in_row row (setZ M row col 2)); [|assumption].
    apply IH; [assumption|assumption|lia].
Qed.

Lemma bind_ok {A B} (x : outcome A) (f : A -> outcome B) b :
  bind x f = Ok b -> exists a, x = Ok a /\ f a = Ok b.
Proof. destruct x; simpl; [eauto|discriminate]. Qed.

Lemma bind_fail {A B} (x : outcome A) (f : A -> outcome B) e :
  bind x f = Fail e -> x = Fail e \/ exists a, x = Ok a /\ f a = Fail e.
Proof. destruct x; simpl; intros H; [right; eauto|left; congruence]. Qed.

Lemma step5_loop_fuel fuel : forall fuel' path pc c M res,
  step5_loop fuel path pc c M = res ->
  res <> Fail out_of_fuel -> (fuel <= fuel')%nat ->
  step5_loop fuel' path pc c M = res.
Proof.
  induction fuel as [|fuel IH]; intros fuel' path pc c M res Hr Hne Hle.
  - simpl in Hr. congruence.
  - destruct fuel' as [|fuel']; [lia|].
    subst res. revert Hne. simpl.
    repeat match goal with
    | |- context [bind ?x _] => destruct x; simpl; [|reflexivity]
    | |- context [if ?b then _ else _] => destruct b; [|reflexivity]
    end.
    intros Hne. apply IH; [reflexivity|assumption|lia].
Qed.

Lemma step5_fuel fuel fuel' path r0 c0 M RC CC res :
  step5 fuel path r0 c0 M RC CC = res ->
  res <> Fail out_of_fuel -> (fuel <= fuel')%nat ->
  step5 fuel' path r0 c0 M RC CC = res.
Proof.
  unfold step5. intros Hr Hne Hle. subst res. revert Hne.
  repeat match goal with
  | |- context [bind (path_write0 ?a ?b ?c) _] =>
      destruct (path_write0 a b c); simpl; [|reflexivity]
  | |- context [bind (path_write1 ?a ?b ?c) _] =>
      destruct (path_write1 a b c); simpl; [|reflexivity]
  end.
  match goal with
  | |- context [step5_loop fuel ?p ?k ?c ?M] =>
      destruct (step5_loop fuel p k c M) as [[p3 pc]|e] eqn:E; intros Hne
  end.
  - rewrite (step5_loop_fuel fuel fuel' _ _ _ _ _ E); [reflexivity|discriminate|assumption].
  - rewrite (step5_loop_fuel fuel fuel' _ _ _ _ _ E); [reflexivity| |assumption].
    simpl in Hne. congruence.
Qed.

Lemma work_step_fuel fuel fuel' rows cols s res :
  work_step fuel rows cols s = res ->
  res <> Fail out_of_fuel -> (fuel <= fuel')%nat ->
  work_step fuel' rows cols s = res.
Proof.
  unfold work_step. intros Hr Hne Hle. subst res. revert Hne.
  destruct (step s) as [|[p|p|]|]; try reflexivity;
    repeat (destruct p as [p|p|]; try reflexivity).
  - destruct (step5 fuel (path s) (path_row_0 s) (path_col_0 s) (M s)
                (RowCover s) (ColCover s)) eqn:E; intros Hne.
    + rewrite (step5_fuel _ fuel' _ _ _ _ _ _ _ E); [reflexivity|discriminate|assumption].
    + rewrite (step5_fuel _ fuel' _ _ _ _ _ _ _ E); [reflexivity| |assumption].
      simpl in Hne. congruence.
  - unfold step4 in *.
    destruct (step4_loop fuel (matrix s) (M s) (RowCover s) (ColCover s)
                (path_row_0 s) (path_col_0 s)) eqn:E; intros Hne.
    + rewrite (step4_loop_fuel _ fuel' _ _ _ _ _ _ _ E); [reflexivity|discriminate|assumption].
    + rewrite (step4_loop_fuel _ fuel' _ _ _ _ _ _ _ E); [reflexivity| |assumption].
      simpl in Hne. congruence.
Qed.

Lemma work_fuel fuel : forall fuel' rows cols s res,
  work fuel rows cols s = res ->
  res <> Fail out_of_fuel -> (fuel <= fuel')%nat ->
  work fuel' rows cols s = res.
Proof.
  induction fuel as [|fuel IH]; intros fuel' rows cols s res Hr Hne Hle.
  - simpl in Hr. congruence.
  - destruct fuel' as [|fuel']; [lia|].
    subst res. revert Hne. simpl.
    destruct (work_step fuel rows cols s) as [[s' d]|e] eqn:E; intros Hne.
    + rewrite (work_step_fuel _ fuel' _ _ _ _ E); [|discriminate|lia].
      simpl in *. destruct d; [reflexivity|].
      apply IH; [reflexivity|assumption|lia].
    + rewrite (work_step_fuel _ fuel' _ _ _ _ E); [reflexivity| |lia].
      simpl in Hne. congruence.
Qed.

Lemma hungarian_run_fuel fuel fuel' original allow res :
  hungarian_run fuel original allow = res ->
  res <> Fail out_of_fuel -> (fuel <= fuel')%nat ->
  hungarian_run fuel' original allow = res.
Proof.
  unfold hungarian_run. intros Hr Hne Hle.
  destruct original as [|row0 rest]; [assumption|].
  destruct (handle_negatives _ _) as [m [e|]]; [assumption|].
  eapply work_fuel; eassumption.
Qed.

Lemma hungarian_fuel fuel fuel' original allow res :
  hungarian fuel original allow = res ->
  res <> Fail out_of_fuel -> (fuel <= fuel')%nat ->
  hungarian fuel' original allow = res.
Proof.
  unfold hungarian. intros Hr Hne Hle. subst res. revert Hne.
  destruct (hungarian_run fuel original allow) as [s|e] eqn:E; intros Hne.
  - rewrite (hungarian_run_fuel _ fuel' _ _ _ E); [reflexivity|discriminate|assumption].
  - rewrite (hungarian_run_fuel _ fuel' _ _ _ E); [reflexivity| |assumption].
    simpl in Hne. congruence.
Qed.

(** ** Lists, vectors and matrices *)

Lemma length_upd {A} (l : list A) i v : length (upd l i v) = length l.
Proof. revert i; induction l as [|h t IH]; intros [|i]; simpl; auto. Qed.

Lemma nth_upd_eq {A} (l : list A) i v d :
  (i < length l)%nat -> nth i (upd l i v) d = v.
Proof.
  revert i; induction l as [|h t IH]; intros [|i] H; simpl in *; try lia; auto.
  apply IH; lia.
Qed.

Lemma nth_upd_neq {A} (l : list A) i j v d :
  i <> j -> nth j (upd l i v) d = nth j l d.
Proof.
  revert i j; induction l as [|h t IH]; intros [|i] [|j] H; simpl; auto; try lia.
Qed.

Lemma upd_out {A} (l : list A) i v : (length l <= i)%nat -> upd l i v = l.
Proof.
  revert i; induction l as [|h t IH]; intros [|i] H; simpl in *; auto; try lia.
  f_equal. apply IH. lia.
Qed.

Lemma Forall_upd {A} (P : A -> Prop) l i v :
  Forall P l -> P v -> Forall P (upd l i v).
Proof.
  intros Hl Hv; revert i; induction Hl; intros [|i]; simpl; auto.
Qed.

Lemma square_length n m : square n m -> length m = n.
Proof. intros [H _]; exact H. Qed.

Lemma square_row n m r : square n m -> (r < n)%nat -> length (nth r m []) = n.
Proof.
  intros [Hl Hf] Hr. rewrite Forall_forall in Hf. apply Hf, nth_In. lia.
Qed.

Lemma square_set n m r c v : square n m -> square n (set m r c v).
Proof.
  intros [Hl Hf]. unfold set.
  destruct (Nat.lt_ge_cases r (length m)) as [Hr|Hr].
  - split.
    + rewrite length_upd. exact Hl.
    + apply Forall_upd; [exact Hf|]. rewrite length_upd.
      rewrite Forall_forall in Hf. apply Hf, nth_In. exact Hr.
  - rewrite upd_out by exact Hr. split; assumption.
Qed.

Lemma get_set_eq n m r c v :
  square n m -> (r < n)%nat -> (c < n)%nat -> get (set m r c v) r c = v.
Proof.
  intros Hs Hr Hc. unfold get, set.
  rewrite nth_upd_eq by (rewrite (square_length _ _ Hs); exact Hr).
  apply nth_upd_eq. rewrite (square_row _ _ _ Hs Hr). exact Hc.
Qed.

Lemma get_set_neq m r c v r' c' :
  (r, c) <> (r', c') -> get (set m r c v) r' c' = get m r' c'.
Proof.
  intros Hne. unfold get, set.
  destruct (Nat.eq_dec r r') as [->|Hr].
  - destruct (Nat.lt_ge_cases r' (length m)) as [Hlt|Hge].
    + rewrite nth_upd_eq by exact Hlt. apply nth_upd_neq. congruence.
    + rewrite upd_out by exact Hge. reflexivity.
  - rewrite nth_upd_neq by exact Hr. reflexivity.
Qed.

Lemma get_set n m r c v r' c' :
  square n m -> (r < n)%nat -> (c < n)%nat ->
  get (set m r c v) r' c' =
  if (Nat.eqb r r' && Nat.eqb c c')%bool then v else get m r' c'.
Proof.
  intros Hs Hr Hc.
  destruct (Nat.eqb_spec r r') as [->|Hr']; simpl.
  - destruct (Nat.eqb_spec c c') as [->|Hc'].
    + apply (get_set_eq n); assumption.
    + apply get_set_neq. congruence.
  - apply get_set_neq. congruence.
Qed.

Lemma fold_left_inv {A B} (P : A -> Prop) (f : A -> B -> A) l : forall a,
  P a -> (forall a b, In b l -> P a -> P (f a b)) -> P (fold_left f l a).
Proof.
  induction l as [|b l IH]; intros a Ha Hf; simpl; [exact Ha|].
  apply IH; [apply Hf; [left; reflexivity|exact Ha]|].
  intros a' b' Hin. apply Hf. right. exact Hin.
Qed.

(** ** Preprocessing *)

Lemma fold_min_neg l : forall a,
  fold_left Z.min l a < 0 <-> (a < 0 \/ exists x, In x l /\ x < 0).
Proof.
  induction l as [|h t IH]; intros a; simpl.
  - split; [auto|intros [H|[x [[] _]]]; exact H].
  - rewrite IH. split.
    + intros [H|[x [Hx Hn]]].
      * destruct (Z.min_spec a h) as [[_ E]|[_ E]]; rewrite E in H; eauto.
      * eauto.
    + intros [H|[x [[->|Hx] Hn]]]; [left; lia|left; lia|eauto].
Qed.

Lemma matrix_min_neg_from m : forall a,
  fold_left (fun minval elem => fold_left Z.min elem minval) m a < 0 <->
  (a < 0 \/ exists row x, In row m /\ In x row /\ x < 0).
Proof.
  induction m as [|row m IH]; intros a; simpl.
  - split; [auto|intros [H|[r [x [[] _]]]]; exact H].
  - rewrite IH, fold_min_neg. split.
    + intros [[H|[x [Hx Hn]]]|[r [x [Hr [Hx Hn]]]]]; eauto 8.
    + intros [H|[r [x [[->|Hr] [Hx Hn]]]]]; eauto 8.
Qed.

Lemma matrix_min_neg m :
  matrix_min m < 0 <-> exists row x, In row m /\ In x row /\ x < 0.
Proof.
  unfold matrix_min. rewrite matrix_min_neg_from. unfold Int.max.
  split; [intros [H|H]; [lia|exact H]|auto].
Qed.

Lemma std_copy_same row n :
  length row = n -> std_copy row (repeat 0 n) = row.
Proof.
  intros H. unfold std_copy. rewrite repeat_length, <- H, firstn_all.
  rewrite skipn_all2 by (rewrite repeat_length; lia).
  apply app_nil_r.
Qed.

Lemma copy_original_rectangular original :
  rectangular original -> copy_original original = original.
Proof.
  intros [_ Hf]. unfold copy_original.
  transitivity (map (fun row : list Z => row) original); [|apply map_id].
  apply map_ext_in. intros row Hr.
  rewrite Forall_forall in Hf. apply std_copy_same, Hf, Hr.
Qed.

(** ** The failures of the loop *)

Lemma path_read_failure path i e : path_read path i = Fail e -> e = out_of_range.
Proof. unfold path_read. destruct (_ && _); congruence. Qed.

Lemma path_write0_failure path i v e :
  path_write0 path i v = Fail e -> e = out_of_range.
Proof.
  unfold path_write0. intros H. apply bind_fail in H.
  destruct H as [H|[a [_ H]]]; [eapply path_read_failure; eauto|discriminate].
Qed.

Lemma path_write1_failure path i v e :
  path_write1 path i v = Fail e -> e = out_of_range.
Proof.
  unfold path_write1. intros H. apply bind_fail in H.
  destruct H as [H|[a [_ H]]]; [eapply path_read_failure; eauto|discriminate].
Qed.

Ltac fail_cases H :=
  repeat match type of H with
  | bind _ _ = Fail _ =>
      let a := fresh "a" in
      apply bind_fail in H; destruct H as [H|[a [_ H]]];
      [ first [ apply path_read_failure in H
              | apply path_write0_failure in H
              | apply path_write1_failure in H ];
        left; exact H
      | ]
  end.

Lemma step4_loop_failure fuel : forall matrix M RC CC r0 c0 e,
  step4_loop fuel matrix M RC CC r0 c0 = Fail e -> e = out_of_fuel.
Proof.
  induction fuel as [|fuel IH]; intros matrix M RC CC r0 c0 e H; simpl in H.
  - congruence.
  - destruct (find_a_zero matrix RC CC) as [row col].
    destruct (row =? -1); [discriminate|].
    destruct (star_in_row row (setZ M row col 2)); [|discriminate].
    eapply IH; eassumption.
Qed.

Lemma step5_loop_failure fuel : forall path pc c M e,
  step5_loop fuel path pc c M = Fail e -> loop_failure e.
Proof.
  induction fuel as [|fuel IH]; intros path pc c M e H; simpl in H.
  - right. congruence.
  - fail_cases H. destruct (_ >? _); [|discriminate].
    fail_cases H. eapply IH; eassumption.
Qed.

Lemma augment_path_loop_failure path ps : forall M e,
  augment_path_loop path ps M = Fail e -> loop_failure e.
Proof.
  induction ps as [|p ps IH]; intros M e H; simpl in H; [discriminate|].
  fail_cases H. eapply IH; eassumption.
Qed.

Lemma step5_failure fuel path r0 c0 M RC CC e :
  step5 fuel path r0 c0 M RC CC = Fail e -> loop_failure e.
Proof.
  unfold step5. intros H. fail_cases H.
  apply bind_fail in H. destruct H as [H|[[p pc] [_ H]]].
  - eapply step5_loop_failure; eassumption.
  - apply bind_fail in H. destruct H as [H|[M' [_ H]]]; [|discriminate].
    eapply augment_path_loop_failure; eassumption.
Qed.

(** The turns of the loop, one equation for each value of [step]. *)

Lemma work_step_1 fuel rows cols s :
  step s = 1 ->
  work_step fuel rows cols s =
  Ok (mkState (fst (step1 (matrix s))) (M s) (RowCover s) (ColCover s)
              (path_row_0 s) (path_col_0 s) (path s) 2, false).
Proof. intros E. unfold work_step. rewrite E. reflexivity. Qed.

Lemma work_step_2 fuel rows cols s M' RC' CC' st' :
  step s = 2 ->
  step2 (matrix s) (M s) (RowCover s) (ColCover s) = (M', RC', CC', st') ->
  work_step fuel rows cols s =
  Ok (mkState (matrix s) M' RC' CC' (path_row_0 s) (path_col_0 s) (path s) st',
      false).
Proof. intros E E2. unfold work_step. rewrite E, E2. reflexivity. Qed.

Lemma work_step_3 fuel rows cols s CC' st' :
  step s = 3 ->
  step3 (M s) (ColCover s) = (CC', st') ->
  work_step fuel rows cols s =
  Ok (mkState (matrix s) (M s) (RowCover s) CC'
              (path_row_0 s) (path_col_0 s) (path s) st', false).
Proof. intros E E3. unfold work_step. rewrite E, E3. reflexivity. Qed.

Lemma work_step_4 fuel rows cols s :
  step s = 4 ->
  work_step fuel rows cols s =
  match step4 fuel (matrix s) (M s) (RowCover s) (ColCover s)
              (path_row_0 s) (path_col_0 s) with
  | Ok (M', RC', CC', r0, c0, st') =>
      Ok (mkState (matrix s) M' RC' CC' r0 c0 (path s) st', false)
  | Fail e => Fail e
  end.
Proof.
  intros E. unfold work_step. rewrite E.
  destruct (step4 _ _ _ _ _ _ _) as [[[[[[? ?] ?] ?] ?] ?]|]; reflexivity.
Qed.

Lemma work_step_5 fuel rows cols s :
  step s = 5 ->
  work_step fuel rows cols s =
  match step5 fuel (path s) (path_row_0 s) (path_col_0 s)
              (M s) (RowCover s) (ColCover s) with
  | Ok (path', M', RC', CC', st') =>
      Ok (mkState (matrix s) M' RC' CC' (path_row_0 s) (path_col_0 s) path' st',
          false)
  | Fail e => Fail e
  end.
Proof.
  intros E. unfold work_step. rewrite E.
  destruct (step5 _ _ _ _ _ _ _) as [[[[[? ?] ?] ?] ?]|]; reflexivity.
Qed.

Lemma work_step_6 fuel rows cols s :
  step s = 6 ->
  work_step fuel rows cols s =
  Ok (mkState (fst (step6 (matrix s) (RowCover s) (ColCover s)))
              (M s) (RowCover s) (ColCover s)
              (path_row_0 s) (path_col_0 s) (path s) 4, false).
Proof. intros E. unfold work_step. rewrite E. reflexivity. Qed.

Lemma work_step_7 fuel rows cols s :
  step s = 7 ->
  work_step fuel rows cols s =
  Ok (mkState (matrix s) (resize rows [] (map (resize cols 0) (M s)))
              (RowCover s) (ColCover s)
              (path_row_0 s) (path_col_0 s) (path s) 7, true).
Proof. intros E. unfold work_step. rewrite E. reflexivity. Qed.

Lemma work_step_other fuel rows cols s :
  ~ (1 <= step s <= 7) -> work_step fuel rows cols s = Ok (s, true).
Proof.
  intros E. unfold work_step.
  destruct (step s) as [|[p|p|]|]; try reflexivity;
    repeat (destruct p as [p|p|]; try reflexivity); lia.
Qed.

Lemma step_cases (z : Z) :
  z = 1 \/ z = 2 \/ z = 3 \/ z = 4 \/ z = 5 \/ z = 6 \/ z = 7 \/ ~ (1 <= z <= 7).
Proof. lia. Qed.

Lemma work_step_failure fuel rows cols s e :
  work_step fuel rows cols s = Fail e -> loop_failure e.
Proof.
  intros H.
  destruct (step_cases (step s)) as [E|[E|[E|[E|[E|[E|[E|E]]]]]]].
  - rewrite (work_step_1 _ _ _ _ E) in H. discriminate.
  - destruct (step2 (matrix s) (M s) (RowCover s) (ColCover s))
      as [[[M' RC'] CC'] st'] eqn:E2.
    rewrite (work_step_2 _ _ _ _ _ _ _ _ E E2) in H. discriminate.
  - destruct (step3 (M s) (ColCover s)) as [CC' st'] eqn:E3.
    rewrite (work_step_3 _ _ _ _ _ _ E E3) in H. discriminate.
  - rewrite (work_step_4 _ _ _ _ E) in H.
    destruct (step4 _ _ _ _ _ _ _) as [[[[[[? ?] ?] ?] ?] ?]|e'] eqn:E4;
      [discriminate|].
    unfold step4 in E4. apply step4_loop_failure in E4.
    right. congruence.
  - rewrite (work_step_5 _ _ _ _ E) in H.
    destruct (step5 _ _ _ _ _ _ _) as [[[[[? ?] ?] ?] ?]|e'] eqn:E5;
      [discriminate|].
    apply step5_failure in E5. congruence.
  - rewrite (work_step_6 _ _ _ _ E) in H. discriminate.
  - rewrite (work_step_7 _ _ _ _ E) in H. discriminate.
  - rewrite (work_step_other _ _ _ _ E) in H. discriminate.
Qed.

Lemma work_failure fuel : forall rows cols s e,
  work fuel rows cols s = Fail e -> loop_failure e.
Proof.
  induction fuel as [|fuel IH]; intros rows cols s e H; simpl in H.
  - right. congruence.
  - apply bind_fail in H. destruct H as [H|[[s' d] [_ H]]].
    + eapply work_step_failure; eassumption.
    + destruct d; [discriminate|]. eapply IH; eassumption.
Qed.

(** ** Entrywise maps and the adjustment of step 6 *)

Lemma get_map_map (f : Z -> Z) m r c :
  (r < length m)%nat -> (c < length (nth r m []))%nat ->
  get (map (map f) m) r c = f (get m r c).
Proof.
  intros Hr Hc. unfold get.
  rewrite (nth_indep _ [] (map f []))
    by (rewrite length_map; exact Hr).
  rewrite map_nth.
  rewrite (nth_indep _ 0 (f 0)) by (rewrite length_map; exact Hc).
  apply map_nth.
Qed.

Lemma square_map_map (f : Z -> Z) n m : square n m -> square n (map (map f) m).
Proof.
  intros [Hl Hf]. split; [rewrite length_map; exact Hl|].
  apply Forall_map. eapply Forall_impl; [|exact Hf].
  intros row Hrow. simpl. rewrite length_map. exact Hrow.
Qed.

Lemma step6_cell_square n RC CC minval r m c :
  square n m -> square n (step6_cell RC CC minval r m c).
Proof.
  intros H. unfold step6_cell.
  destruct (nth r RC 0 =? 1), (nth c CC 0 =? 0);
    repeat apply square_set; exact H.
Qed.

Lemma step6_cell_get n RC CC minval r m c r' c' :
  square n m -> (r < n)%nat -> (c < n)%nat ->
  get (step6_cell RC CC minval r m c) r' c' =
  if (Nat.eqb r r' && Nat.eqb c c')%bool
  then adjust RC CC minval r c (get m r c)
  else get m r' c'.
Proof.
  intros Hs Hr Hc. unfold step6_cell, adjust.
  destruct (nth r RC 0 =? 1), (nth c CC 0 =? 0);
    repeat (rewrite (get_set n) by (try apply square_set; assumption));
    rewrite ?Nat.eqb_refl; simpl;
    destruct (Nat.eqb_spec r r'), (Nat.eqb_spec c c'); subst; reflexivity.
Qed.

Lemma step6_row n RC CC minval r m k :
  square n m -> (r < n)%nat -> (k <= n)%nat ->
  square n (fold_left (step6_cell RC CC minval r) (seq 0 k) m) /\
  forall r' c',
    get (fold_left (step6_cell RC CC minval r) (seq 0 k) m) r' c' =
    if (Nat.eqb r r' && Nat.ltb c' k)%bool
    then adjust RC CC minval r c' (get m r c')
    else get m r' c'.
Proof.
  intros Hs Hr. induction k as [|k IH]; intros Hk.
  - simpl. split; [exact Hs|]. intros r' c'.
    rewrite andb_false_r. reflexivity.
  - destruct IH as [IHs IHg]; [lia|].
    rewrite seq_S, fold_left_app. simpl. split.
    + apply step6_cell_square. exact IHs.
    + intros r' c'. rewrite (step6_cell_get n) by (auto; lia).
      rewrite !IHg.
      destruct (Nat.eqb_spec r r') as [->|Hne]; simpl.
      * rewrite Nat.eqb_refl. simpl.
        destruct (Nat.eqb_spec k c') as [->|Hkc].
        -- rewrite Nat.ltb_irrefl.
           replace (c' <? S c')%nat with true by (symmetry; apply Nat.ltb_lt; lia).
           reflexivity.
        -- destruct (Nat.ltb_spec c' k), (Nat.ltb_spec c' (S k)); try lia; reflexivity.
      * reflexivity.
Qed.

Lemma step6_rows n RC CC minval m k :
  square n m -> (k <= n)%nat ->
  let m' := fold_left (fun m r => fold_left (step6_cell RC CC minval r) (seq 0 n) m)
                      (seq 0 k) m in
  square n m' /\
  forall r c, (c < n)%nat ->
    get m' r c = if Nat.ltb r k then adjust RC CC minval r c (get m r c)
                 else get m r c.
Proof.
  intros Hs. induction k as [|k IH]; intros Hk; cbv zeta.
  - simpl. split; [exact Hs|reflexivity].
  - destruct IH as [IHs IHg]; [lia|].
    rewrite seq_S, fold_left_app. simpl.
    destruct (step6_row n RC CC minval k _ n IHs) as [Rs Rg]; [lia|lia|].
    split; [exact Rs|].
    intros r c Hc. rewrite Rg, !IHg by assumption.
    rewrite Nat.ltb_irrefl.
    replace (c <? n)%nat with true by (symmetry; apply Nat.ltb_lt; exact Hc).
    rewrite andb_true_r.
    destruct (Nat.eqb_spec k r) as [->|Hne].
    + replace (r <? S r)%nat with true by (symmetry; apply Nat.ltb_lt; lia).
      reflexivity.
    + destruct (Nat.ltb_spec r k), (Nat.ltb_spec r (S k)); try lia; reflexivity.
Qed.

Lemma step6_square n m RC CC :
  square n m -> square n (fst (step6 m RC CC)).
Proof.
  intros Hs. unfold step6. simpl. rewrite (square_length _ _ Hs).
  apply (step6_rows n RC CC _ m n Hs). lia.
Qed.

Lemma step6_get n m RC CC r c :
  square n m -> (r < n)%nat -> (c < n)%nat ->
  get (fst (step6 m RC CC)) r c =
  adjust RC CC (find_smallest Int.max m RC CC) r c (get m r c).
Proof.
  intros Hs Hr Hc. unfold step6. simpl. rewrite (square_length _ _ Hs).
  destruct (step6_rows n RC CC (find_smallest Int.max m RC CC) m n Hs) as [_ Hg];
    [lia|].
  rewrite Hg by exact Hc.
  replace (r <? n)%nat with true by (symmetry; apply Nat.ltb_lt; exact Hr).
  reflexivity.
Qed.

Lemma nth_map_row (g : list Z -> list Z) m r :
  (r < length m)%nat -> nth r (map g m) [] = g (nth r m []).
Proof.
  intros Hr. rewrite (nth_indep _ [] (g [])) by (rewrite length_map; exact Hr).
  apply map_nth.
Qed.

Lemma nth_map_entry (f : Z -> Z) row c :
  (c < length row)%nat -> nth c (map f row) 0 = f (nth c row 0).
Proof.
  intros Hc. rewrite (nth_indep _ 0 (f 0)) by (rewrite length_map; exact Hc).
  apply map_nth.
Qed.

Lemma step1_get m r c :
  (r < length m)%nat -> (c < length (nth r m []))%nat ->
  get (fst (step1 m)) r c =
  if 0 <? min_element (nth r m [])
  then Int.sub (get m r c) (min_element (nth r m []))
  else get m r c.
Proof.
  intros Hr Hc. unfold step1, get. simpl.
  rewrite nth_map_row by exact Hr.
  destruct (0 <? min_element (nth r m [])); [|reflexivity].
  apply nth_map_entry. exact Hc.
Qed.

Lemma handle_negatives_get m r c :
  (r < length m)%nat -> (c < length (nth r m []))%nat ->
  matrix_min m < 0 ->
  get (fst (handle_negatives m true)) r c =
  Int.add (get m r c) (Int.abs (matrix_min m)).
Proof.
  intros Hr Hc Hneg. unfold handle_negatives.
  apply Z.ltb_lt in Hneg. rewrite Hneg. simpl.
  apply get_map_map; assumption.
Qed.

(** ** The values of the mask *)

Lemma is01_is012 v : is01 v -> is012 v.
Proof. unfold is01, is012. tauto. Qed.

Lemma mask_values_impl (P Q : Z -> Prop) M :
  (forall v, P v -> Q v) -> mask_values P M -> mask_values Q M.
Proof.
  intros HPQ H. unfold mask_values in *.
  eapply Forall_impl; [|exact H]. intros row Hrow.
  eapply Forall_impl; [|exact Hrow]. exact HPQ.
Qed.

Lemma mask_values_set (P : Z -> Prop) M r c v :
  mask_values P M -> P v -> mask_values P (set M r c v).
Proof.
  intros HM Hv. unfold mask_values, set in *.
  apply Forall_upd; [exact HM|].
  apply Forall_upd; [|exact Hv].
  destruct (Nat.lt_ge_cases r (length M)) as [Hr|Hr].
  - rewrite Forall_forall in HM. apply HM, nth_In. exact Hr.
  - rewrite nth_overflow by exact Hr. constructor.
Qed.

Lemma mask_values_get (P : Z -> Prop) M r c :
  mask_values P M -> P 0 -> P (get M r c).
Proof.
  intros HM H0. unfold get.
  destruct (Nat.lt_ge_cases r (length M)) as [Hr|Hr].
  - assert (Hrow : Forall P (nth r M [])).
    { unfold mask_values in HM. rewrite Forall_forall in HM.
      apply HM, nth_In. exact Hr. }
    destruct (Nat.lt_ge_cases c (length (nth r M []))) as [Hc|Hc].
    + rewrite Forall_forall in Hrow. apply Hrow, nth_In. exact Hc.
    + rewrite nth_overflow by exact Hc. exact H0.
  - rewrite (nth_overflow M) by exact Hr. destruct c; exact H0.
Qed.

Lemma Forall_firstn {A} (P : A -> Prop) n l : Forall P l -> Forall P (firstn n l).
Proof.
  intros H. rewrite <- (firstn_skipn n l) in H.
  apply Forall_app in H. destruct H as [H _]. exact H.
Qed.

Lemma Forall_resize {A} (P : A -> Prop) n v l :
  Forall P l -> P v -> Forall P (resize n v l).
Proof.
  intros Hl Hv. unfold resize. apply Forall_app. split.
  - apply Forall_firstn. exact Hl.
  - apply Forall_forall. intros x Hx. apply repeat_spec in Hx. subst. exact Hv.
Qed.

Lemma mask_values_resize (P : Z -> Prop) rows cols M :
  mask_values P M -> P 0 ->
  mask_values P (resize rows [] (map (resize cols 0) M)).
Proof.
  intros HM H0. unfold mask_values in *.
  apply Forall_resize; [|constructor].
  apply Forall_map. eapply Forall_impl; [|exact HM].
  intros row Hrow. apply Forall_resize; assumption.
Qed.

Lemma mask_values_repeat (P : Z -> Prop) n k : P 0 -> mask_values P (repeat (repeat 0 n) k).
Proof.
  intros H0. apply Forall_forall. intros row Hrow.
  apply repeat_spec in Hrow. subst.
  apply Forall_forall. intros x Hx. apply repeat_spec in Hx. subst. exact H0.
Qed.

Lemma erase_primes_values M : mask_values is012 M -> mask_values is01 (erase_primes M).
Proof.
  intros HM. unfold erase_primes, mask_values in *.
  apply Forall_map. eapply Forall_impl; [|exact HM].
  intros row Hrow. apply Forall_map. eapply Forall_impl; [|exact Hrow].
  intros v [-> | [-> | ->]]; simpl; unfold is01; auto.
Qed.

(** Nested loops over rows and columns. *)

Lemma nested_fold_inv {A} (g : nat -> A -> nat -> A) (P : A -> Prop) rs cs : forall a,
  P a ->
  (forall a r c, In r rs -> In c cs -> P a -> P (g r a c)) ->
  P (fold_left (fun a r => fold_left (g r) cs a) rs a).
Proof.
  intros a Ha Hg. apply fold_left_inv; [exact Ha|].
  intros a' r Hr Ha'. apply fold_left_inv; [exact Ha'|].
  intros a'' c Hc Ha''. apply Hg; assumption.
Qed.

Lemma step2_values (P : Z -> Prop) matrix M RC CC :
  mask_values P M -> P 1 ->
  mask_values P (fst (fst (fst (step2 matrix M RC CC)))).
Proof.
  intros HM H1. unfold step2.
  set (res := fold_left _ _ _).
  assert (H : mask_values P (fst (fst res))).
  { subst res.
    apply (nested_fold_inv (step2_cell matrix)
             (fun st => mask_values P (fst (fst st)))); [exact HM|].
    intros [[M' RC'] CC'] r c _ _ H'. unfold step2_cell. simpl in *.
    destruct (get matrix r c =? 0); [|exact H'].
    destruct (_ && _); [|exact H'].
    simpl. apply mask_values_set; assumption. }
  destruct res as [[M' RC'] CC']. exact H.
Qed.

Lemma step4_loop_values fuel : forall matrix M RC CC r0 c0 M' RC' CC' r0' c0' st',
  mask_values is012 M ->
  step4_loop fuel matrix M RC CC r0 c0 = Ok (M', RC', CC', r0', c0', st') ->
  mask_values is012 M' /\ (st' = 5 \/ st' = 6).
Proof.
  induction fuel as [|fuel IH];
    intros matrix M RC CC r0 c0 M' RC' CC' r0' c0' st' HM H; simpl in H.
  - discriminate.
  - destruct (find_a_zero matrix RC CC) as [row col].
    destruct (row =? -1).
    + inversion H; subst. auto.
    + assert (HM2 : mask_values is012 (setZ M row col 2)).
      { apply mask_values_set; [exact HM|unfold is012; auto]. }
      destruct (star_in_row row (setZ M row col 2)).
      * eapply IH; eassumption.
      * inversion H; subst. auto.
Qed.

Lemma augment_path_loop_values path ps : forall M M',
  mask_values is012 M ->
  augment_path_loop path ps M = Ok M' -> mask_values is012 M'.
Proof.
  induction ps as [|p ps IH]; intros M M' HM H; simpl in H.
  - inversion H; subst. exact HM.
  - apply bind_ok in H. destruct H as [rc [_ H]].
    eapply IH; [|exact H].
    destruct (getZ M (fst rc) (snd rc) =? 1);
      apply mask_values_set; unfold is012; auto.
Qed.

Lemma step5_values fuel path r0 c0 M RC CC path' M' RC' CC' st' :
  mask_values is012 M ->
  step5 fuel path r0 c0 M RC CC = Ok (path', M', RC', CC', st') ->
  mask_values is01 M' /\ st' = 3.
Proof.
  intros HM H. unfold step5 in H.
  apply bind_ok in H. destruct H as [p1 [_ H]].
  apply bind_ok in H. destruct H as [p2 [_ H]].
  apply bind_ok in H. destruct H as [[p3 pc] [_ H]].
  apply bind_ok in H. destruct H as [M1 [Ha H]].
  inversion H; subst. split; [|reflexivity].
  apply erase_primes_values. eapply augment_path_loop_values; eassumption.
Qed.

(** The mask holds 0, 1 or 2 throughout, and only 0 or 1 outside steps 4 to 6. *)

Lemma work_step_values fuel rows cols s s' d :
  values_inv s -> work_step fuel rows cols s = Ok (s', d) -> values_inv s'.
Proof.
  intros [Hst [H012 H01]] H.
  destruct (step_cases (step s)) as [E|[E|[E|[E|[E|[E|[E|E]]]]]]]; [..|lia].
  - rewrite (work_step_1 _ _ _ _ E) in H. inversion H; subst; clear H.
    split; [simpl; lia|]. simpl. split; [exact H012|]. intros _. apply H01. auto.
  - destruct (step2 (matrix s) (M s) (RowCover s) (ColCover s))
      as [[[M' RC'] CC'] st'] eqn:E2.
    rewrite (work_step_2 _ _ _ _ _ _ _ _ E E2) in H. inversion H; subst; clear H.
    assert (Hv : mask_values is01 M').
    { pose proof (step2_values is01 (matrix s) (M s) (RowCover s) (ColCover s)) as Hv.
      rewrite E2 in Hv. apply Hv; [apply H01; auto|unfold is01; auto]. }
    assert (st' = 3).
    { unfold step2 in E2. destruct (fold_left _ _ _) as [[? ?] ?].
      inversion E2. reflexivity. }
    subst st'. split; [simpl; lia|]. simpl.
    split; [eapply mask_values_impl; [apply is01_is012|exact Hv]|auto].
  - destruct (step3 (M s) (ColCover s)) as [CC' st'] eqn:E3.
    rewrite (work_step_3 _ _ _ _ _ _ E E3) in H. inversion H; subst; clear H.
    assert (st' = 7 \/ st' = 4).
    { unfold step3 in E3. destruct (_ >=? _); inversion E3; auto. }
    split; [simpl; lia|]. simpl. split; [exact H012|]. intros _. apply H01. auto.
  - rewrite (work_step_4 _ _ _ _ E) in H.
    destruct (step4 _ _ _ _ _ _ _) as [[[[[[M' RC'] CC'] r0'] c0'] st']|e] eqn:E4;
      [|discriminate].
    inversion H; subst; clear H. unfold step4 in E4.
    destruct (step4_loop_values _ _ _ _ _ _ _ _ _ _ _ _ _ H012 E4) as [Hv Hs].
    split; [simpl; lia|]. simpl. split; [exact Hv|]. intros Hc. lia.
  - rewrite (work_step_5 _ _ _ _ E) in H.
    destruct (step5 _ _ _ _ _ _ _) as [[[[[p' M'] RC'] CC'] st']|e] eqn:E5;
      [|discriminate].
    inversion H; subst; clear H.
    destruct (step5_values _ _ _ _ _ _ _ _ _ _ _ _ H012 E5) as [Hv Hs]. subst st'.
    split; [simpl; lia|]. simpl.
    split; [eapply mask_values_impl; [apply is01_is012|exact Hv]|auto].
  - rewrite (work_step_6 _ _ _ _ E) in H. inversion H; subst; clear H.
    split; [simpl; lia|]. simpl. split; [exact H012|]. intros Hc. lia.
  - rewrite (work_step_7 _ _ _ _ E) in H. inversion H; subst; clear H.
    split; [simpl; lia|]. simpl.
    split; [apply mask_values_resize; [exact H012|unfold is012; auto]|].
    intros _. apply mask_values_resize; [apply H01; auto|unfold is01; auto].
Qed.

(** A property kept by every turn holds of the final state; the loop ends
    in step 7 when it starts within steps 1 to 7. *)
Lemma work_inv (P : state -> Prop) rows cols :
  (forall fuel s s' d, P s -> work_step fuel rows cols s = Ok (s', d) -> P s') ->
  forall fuel s s', P s -> work fuel rows cols s = Ok s' -> P s'.
Proof.
  intros Hstep. induction fuel as [|fuel IH]; intros s s' Hs H; simpl in H.
  - discriminate.
  - apply bind_ok in H. destruct H as [[s1 d] [H1 H]].
    pose proof (Hstep _ _ _ _ Hs H1) as Hs1.
    destruct d; [inversion H; subst; exact Hs1|].
    eapply IH; eassumption.
Qed.

Lemma work_step_done fuel rows cols s s' :
  work_step fuel rows cols s = Ok (s', true) -> 1 <= step s <= 7 -> step s = 7.
Proof.
  intros H Hst.
  destruct (step_cases (step s)) as [E|[E|[E|[E|[E|[E|[E|E]]]]]]]; [..|lia]; try exact E;
    exfalso.
  - rewrite (work_step_1 _ _ _ _ E) in H. discriminate.
  - destruct (step2 (matrix s) (M s) (RowCover s) (ColCover s))
      as [[[M' RC'] CC'] st'] eqn:E2.
    rewrite (work_step_2 _ _ _ _ _ _ _ _ E E2) in H. discriminate.
  - destruct (step3 (M s) (ColCover s)) as [CC' st'] eqn:E3.
    rewrite (work_step_3 _ _ _ _ _ _ E E3) in H. discriminate.
  - rewrite (work_step_4 _ _ _ _ E) in H.
    destruct (step4 _ _ _ _ _ _ _) as [[[[[[? ?] ?] ?] ?] ?]|]; discriminate.
  - rewrite (work_step_5 _ _ _ _ E) in H.
    destruct (step5 _ _ _ _ _ _ _) as [[[[[? ?] ?] ?] ?]|]; discriminate.
  - rewrite (work_step_6 _ _ _ _ E) in H. discriminate.
Qed.

Lemma init_values m : values_inv (init_state m).
Proof.
  unfold values_inv, init_state. simpl. split; [lia|].
  split; [apply mask_values_repeat; unfold is012; auto|].
  intros _. apply mask_values_repeat. unfold is01. auto.
Qed.

Lemma work_final_values fuel rows cols m s :
  work fuel rows cols (init_state m) = Ok s ->
  step s = 7 /\ mask_values is01 (M s).
Proof.
  intros H.
  assert (Hinv : values_inv s /\ step s = 7).
  { revert H. generalize (init_values m). generalize (init_state m).
    induction fuel as [|fuel IH]; intros s0 Hs0 H; simpl in H; [discriminate|].
    apply bind_ok in H. destruct H as [[s1 d] [H1 H]].
    pose proof (work_step_values _ _ _ _ _ _ Hs0 H1) as Hs1.
    destruct d.
    - inversion H; subst. split; [exact Hs1|].
      destruct Hs0 as [Hst _].
      pose proof (work_step_done _ _ _ _ _ H1 Hst) as E.
      rewrite (work_step_7 _ _ _ _ E) in H1. inversion H1. reflexivity.
    - eapply IH; eassumption. }
  destruct Hinv as [[_ [_ H01]] E]. split; [exact E|]. apply H01. auto.
Qed.


(** ** The reported cost *)

Lemma fold_columns_rows {A} (g : nat -> A -> nat -> A) rws js : forall a,
  fold_left (fun a j => fold_left (g j) rws a) js a =
  fold_left (fun a rc => g (snd rc) a (fst rc))
            (flat_map (fun j => map (fun i => (i, j)) rws) js) a.
Proof.
  induction js as [|j js IH]; intros a; simpl; [reflexivity|].
  rewrite fold_left_app, IH. f_equal.
  clear IH. revert a. induction rws as [|i rws IHi]; intros a; simpl; [reflexivity|].
  apply IHi.
Qed.

Lemma fold_cost_cells original M cells : forall a,
  mask_values is01 M ->
  fold_left (fun res rc =>
               if negb (get M (fst rc) (snd rc) =? 0)
               then Int.add res (get original (fst rc) (snd rc))
               else res) cells (Int.wrap a) =
  Int.wrap (a + sumZ (map (fun rc => get original (fst rc) (snd rc))
                          (filter (fun rc => get M (fst rc) (snd rc) =? 1) cells))).
Proof.
  intros a HM. revert a. induction cells as [|[i j] cells IH]; intros a; simpl.
  - rewrite Z.add_0_r. reflexivity.
  - destruct (mask_values_get is01 M i j HM) as [E|E]; [left; reflexivity| |];
      rewrite E; simpl.
    + apply IH.
    + unfold Int.add. rewrite wrap_wrap_add, IH. f_equal. lia.
Qed.

Lemma output_solution_sum original M :
  mask_values is01 M ->
  output_solution original M = Int.wrap (starred_sum original M).
Proof.
  intros HM. unfold output_solution, starred_sum, starred_cells.
  rewrite (fold_columns_rows
             (fun j res i => if negb (get M i j =? 0)
                             then Int.add res (get original i j) else res)).
  simpl.
  change 0 with (Int.wrap 0) at 1.
  rewrite (fold_cost_cells original M _ 0 HM). reflexivity.
Qed.

(** ** Stars, primes and the search helpers *)

Lemma get_range n m r c : square n m -> get m r c <> 0 -> (r < n)%nat /\ (c < n)%nat.
Proof.
  intros Hs Hne. unfold get in Hne.
  destruct (Nat.lt_ge_cases r n) as [Hr|Hr].
  - split; [exact Hr|].
    destruct (Nat.lt_ge_cases c n) as [Hc|Hc]; [exact Hc|].
    rewrite nth_overflow in Hne; [congruence|].
    rewrite (square_row _ _ _ Hs Hr). exact Hc.
  - rewrite (nth_overflow m) in Hne by (rewrite (square_length _ _ Hs); exact Hr).
    destruct c; simpl in Hne; congruence.
Qed.

Lemma star_range n M r c : square n M -> star M r c -> (r < n)%nat /\ (c < n)%nat.
Proof. unfold star. intros Hs H. apply (get_range n M); [exact Hs|lia]. Qed.

Lemma prime_range n M r c : square n M -> prime M r c -> (r < n)%nat /\ (c < n)%nat.
Proof. unfold prime. intros Hs H. apply (get_range n M); [exact Hs|lia]. Qed.

Lemma nth_range (l : list Z) i : nth i l 0 <> 0 -> (i < length l)%nat.
Proof.
  intros H. destruct (Nat.lt_ge_cases i (length l)) as [Hi|Hi]; [exact Hi|].
  rewrite nth_overflow in H by exact Hi. congruence.
Qed.

(* A loop that remembers the last index satisfying p. *)
Lemma fold_last (p : nat -> bool) n d :
  let res := fold_left (fun acc i => if p i then Z.of_nat i else acc) (seq 0 n) d in
  (res = d /\ forall i, (i < n)%nat -> p i = false) \/
  (exists i, (i < n)%nat /\ p i = true /\ res = Z.of_nat i).
Proof.
  induction n as [|n IH]; cbv zeta.
  - left. split; [reflexivity|]. intros i Hi. lia.
  - rewrite seq_S, fold_left_app. simpl.
    destruct (p n) eqn:Ep.
    + right. exists n. split; [lia|]. split; [exact Ep|reflexivity].
    + destruct IH as [[E Hn]|[i [Hi [Hp E]]]].
      * left. split; [exact E|]. intros i Hi.
        destruct (Nat.eq_dec i n) as [->|Hne]; [exact Ep|apply Hn; lia].
      * right. exists i. split; [lia|]. split; assumption.
Qed.

(* A loop that remembers whether some index satisfies p. *)
Lemma fold_any (p : nat -> bool) n :
  fold_left (fun tmp c => if p c then true else tmp) (seq 0 n) false = true <->
  exists c, (c < n)%nat /\ p c = true.
Proof.
  induction n as [|n IH].
  - simpl. split; [discriminate|intros [c [Hc _]]; lia].
  - rewrite seq_S, fold_left_app. simpl.
    destruct (p n) eqn:Ep.
    + split; [intros _; exists n; split; [lia|exact Ep]|reflexivity].
    + rewrite IH. split; intros [c [Hc Hp]].
      * exists c. split; [lia|exact Hp].
      * exists c. split; [|exact Hp].
        destruct (Nat.eq_dec c n) as [->|Hne]; [congruence|lia].
Qed.

Lemma star_in_row_spec n M r :
  square n M ->
  (star_in_row (Z.of_nat r) M = true <-> exists c, star M r c).
Proof.
  intros Hs. unfold star_in_row. rewrite Nat2Z.id, (square_length _ _ Hs).
  rewrite (fold_any (fun c => get M r c =? 1) n). split.
  - intros [c [_ H]]. exists c. apply Z.eqb_eq. exact H.
  - intros [c H]. exists c. split; [apply (star_range n M r c Hs H)|].
    apply Z.eqb_eq. exact H.
Qed.

Lemma find_star_in_row_spec n M r :
  square n M ->
  (find_star_in_row (Z.of_nat r) M = -1 /\ forall c, ~ star M r c) \/
  (exists c, (c < n)%nat /\ star M r c /\ find_star_in_row (Z.of_nat r) M = Z.of_nat c).
Proof.
  intros Hs. unfold find_star_in_row. rewrite Nat2Z.id, (square_length _ _ Hs).
  destruct (fold_last (fun c => get M r c =? 1) n (-1)) as [[E Hn]|[c [Hc [Hp E]]]].
  - left. split; [exact E|]. intros c H.
    pose proof (star_range n M r c Hs H) as [_ Hc].
    specialize (Hn c Hc). apply Z.eqb_neq in Hn. contradiction.
  - right. exists c. split; [exact Hc|]. split; [apply Z.eqb_eq; exact Hp|exact E].
Qed.

Lemma find_star_in_col_spec n M c :
  square n M ->
  (find_star_in_col (Z.of_nat c) M = -1 /\ forall r, ~ star M r c) \/
  (exists r, (r < n)%nat /\ star M r c /\ find_star_in_col (Z.of_nat c) M = Z.of_nat r).
Proof.
  intros Hs. unfold find_star_in_col. rewrite Nat2Z.id, (square_length _ _ Hs).
  destruct (fold_last (fun r => get M r c =? 1) n (-1)) as [[E Hn]|[r [Hr [Hp E]]]].
  - left. split; [exact E|]. intros r H.
    pose proof (star_range n M r c Hs H) as [Hr _].
    specialize (Hn r Hr). apply Z.eqb_neq in Hn. contradiction.
  - right. exists r. split; [exact Hr|]. split; [apply Z.eqb_eq; exact Hp|exact E].
Qed.

Lemma find_prime_in_row_spec n M r c0 :
  square n M ->
  (find_prime_in_row (Z.of_nat r) c0 M = c0 /\ forall c, ~ prime M r c) \/
  (exists c, (c < n)%nat /\ prime M r c /\
             find_prime_in_row (Z.of_nat r) c0 M = Z.of_nat c).
Proof.
  intros Hs. unfold find_prime_in_row. rewrite Nat2Z.id, (square_length _ _ Hs).
  destruct (fold_last (fun c => get M r c =? 2) n c0) as [[E Hn]|[c [Hc [Hp E]]]].
  - left. split; [exact E|]. intros c H.
    pose proof (prime_range n M r c Hs H) as [_ Hc].
    specialize (Hn c Hc). apply Z.eqb_neq in Hn. contradiction.
  - right. exists c. split; [exact Hc|]. split; [apply Z.eqb_eq; exact Hp|exact E].
Qed.

Lemma find_a_zero_cols_spec matrix RC CC r cs :
  match find_a_zero_cols matrix RC CC r cs with
  | Some c => In c cs /\ uncovered_zero matrix RC CC r c = true
  | None => forall c, In c cs -> uncovered_zero matrix RC CC r c = false
  end.
Proof.
  induction cs as [|c cs IH]; simpl.
  - intros c [].
  - fold (uncovered_zero matrix RC CC r c).
    destruct (uncovered_zero matrix RC CC r c) eqn:E.
    + split; [left; reflexivity|exact E].
    + destruct (find_a_zero_cols matrix RC CC r cs) as [c'|].
      * destruct IH as [Hin Hu]. split; [right; exact Hin|exact Hu].
      * intros c' [<-|Hin]; [exact E|apply IH; exact Hin].
Qed.

Lemma find_a_zero_rows_spec matrix RC CC sz rs :
  (find_a_zero_rows matrix RC CC sz rs = (-1, -1) /\
   forall r c, In r rs -> (c < sz)%nat -> uncovered_zero matrix RC CC r c = false) \/
  (exists r c, In r rs /\ (c < sz)%nat /\ uncovered_zero matrix RC CC r c = true /\
               find_a_zero_rows matrix RC CC sz rs = (Z.of_nat r, Z.of_nat c)).
Proof.
  induction rs as [|r rs IH]; simpl.
  - left. split; [reflexivity|]. intros r c [].
  - pose proof (find_a_zero_cols_spec matrix RC CC r (seq 0 sz)) as Hc.
    destruct (find_a_zero_cols matrix RC CC r (seq 0 sz)) as [c|].
    + right. exists r, c. destruct Hc as [Hin Hu]. apply in_seq in Hin.
      split; [left; reflexivity|]. split; [lia|]. split; [exact Hu|reflexivity].
    + destruct IH as [[E Hn]|[r' [c' [Hin [Hlt [Hu E]]]]]].
      * left. split; [exact E|]. intros r' c' [<-|Hin] Hlt.
        -- apply Hc. apply in_seq. lia.
        -- apply Hn; assumption.
      * right. exists r', c'. split; [right; exact Hin|].
        split; [exact Hlt|]. split; assumption.
Qed.

Lemma find_a_zero_spec n matrix RC CC :
  square n matrix ->
  (find_a_zero matrix RC CC = (-1, -1) /\
   forall r c, (r < n)%nat -> (c < n)%nat -> uncovered_zero matrix RC CC r c = false) \/
  (exists r c, (r < n)%nat /\ (c < n)%nat /\ uncovered_zero matrix RC CC r c = true /\
               find_a_zero matrix RC CC = (Z.of_nat r, Z.of_nat c)).
Proof.
  intros Hs. unfold find_a_zero. rewrite (square_length _ _ Hs).
  destruct (find_a_zero_rows_spec matrix RC CC n (seq 0 n))
    as [[E Hn]|[r [c [Hin [Hlt [Hu E]]]]]].
  - left. split; [exact E|]. intros r c Hr Hc. apply Hn; [apply in_seq; lia|exact Hc].
  - right. exists r, c. apply in_seq in Hin. split; [lia|]. split; [exact Hlt|].
    split; assumption.
Qed.

(** ** Covers, matchings and steps 2 and 3 *)

Lemma bin_nth l i : bin l -> nth i l 0 = 0 \/ nth i l 0 = 1.
Proof.
  intros H. destruct (Nat.lt_ge_cases i (length l)) as [Hi|Hi].
  - unfold bin in H. rewrite Forall_forall in H. apply H, nth_In. exact Hi.
  - left. apply nth_overflow. exact Hi.
Qed.

Lemma all_zero_nth l i : all_zero l -> nth i l 0 = 0.
Proof.
  intros H. destruct (Nat.lt_ge_cases i (length l)) as [Hi|Hi].
  - unfold all_zero in H. rewrite Forall_forall in H. apply H, nth_In. exact Hi.
  - apply nth_overflow. exact Hi.
Qed.

Lemma all_zero_bin l : all_zero l -> bin l.
Proof. apply Forall_impl. intros x ->. left. reflexivity. Qed.

Lemma bin_upd l i v : bin l -> is01 v -> bin (upd l i v).
Proof. apply Forall_upd. Qed.

Lemma clear_covers_zero l : all_zero (clear_covers l).
Proof. unfold clear_covers. apply Forall_map, Forall_forall. reflexivity. Qed.

Lemma length_clear_covers l : length (clear_covers l) = length l.
Proof. apply length_map. Qed.

Lemma all_zero_repeat k : all_zero (repeat 0 k).
Proof. apply Forall_forall. intros x Hx. apply repeat_spec in Hx. exact Hx. Qed.

Lemma nth_upd (l : list Z) i j v :
  (i < length l)%nat ->
  nth j (upd l i v) 0 = if Nat.eqb i j then v else nth j l 0.
Proof.
  intros Hi. destruct (Nat.eqb_spec i j) as [<-|Hne].
  - apply nth_upd_eq. exact Hi.
  - apply nth_upd_neq. exact Hne.
Qed.

Lemma star_set n M r c v x y :
  square n M -> (r < n)%nat -> (c < n)%nat ->
  (star (set M r c v) x y <-> ((x, y) = (r, c) /\ v = 1) \/ ((x, y) <> (r, c) /\ star M x y)).
Proof.
  intros Hs Hr Hc. unfold star. rewrite (get_set n) by assumption.
  destruct (Nat.eqb_spec r x) as [<-|Hx]; simpl.
  - destruct (Nat.eqb_spec c y) as [<-|Hy].
    + split; [intros ->; left; auto|intros [[_ H]|[H _]]; [exact H|congruence]].
    + split; [intros H; right; split; [congruence|exact H]|].
      intros [[H _]|[_ H]]; [congruence|exact H].
  - split; [intros H; right; split; [congruence|exact H]|].
    intros [[H _]|[_ H]]; [congruence|exact H].
Qed.

Lemma prime_set n M r c v x y :
  square n M -> (r < n)%nat -> (c < n)%nat ->
  (prime (set M r c v) x y <-> ((x, y) = (r, c) /\ v = 2) \/ ((x, y) <> (r, c) /\ prime M x y)).
Proof.
  intros Hs Hr Hc. unfold prime. rewrite (get_set n) by assumption.
  destruct (Nat.eqb_spec r x) as [<-|Hx]; simpl.
  - destruct (Nat.eqb_spec c y) as [<-|Hy].
    + split; [intros ->; left; auto|intros [[_ H]|[H _]]; [exact H|congruence]].
    + split; [intros H; right; split; [congruence|exact H]|].
      intros [[H _]|[_ H]]; [congruence|exact H].
  - split; [intros H; right; split; [congruence|exact H]|].
    intros [[H _]|[_ H]]; [congruence|exact H].
Qed.

(** Step 2 *)

Lemma step2_cell_inv n matrix st r c :
  (r < n)%nat -> (c < n)%nat ->
  step2_inv n matrix st -> step2_inv n matrix (step2_cell matrix r st c).
Proof.
  intros Hr Hc. destruct st as [[M RC] CC]. unfold step2_cell.
  intros Hinv. destruct (get matrix r c =? 0) eqn:Ez; [|exact Hinv].
  destruct (nth r RC 0 =? 0) eqn:Er; [|exact Hinv].
  destruct (nth c CC 0 =? 0) eqn:Ec; [|exact Hinv].
  simpl. apply Z.eqb_eq in Ez, Er, Ec.
  destruct Hinv as [[HsM [HlR [HlC [HbR HbC]]]] [[Hrow Hcol] [Hcov Hzero]]].
  assert (Hstar : forall x y, star (set M r c 1) x y <->
                              (x, y) = (r, c) \/ ((x, y) <> (r, c) /\ star M x y)).
  { intros x y. rewrite (star_set n) by assumption. tauto. }
  split; [|split; [|split]].
  - split; [apply square_set; exact HsM|].
    rewrite !length_upd. split; [exact HlR|]. split; [exact HlC|].
    split; apply bin_upd; auto; right; reflexivity.
  - split.
    + intros x y y' H1 H2. apply Hstar in H1, H2.
      destruct H1 as [H1|[N1 H1]], H2 as [H2|[N2 H2]].
      * congruence.
      * inversion H1; subst. apply Hcov in H2. lia.
      * inversion H2; subst. apply Hcov in H1. lia.
      * eapply Hrow; eassumption.
    + intros x x' y H1 H2. apply Hstar in H1, H2.
      destruct H1 as [H1|[N1 H1]], H2 as [H2|[N2 H2]].
      * congruence.
      * inversion H1; subst. apply Hcov in H2. lia.
      * inversion H2; subst. apply Hcov in H1. lia.
      * eapply Hcol; eassumption.
  - intros x y H. apply Hstar in H.
    rewrite !nth_upd by lia.
    destruct H as [H|[N H]].
    + inversion H; subst. rewrite !Nat.eqb_refl. auto.
    + apply Hcov in H. destruct H as [H1 H2].
      destruct (Nat.eqb r x), (Nat.eqb c y); auto.
  - intros x y H. apply Hstar in H. destruct H as [H|[N H]].
    + inversion H; subst. exact Ez.
    + apply Hzero. exact H.
Qed.

Lemma step2_spec n matrix M RC CC M' RC' CC' st' :
  square n matrix -> shape n M RC CC ->
  (forall r c, get M r c = 0) -> all_zero RC -> all_zero CC ->
  step2 matrix M RC CC = (M', RC', CC', st') ->
  st' = 3 /\ shape n M' RC' CC' /\ matching M' /\ all_zero RC' /\ all_zero CC' /\
  (forall r c, star M' r c -> get matrix r c = 0).
Proof.
  intros Hmx Hsh HM0 HR0 HC0 H. unfold step2 in H.
  rewrite (square_length _ _ Hmx) in H.
  set (res := fold_left _ _ _) in H.
  assert (Hinv : step2_inv n matrix res).
  { subst res. apply (nested_fold_inv (step2_cell matrix) (step2_inv n matrix)).
    - simpl. split; [exact Hsh|]. unfold matching, star.
      split; [split; intros ? ? ? H1 _; rewrite HM0 in H1; discriminate|].
      split; intros r c Hst; rewrite HM0 in Hst; discriminate.
    - intros st r c Hr Hc. apply in_seq in Hr, Hc.
      apply step2_cell_inv; lia. }
  destruct res as [[M1 RC1] CC1]. inversion H; subst; clear H.
  destruct Hinv as [[HsM [HlR [HlC [HbR HbC]]]] [Hmatch [Hcov Hzero]]].
  split; [reflexivity|]. split.
  - split; [exact HsM|]. rewrite !length_clear_covers.
    split; [exact HlR|]. split; [exact HlC|].
    split; apply all_zero_bin, clear_covers_zero.
  - split; [exact Hmatch|]. split; [apply clear_covers_zero|].
    split; [apply clear_covers_zero|exact Hzero].
Qed.

(** Step 3 *)

Lemma nested_fold_reach {A} (g : nat -> A -> nat -> A) (P Q : A -> Prop) rs cs r0 c0 :
  In r0 rs -> In c0 cs ->
  (forall a r c, In r rs -> In c cs -> P a -> P (g r a c)) ->
  (forall a, P a -> Q (g r0 a c0)) ->
  (forall a r c, In r rs -> In c cs -> P a -> Q a -> Q (g r a c)) ->
  forall a, P a -> Q (fold_left (fun a r => fold_left (g r) cs a) rs a).
Proof.
  intros Hr0 Hc0 HP HQ0 HQ.
  assert (HrowP : forall r l a, In r rs -> incl l cs -> P a -> P (fold_left (g r) l a)).
  { intros r l a Hr Hl Ha. apply fold_left_inv; [exact Ha|].
    intros a' c Hc. apply HP; [exact Hr|apply Hl; exact Hc]. }
  assert (HrowPQ : forall r l a, In r rs -> incl l cs -> P a /\ Q a ->
            P (fold_left (g r) l a) /\ Q (fold_left (g r) l a)).
  { intros r l a Hr Hl Ha.
    apply (fold_left_inv (fun a => P a /\ Q a)); [exact Ha|].
    intros a' c Hc [H1 H2].
    split; [apply HP|apply HQ]; auto. }
  assert (Hrow0 : forall l a, incl l cs -> In c0 l -> P a -> Q (fold_left (g r0) l a)).
  { induction l as [|c l IH]; intros a Hl Hin Ha; [destruct Hin|].
    simpl. destruct Hin as [->|Hin].
    - apply HrowPQ; [exact Hr0|intros x Hx; apply Hl; right; exact Hx|].
      split; [apply HP; auto; apply Hl; left; reflexivity|apply HQ0; exact Ha].
    - apply IH; [intros x Hx; apply Hl; right; exact Hx|exact Hin|].
      apply HP; auto. apply Hl. left. reflexivity. }
  assert (Hmain : forall l a, incl l rs -> In r0 l -> P a ->
            Q (fold_left (fun a r => fold_left (g r) cs a) l a)).
  { induction l as [|r l IH]; intros a Hl Hin Ha; [destruct Hin|].
    simpl. destruct Hin as [->|Hin].
    - apply (fold_left_inv (fun a => P a /\ Q a)).
      + split; [apply HrowP; [exact Hr0|apply incl_refl|exact Ha]|].
        apply Hrow0; [apply incl_refl|exact Hc0|exact Ha].
      + intros a' r Hr Ha'. apply HrowPQ; [apply Hl; right; exact Hr|apply incl_refl|exact Ha'].
    - apply IH; [intros x Hx; apply Hl; right; exact Hx|exact Hin|].
      apply HrowP; [apply Hl; left; reflexivity|apply incl_refl|exact Ha]. }
  intros a Ha. apply Hmain; [apply incl_refl|exact Hr0|exact Ha].
Qed.

Lemma fold_count l : forall a,
  fold_left (fun cnt n => if n =? 1 then cnt + 1 else cnt) l a =
  a + Z.of_nat (length (filter (fun n => n =? 1) l)).
Proof.
  induction l as [|x l IH]; intros a; simpl; [lia|].
  rewrite IH. destruct (x =? 1); simpl; lia.
Qed.

Lemma forallb_false_nth (f : Z -> bool) l :
  forallb f l = false -> exists i, (i < length l)%nat /\ f (nth i l 0) = false.
Proof.
  induction l as [|x l IH]; simpl; [discriminate|].
  destruct (f x) eqn:E; simpl.
  - intros H. destruct (IH H) as [i [Hi Hf]]. exists (S i). split; [lia|exact Hf].
  - intros _. exists O. split; [lia|exact E].
Qed.

Lemma filter_all (f : Z -> bool) l : forallb f l = true -> filter f l = l.
Proof.
  induction l as [|x l IH]; simpl; [reflexivity|].
  destruct (f x); simpl; [|discriminate]. intros H. f_equal. apply IH. exact H.
Qed.

Lemma step3_spec n M CC CC' st' :
  square n M -> length CC = n -> all_zero CC ->
  step3 M CC = (CC', st') ->
  length CC' = n /\ bin CC' /\
  (forall c, nth c CC' 0 = 1 <-> exists r, star M r c) /\
  ((st' = 7 /\ forall c, (c < n)%nat -> exists r, star M r c) \/
   (st' = 4 /\ exists c, (c < n)%nat /\ nth c CC' 0 = 0)).
Proof.
  intros Hs Hl H0 H. unfold step3 in H. rewrite (square_length _ _ Hs) in H.
  change (fun CC r => fold_left (fun CC c => if get M r c =? 1 then upd CC c 1 else CC)
                                (seq 0 n) CC)
    with (fun CC r => fold_left (step3_cell M r) (seq 0 n) CC) in H.
  set (CC1 := fold_left _ (seq 0 n) CC) in H.
  assert (Hsound : length CC1 = n /\ bin CC1 /\
                   forall c, nth c CC1 0 = 1 -> exists r, star M r c).
  { subst CC1.
    apply (nested_fold_inv (step3_cell M)
             (fun a => length a = n /\ bin a /\
                       forall c, nth c a 0 = 1 -> exists r, star M r c)).
    - split; [exact Hl|]. split; [apply all_zero_bin; exact H0|].
      intros c Hc. rewrite (all_zero_nth _ _ H0) in Hc. discriminate.
    - intros a r c _ Hc [Hla [Hba Hsa]]. apply in_seq in Hc.
      unfold step3_cell. destruct (get M r c =? 1) eqn:E; [|auto].
      rewrite length_upd. split; [exact Hla|].
      split; [apply bin_upd; [exact Hba|right; reflexivity]|].
      intros c'. rewrite nth_upd by lia.
      destruct (Nat.eqb_spec c c') as [<-|Hne]; [|apply Hsa].
      intros _. exists r. apply Z.eqb_eq. exact E. }
  assert (Hcomplete : forall r c, star M r c -> nth c CC1 0 = 1).
  { intros r c Hst. destruct (star_range n M r c Hs Hst) as [Hr Hc].
    subst CC1.
    apply (nested_fold_reach (step3_cell M) (fun a => length a = n)
             (fun a => nth c a 0 = 1) (seq 0 n) (seq 0 n) r c).
    - apply in_seq. lia.
    - apply in_seq. lia.
    - intros a r' c' _ _ Ha. unfold step3_cell.
      destruct (get M r' c' =? 1); [rewrite length_upd|]; exact Ha.
    - intros a Ha. unfold step3_cell. unfold star in Hst. rewrite Hst. simpl.
      apply nth_upd_eq. lia.
    - intros a r' c' _ _ Ha Hq. unfold step3_cell.
      destruct (get M r' c' =? 1); [|exact Hq].
      destruct (Nat.eq_dec c' c) as [->|Hne].
      + apply nth_upd_eq. lia.
      + rewrite nth_upd_neq by exact Hne. exact Hq.
    - exact Hl. }
  destruct Hsound as [Hl1 [Hb1 Hs1]].
  rewrite fold_count in H. simpl in H.
  assert (Hres : CC' = CC1).
  { destruct (_ >=? _) in H; inversion H; reflexivity. }
  subst CC'. split; [exact Hl1|]. split; [exact Hb1|].
  split; [intros c; split; [apply Hs1|intros [r Hr]; eapply Hcomplete; exact Hr]|].
  destruct (forallb (fun x : Z => Z.eqb x 1) CC1) eqn:Eall.
  - left. rewrite (filter_all _ _ Eall), Hl1 in H.
    replace (Z.of_nat n >=? Z.of_nat n) with true in H
      by (symmetry; apply Z.geb_le; lia).
    inversion H. split; [reflexivity|].
    intros c Hc. apply Hs1.
    rewrite forallb_forall in Eall. apply Z.eqb_eq, Eall, nth_In. lia.
  - right.
    destruct (forallb_false_nth _ _ Eall) as [c [Hc Hf]].
    apply Z.eqb_neq in Hf.
    assert (Hlt : (length (filter (fun x : Z => Z.eqb x 1) CC1) < n)%nat).
    { pose proof (filter_length_le (fun x : Z => Z.eqb x 1) CC1) as Hle.
      destruct (Nat.eq_dec (length (filter (fun x : Z => Z.eqb x 1) CC1)) (length CC1)) as [E|E].
      - apply filter_length_forallb in E. congruence.
      - lia. }
    replace (Z.of_nat (length (filter (fun x : Z => Z.eqb x 1) CC1)) >=? Z.of_nat n)
      with false in H by (symmetry; rewrite Z.geb_leb; apply Z.leb_gt; lia).
    inversion H. split; [reflexivity|].
    exists c. split; [lia|]. destruct (bin_nth CC1 c Hb1); [assumption|contradiction].
Qed.

(** Counting: a one-to-one relation on {0..n-1} that is total is onto. *)

Lemma pigeonhole n (R : nat -> nat -> Prop) :
  (forall x, (x < n)%nat -> exists y, (y < n)%nat /\ R x y) ->
  (forall x x' y, R x y -> R x' y -> x = x') ->
  forall y, (y < n)%nat -> exists x, (x < n)%nat /\ R x y.
Proof.
  intros Htot Hinj.
  assert (Hl : forall k, (k <= n)%nat ->
             exists l, length l = k /\ NoDup l /\
                       forall y, In y l -> (y < n)%nat /\ exists x, (x < k)%nat /\ R x y).
  { induction k as [|k IH]; intros Hk.
    - exists []. split; [reflexivity|]. split; [constructor|]. intros y [].
    - destruct IH as [l [Hlen [Hnd Hin]]]; [lia|].
      destruct (Htot k) as [y [Hy HR]]; [lia|].
      exists (y :: l). split; [simpl; lia|]. split.
      + constructor; [|exact Hnd]. intros Hyl.
        destruct (Hin y Hyl) as [_ [x [Hx HRx]]].
        pose proof (Hinj _ _ _ HR HRx). lia.
      + intros y' [<-|Hy'].
        * split; [exact Hy|]. exists k. split; [lia|exact HR].
        * destruct (Hin y' Hy') as [Hlt [x [Hx HRx]]].
          split; [exact Hlt|]. exists x. split; [lia|exact HRx]. }
  destruct (Hl n (Nat.le_refl n)) as [l [Hlen [Hnd Hin]]].
  intros y Hy.
  assert (Hincl : incl (seq 0 n) l).
  { apply NoDup_length_incl; [exact Hnd|rewrite length_seq; lia|].
    intros z Hz. apply in_seq. destruct (Hin z Hz) as [Hlt _]. lia. }
  destruct (Hin y (Hincl y (proj2 (in_seq n 0 y) (conj (Nat.le_0_l y) Hy))))
    as [_ [x [Hx HRx]]].
  exists x. split; assumption.
Qed.

Lemma bounded_search n (p : nat -> bool) :
  (forall r, (r < n)%nat -> p r = true) \/ (exists r, (r < n)%nat /\ p r = false).
Proof.
  induction n as [|n IH].
  - left. intros r Hr. lia.
  - destruct IH as [IH|[r [Hr Hp]]].
    + destruct (p n) eqn:E.
      * left. intros r Hr. destruct (Nat.eq_dec r n) as [->|Hne]; [exact E|apply IH; lia].
      * right. exists n. split; [lia|exact E].
    + right. exists r. split; [lia|exact Hp].
Qed.

(* A matching that leaves a column without star leaves a row without star. *)
Lemma unmatched_row n M :
  square n M -> matching M ->
  (exists c, (c < n)%nat /\ forall r, ~ star M r c) ->
  exists r, (r < n)%nat /\ forall c, ~ star M r c.
Proof.
  intros Hs [Hrow Hcol] [c0 [Hc0 Hno]].
  destruct (bounded_search n (fun r => star_in_row (Z.of_nat r) M)) as [Hall|[r [Hr Hp]]].
  - exfalso.
    destruct (pigeonhole n (fun r c => star M r c)) with (y := c0) as [r [_ Hst]].
    + intros r Hr. specialize (Hall r Hr).
      apply (star_in_row_spec n M r Hs) in Hall. destruct Hall as [c Hst].
      exists c. split; [apply (star_range n M r c Hs Hst)|exact Hst].
    + intros x x' y. apply Hcol.
    + exact Hc0.
    + exact (Hno r Hst).
  - exists r. split; [exact Hr|]. intros c Hst.
    assert (Ht : star_in_row (Z.of_nat r) M = true).
    { apply (star_in_row_spec n M r Hs). exists c. exact Hst. }
    congruence.
Qed.

(* A matching with a star in every column has a star in every row. *)
Lemma matched_rows n M :
  square n M -> matching M ->
  (forall c, (c < n)%nat -> exists r, star M r c) ->
  forall r, (r < n)%nat -> exists c, star M r c.
Proof.
  intros Hs [Hrow Hcol] Hall r Hr.
  destruct (pigeonhole n (fun c r => star M r c)) with (y := r) as [c [_ Hst]].
  - intros c Hc. destruct (Hall c Hc) as [r' Hst].
    exists r'. split; [apply (star_range n M r' c Hs Hst)|exact Hst].
  - intros x x' y H1 H2. eapply Hrow; eassumption.
  - exact Hr.
  - exists c. exact Hst.
Qed.

(** ** Step 4: priming and covering *)

Lemma ord_ext M M1 L :
  (forall x y, star M x y <-> star M1 x y) ->
  (forall x y, prime M x y -> prime M1 x y) ->
  ord M L -> ord M1 L.
Proof.
  intros Hst Hpr. induction L as [|r L IH]; simpl; [auto|].
  intros [Hnin [[c Hc] [[c' [Hp Hin]] Hord]]].
  split; [exact Hnin|]. split; [exists c; apply Hst; exact Hc|].
  split; [|apply IH; exact Hord].
  exists c'. split; [apply Hpr; exact Hp|].
  intros r'' H. apply Hin, Hst. exact H.
Qed.

Lemma ord_NoDup M L : ord M L -> NoDup L.
Proof.
  induction L as [|r L IH]; simpl; [constructor|].
  intros [Hnin [_ [_ Hord]]]. constructor; [exact Hnin|apply IH; exact Hord].
Qed.

Lemma uncovered_zero_true matrix RC CC r c :
  uncovered_zero matrix RC CC r c = true ->
  get matrix r c = 0 /\ nth r RC 0 = 0 /\ nth c CC 0 = 0.
Proof.
  unfold uncovered_zero. intros H.
  apply andb_prop in H. destruct H as [H H3].
  apply andb_prop in H. destruct H as [H1 H2].
  apply Z.eqb_eq in H1, H2, H3. auto.
Qed.

(* One turn of the loop of step 4 that found the uncovered zero (r, c) in a
   row that holds the star (r, cs): the row is covered, the column of the
   star uncovered. *)
Lemma step4_cover n matrix M RC CC L r c cs :
  square n matrix -> shape n M RC CC -> zero_marks matrix M ->
  search_inv n M RC CC L ->
  (r < n)%nat -> (c < n)%nat -> uncovered_zero matrix RC CC r c = true ->
  star M r cs ->
  let M1 := set M r c 2 in
  shape n M1 (upd RC r 1) (upd CC cs 0) /\ zero_marks matrix M1 /\
  search_inv n M1 (upd RC r 1) (upd CC cs 0) (r :: L) /\
  (forall x y, star M x y <-> star M1 x y).
Proof.
  intros Hmx [HsM [HlR [HlC [HbR HbC]]]] Hzm
         [[Hrow Hcol] [Hcov [Hpc [Hpu [HL [Hord [Hr0 Hc0]]]]]]] Hr Hc Hu Hcs M1.
  apply uncovered_zero_true in Hu. destruct Hu as [Hz [HRr HCc]].
  destruct (star_range n M r cs HsM Hcs) as [_ Hcsn].
  assert (Hns : ~ star M r c).
  { intros H. apply Hcov in H. lia. }
  assert (Hnp : forall y, ~ prime M r y).
  { intros y H. apply Hpc in H. lia. }
  assert (Hstar : forall x y, star M x y <-> star M1 x y).
  { intros x y. unfold M1. rewrite (star_set n) by assumption. split.
    - intros H. right. split; [|exact H]. intros E. inversion E; subst. contradiction.
    - intros [[_ H]|[_ H]]; [discriminate|exact H]. }
  assert (Hprime : forall x y, prime M1 x y <-> (x, y) = (r, c) \/ prime M x y).
  { intros x y. unfold M1. rewrite (prime_set n) by assumption. split.
    - intros [[E _]|[_ H]]; auto.
    - intros [E|H]; [left; auto|]. right. split; [|exact H].
      intros E. inversion E; subst. exact (Hnp _ H). }
  assert (Hccs : c <> cs).
  { intros E. subst. contradiction. }
  split; [|split; [|split; [|exact Hstar]]].
  - split; [apply square_set; exact HsM|]. rewrite !length_upd.
    split; [exact HlR|]. split; [exact HlC|].
    split; apply bin_upd; auto; [right|left]; reflexivity.
  - intros x y [H|H].
    + apply Hzm. left. apply Hstar. exact H.
    + apply Hprime in H. destruct H as [E|H]; [inversion E; subst; exact Hz|].
      apply Hzm. right. exact H.
  - split; [|split; [|split; [|split; [|split; [|split; [|split]]]]]].
    + split.
      * intros x y y' H1 H2. apply Hstar in H1, H2. eapply Hrow; eassumption.
      * intros x x' y H1 H2. apply Hstar in H1, H2. eapply Hcol; eassumption.
    + intros x y H. apply Hstar in H. rewrite !nth_upd by lia.
      destruct (Nat.eqb_spec r x) as [<-|Hx].
      * assert (y = cs) by (eapply Hrow; eassumption). subst.
        rewrite Nat.eqb_refl. reflexivity.
      * destruct (Nat.eqb_spec cs y) as [<-|Hy].
        -- exfalso. apply Hx. eapply Hcol; eassumption.
        -- apply Hcov. exact H.
    + intros x y H. apply Hprime in H. rewrite !nth_upd by lia.
      destruct H as [E|H].
      * inversion E; subst. rewrite Nat.eqb_refl.
        destruct (Nat.eqb_spec cs c); [congruence|auto].
      * apply Hpc in H. destruct H as [H1 H2].
        destruct (Nat.eqb r x), (Nat.eqb cs y); auto.
    + intros x y y' H1 H2. apply Hprime in H1, H2.
      destruct H1 as [E1|H1], H2 as [E2|H2].
      * congruence.
      * inversion E1; subst. exfalso. exact (Hnp _ H2).
      * inversion E2; subst. exfalso. exact (Hnp _ H1).
      * eapply Hpu; eassumption.
    + intros x. simpl. rewrite nth_upd by lia.
      destruct (Nat.eqb_spec r x) as [<-|Hx].
      * split; auto.
      * rewrite <- HL. split; [intros [E|H]; [contradiction|exact H]|auto].
    + simpl. split; [rewrite HL; lia|].
      split; [exists cs; apply Hstar; exact Hcs|].
      split; [|apply (ord_ext M); [exact Hstar|intros x y H; apply Hprime; auto|exact Hord]].
      exists c. split; [apply Hprime; auto|].
      intros r'' H. apply Hstar in H. apply HL.
      apply Hcov in H. lia.
    + destruct Hr0 as [r0 [Hr0 Hno]]. exists r0. split; [exact Hr0|].
      intros y H. apply Hstar in H. exact (Hno _ H).
    + exists c. split; [exact Hc|]. rewrite nth_upd by lia.
      destruct (Nat.eqb_spec cs c); [reflexivity|exact HCc].
Qed.

(* One turn of the loop of step 4 that found the uncovered zero (r, c) in a
   row without star. *)
Lemma step4_origin n matrix M RC CC L r c :
  square n matrix -> shape n M RC CC -> zero_marks matrix M ->
  search_inv n M RC CC L ->
  (r < n)%nat -> (c < n)%nat -> uncovered_zero matrix RC CC r c = true ->
  (forall y, ~ star (set M r c 2) r y) ->
  let M1 := set M r c 2 in
  shape n M1 RC CC /\ zero_marks matrix M1 /\ aug_inv M1 L r c /\
  (forall x y, star M x y <-> star M1 x y).
Proof.
  intros Hmx [HsM [HlR [HlC [HbR HbC]]]] Hzm
         [[Hrow Hcol] [Hcov [Hpc [Hpu [HL [Hord [Hr0 Hc0]]]]]]] Hr Hc Hu Hno M1.
  apply uncovered_zero_true in Hu. destruct Hu as [Hz [HRr HCc]].
  assert (Hns : ~ star M r c).
  { intros H. apply Hcov in H. lia. }
  assert (Hnp : forall y, ~ prime M r y).
  { intros y H. apply Hpc in H. lia. }
  assert (Hstar : forall x y, star M x y <-> star M1 x y).
  { intros x y. unfold M1. rewrite (star_set n) by assumption. split.
    - intros H. right. split; [|exact H]. intros E. inversion E; subst. contradiction.
    - intros [[_ H]|[_ H]]; [discriminate|exact H]. }
  assert (Hprime : forall x y, prime M1 x y <-> (x, y) = (r, c) \/ prime M x y).
  { intros x y. unfold M1. rewrite (prime_set n) by assumption. split.
    - intros [[E _]|[_ H]]; auto.
    - intros [E|H]; [left; auto|]. right. split; [|exact H].
      intros E. inversion E; subst. exact (Hnp _ H). }
  split; [|split; [|split; [|exact Hstar]]].
  - split; [apply square_set; exact HsM|]. auto.
  - intros x y [H|H].
    + apply Hzm. left. apply Hstar. exact H.
    + apply Hprime in H. destruct H as [E|H]; [inversion E; subst; exact Hz|].
      apply Hzm. right. exact H.
  - split; [|split; [|split; [|split; [|split; [|split]]]]].
    + split.
      * intros x y y' H1 H2. apply Hstar in H1, H2. eapply Hrow; eassumption.
      * intros x x' y H1 H2. apply Hstar in H1, H2. eapply Hcol; eassumption.
    + intros x y y' H1 H2. apply Hprime in H1, H2.
      destruct H1 as [E1|H1], H2 as [E2|H2].
      * congruence.
      * inversion E1; subst. exfalso. exact (Hnp _ H2).
      * inversion E2; subst. exfalso. exact (Hnp _ H1).
      * eapply Hpu; eassumption.
    + apply (ord_ext M); [exact Hstar|intros x y H; apply Hprime; auto|exact Hord].
    + apply Hprime. auto.
    + exact Hno.
    + rewrite HL. lia.
    + intros x H. apply Hstar in H. apply HL. apply Hcov in H. lia.
Qed.

Lemma covered_rows_bound n M RC CC L :
  shape n M RC CC -> search_inv n M RC CC L -> (length L <= n)%nat.
Proof.
  intros [_ [HlR _]] [_ [_ [_ [_ [HL [Hord _]]]]]].
  rewrite <- (length_seq n 0).
  apply NoDup_incl_length; [apply (ord_NoDup M); exact Hord|].
  intros r Hr. apply in_seq. apply HL in Hr.
  assert (nth r RC 0 <> 0) as Hne by lia.
  apply nth_range in Hne. lia.
Qed.

Lemma step4_loop_total n matrix fuel : forall M RC CC L r0 c0,
  square n matrix -> shape n M RC CC -> zero_marks matrix M ->
  search_inv n M RC CC L ->
  (n + 1 - length L <= fuel)%nat ->
  exists res, step4_loop fuel matrix M RC CC r0 c0 = Ok res /\
              step4_post n matrix M RC CC L res.
Proof.
  induction fuel as [|fuel IH]; intros M RC CC L r0 c0 Hmx Hsh Hzm Hinv Hfuel.
  - pose proof (covered_rows_bound _ _ _ _ _ Hsh Hinv). lia.
  - simpl.
    destruct (find_a_zero_spec n matrix RC CC Hmx) as [[E Hn]|[r [c [Hr [Hc [Hu E]]]]]];
      rewrite E.
    + simpl. eexists. split; [reflexivity|]. simpl.
      split; [exact Hsh|]. split; [exact Hzm|]. split; [tauto|].
      left. split; [reflexivity|].
      exists []. simpl. split; [exact Hinv|]. split; [exact Hn|]. intros _. exact Hn.
    + replace (Z.of_nat r =? -1) with false by (symmetry; apply Z.eqb_neq; lia).
      unfold setZ. rewrite !Nat2Z.id.
      assert (HsM1 : square n (set M r c 2)).
      { apply square_set. apply Hsh. }
      destruct (star_in_row (Z.of_nat r) (set M r c 2)) eqn:Es.
      * apply (star_in_row_spec n _ r HsM1) in Es.
        destruct (find_star_in_row_spec n (set M r c 2) r HsM1)
          as [[_ Hno]|[cs [Hcs [Hst Ef]]]].
        { destruct Es as [y Hy]. exfalso. exact (Hno y Hy). }
        rewrite Ef, Nat2Z.id.
        assert (Hst0 : star M r cs).
        { destruct Hsh as [HsM _].
          apply (star_set n M r c 2 r cs HsM Hr Hc) in Hst.
          destruct Hst as [[_ H]|[_ H]]; [discriminate|exact H]. }
        destruct (step4_cover n matrix M RC CC L r c cs Hmx Hsh Hzm Hinv Hr Hc Hu Hst0)
          as [Hsh1 [Hzm1 [Hinv1 Hst1]]].
        destruct (IH (set M r c 2) (upd RC r 1) (upd CC cs 0) (r :: L) r0 c0
                     Hmx Hsh1 Hzm1 Hinv1) as [res [Hres Hpost]].
        { simpl. lia. }
        exists res. split; [exact Hres|].
        destruct res as [[[[[M' RC'] CC'] r0'] c0'] st']. simpl in *.
        destruct Hpost as [Hsh' [Hzm' [Hst' Hcase]]].
        split; [exact Hsh'|]. split; [exact Hzm'|].
        split; [intros x y; rewrite Hst1; apply Hst'|].
        destruct Hcase as [[E6 [L' [HI [Hnz _]]]]|[E5 [L' [r' [c' [Er [Ec [Hr' [Hc' HA]]]]]]]]].
        -- left. split; [exact E6|]. exists (L' ++ [r]).
           rewrite <- app_assoc. simpl. split; [exact HI|]. split; [exact Hnz|].
           intros Enil. destruct L'; discriminate.
        -- right. split; [exact E5|]. exists (L' ++ [r]), r', c'.
           rewrite <- app_assoc. simpl. auto.
      * assert (Hno : forall y, ~ star (set M r c 2) r y).
        { intros y Hy.
          assert (star_in_row (Z.of_nat r) (set M r c 2) = true) as Ht.
          { apply (star_in_row_spec n _ r HsM1). exists y. exact Hy. }
          congruence. }
        destruct (step4_origin n matrix M RC CC L r c Hmx Hsh Hzm Hinv Hr Hc Hu Hno)
          as [Hsh1 [Hzm1 [HA Hst1]]].
        eexists. split; [reflexivity|]. simpl.
        split; [exact Hsh1|]. split; [exact Hzm1|]. split; [exact Hst1|].
        right. split; [reflexivity|]. exists [], r, c. simpl. auto.
Qed.

Lemma step4_loop_spec n matrix fuel M RC CC L r0 c0 res :
  square n matrix -> shape n M RC CC -> zero_marks matrix M ->
  search_inv n M RC CC L ->
  step4_loop fuel matrix M RC CC r0 c0 = Ok res ->
  step4_post n matrix M RC CC L res.
Proof.
  intros Hmx Hsh Hzm Hinv H.
  destruct (step4_loop_total n matrix (fuel + (n + 1)) M RC CC L r0 c0
              Hmx Hsh Hzm Hinv) as [res' [Hres' Hpost]]; [lia|].
  rewrite (step4_loop_fuel fuel (fuel + (n + 1)) _ _ _ _ _ _ _ H) in Hres';
    [|discriminate|lia].
  inversion Hres'; subst. exact Hpost.
Qed.

(** ** Step 5: the alternating path *)

Lemma chain_cons M L c rest r0 : chain M L c rest -> chain M (r0 :: L) c rest.
Proof.
  intros H. inversion H; subst.
  - apply chain_end. assumption.
  - apply (chain_step M (r0 :: L1)); assumption.
Qed.

Lemma chain_exists M L : forall c,
  ord M L -> (forall r, star M r c -> In r L) -> exists rest, chain M L c rest.
Proof.
  induction L as [|r L IH]; intros c Hord Hin.
  - exists []. apply chain_end. intros r H. exact (Hin r H).
  - simpl in Hord. destruct Hord as [Hnin [_ [[c' [Hp Hc']] Hord]]].
    destruct (Z.eq_dec (get M r c) 1) as [Hst|Hns].
    + destruct (IH c' Hord Hc') as [rest Hrest].
      exists ((r, c) :: (r, c') :: rest).
      apply (chain_step M [] r L); assumption.
    + destruct (IH c Hord) as [rest Hrest].
      * intros r' H. destruct (Hin r' H) as [<-|H']; [contradiction|exact H'].
      * exists rest. apply chain_cons. exact Hrest.
Qed.

Lemma chain_rows M L c rest :
  chain M L c rest -> forall r x, In (r, x) rest -> In r L.
Proof.
  induction 1 as [|L1 r L2 c c' rest Hs Hp Hch IH]; intros r0 x Hin.
  - destruct Hin.
  - apply in_or_app. right. simpl.
    destruct Hin as [E|[E|Hin]]; [inversion E; auto|inversion E; auto|].
    right. eapply IH. exact Hin.
Qed.

Lemma chain_NoDup M L c rest : chain M L c rest -> NoDup L -> NoDup rest.
Proof.
  induction 1 as [|L1 r L2 c c' rest Hs Hp Hch IH]; intros Hnd.
  - constructor.
  - apply NoDup_remove in Hnd. destruct Hnd as [Hnd Hnin].
    assert (Hnd2 : NoDup L2).
    { apply NoDup_app_remove_l in Hnd. exact Hnd. }
    assert (Hr : forall x, ~ In (r, x) rest).
    { intros x Hx. apply Hnin. apply in_or_app. right.
      eapply chain_rows; eassumption. }
    constructor.
    + intros [E|Hin]; [|exact (Hr _ Hin)].
      inversion E; subst. unfold star, prime in *. congruence.
    + constructor; [apply Hr|apply IH; exact Hnd2].
Qed.

Lemma chain_length M L c rest :
  chain M L c rest -> (length rest <= 2 * length L)%nat.
Proof.
  induction 1 as [|L1 r L2 c c' rest Hs Hp Hch IH]; simpl; [lia|].
  rewrite length_app. simpl. lia.
Qed.

Lemma memb_In P r c : memb P r c = true <-> In (r, c) P.
Proof.
  unfold memb. rewrite existsb_exists. split.
  - intros [[x y] [Hin H]]. simpl in H. apply andb_prop in H. destruct H as [H1 H2].
    apply Nat.eqb_eq in H1, H2. subst. exact Hin.
  - intros Hin. exists (r, c). simpl. rewrite !Nat.eqb_refl. auto.
Qed.

Lemma memb_false P r c : memb P r c = false <-> ~ In (r, c) P.
Proof.
  rewrite <- memb_In. destruct (memb P r c); split; congruence.
Qed.

Section Chain.

Variable M : matrix_t.
Hypothesis Hmatch : matching M.
(* Flipping the cells that follow a prime of column c turns the stars into
   a matching again that leaves column c free and keeps a star in every
   row that had one. *)
Lemma chain_flipped L c rest :
  chain M L c rest -> NoDup L ->
  let F := flipped M rest in
  (forall r x x', F r x = 1 -> F r x' = 1 -> x = x') /\
  (forall r r' x, F r x = 1 -> F r' x = 1 -> r = r') /\
  (forall r, F r c <> 1) /\
  (forall r x, ~ In r L -> F r x = get M r x) /\
  (forall r, (exists x, F r x = 1) <-> (exists x, star M r x)) /\
  (forall r x, F r x = 1 -> star M r x \/ prime M r x) /\
  (forall r x, F r x = 1 -> ~ star M r x -> forall r'', star M r'' x -> In r'' L) /\
  (forall r'', star M r'' c -> In r'' L).
Proof.
  destruct Hmatch as [Hrow Hcol].
  induction 1 as [L c Hno|L1 r L2 c c' rest Hs Hp Hch IH]; intros Hnd F.
  - assert (HF : forall r x, F r x = get M r x) by reflexivity.
    repeat split.
    + intros r x x'. rewrite !HF. apply Hrow.
    + intros r r' x. rewrite !HF. apply Hcol.
    + intros r. rewrite HF. apply Hno.
    + intros [x Hx]. exists x. rewrite HF in Hx. exact Hx.
    + intros [x Hx]. exists x. rewrite HF. exact Hx.
    + intros r x. rewrite HF. auto.
    + intros r x H1 H2. rewrite HF in H1. contradiction.
    + intros r'' H. exfalso. exact (Hno _ H).
  - apply NoDup_remove in Hnd. destruct Hnd as [Hnd Hnin].
    assert (Hnd2 : NoDup L2) by (apply NoDup_app_remove_l in Hnd; exact Hnd).
    assert (HrL2 : ~ In r L2) by (intros H; apply Hnin, in_or_app; auto).
    destruct (IH Hnd2) as [I1 [I2 [I3 [I4 [I5 [I6 [I7 I8]]]]]]]. clear IH.
    set (F0 := flipped M rest) in *.
    assert (Hcc : c <> c').
    { intros E. subst. unfold star, prime in *. congruence. }
    assert (Hother : forall r0 x, r0 <> r -> F r0 x = F0 r0 x).
    { intros r0 x Hne. unfold F, F0, flipped. simpl.
      destruct (Nat.eqb_spec r r0); [congruence|]. reflexivity. }
    assert (Hrest_r : forall x, memb rest r x = false).
    { intros x. apply memb_false. intros Hin. apply HrL2.
      eapply chain_rows; eassumption. }
    assert (Hrow_r : forall x, F r x = 1 <-> x = c').
    { intros x. unfold F, flipped. simpl. rewrite Nat.eqb_refl, Hrest_r. simpl.
      destruct (Nat.eqb_spec c x) as [<-|Hx]; simpl.
      - unfold star in Hs. rewrite Hs. unfold flip. simpl. split; [discriminate|congruence].
      - destruct (Nat.eqb_spec c' x) as [<-|Hx']; simpl.
        + unfold prime in Hp. rewrite Hp. unfold flip. simpl. tauto.
        + split; [|congruence].
          intros H. exfalso. apply Hx. eapply Hrow; eassumption. }
    assert (HinL : forall x, In x L2 -> In x (L1 ++ r :: L2)).
    { intros x H. apply in_or_app. right. right. exact H. }
    repeat split.
    + intros r0 x x' H1 H2. destruct (Nat.eq_dec r0 r) as [->|Hne].
      * apply Hrow_r in H1, H2. congruence.
      * rewrite Hother in H1, H2 by exact Hne. eapply I1; eassumption.
    + intros r0 r1 x H1 H2.
      destruct (Nat.eq_dec r0 r) as [->|Hne0], (Nat.eq_dec r1 r) as [->|Hne1].
      * reflexivity.
      * apply Hrow_r in H1. subst x. rewrite Hother in H2 by exact Hne1.
        exfalso. exact (I3 _ H2).
      * apply Hrow_r in H2. subst x. rewrite Hother in H1 by exact Hne0.
        exfalso. exact (I3 _ H1).
      * rewrite Hother in H1, H2 by assumption. eapply I2; eassumption.
    + intros r0 H. destruct (Nat.eq_dec r0 r) as [->|Hne].
      * apply Hrow_r in H. congruence.
      * rewrite Hother in H by exact Hne.
        destruct (I6 _ _ H) as [Hst|Hpr].
        -- apply Hne. eapply Hcol; eassumption.
        -- assert (Hns : ~ star M r0 c).
           { unfold star, prime in *. congruence. }
           apply HrL2. eapply I7; eassumption.
    + intros r0 x Hr0.
      assert (r0 <> r) by (intros ->; apply Hr0, in_or_app; simpl; auto).
      rewrite Hother by assumption. apply I4.
      intros H'. apply Hr0, HinL, H'.
    + intros [x Hx]. destruct (Nat.eq_dec r0 r) as [->|Hne].
      * exists c. exact Hs.
      * rewrite Hother in Hx by exact Hne. apply I5. exists x. exact Hx.
    + intros Hx. destruct (Nat.eq_dec r0 r) as [->|Hne].
      * exists c'. apply Hrow_r. reflexivity.
      * apply I5 in Hx. destruct Hx as [x' Hx']. exists x'.
        rewrite Hother by exact Hne. exact Hx'.
    + intros r0 x H. destruct (Nat.eq_dec r0 r) as [->|Hne].
      * apply Hrow_r in H. subst x. right. exact Hp.
      * rewrite Hother in H by exact Hne. apply I6. exact H.
    + intros r0 x H Hns r'' Hst. destruct (Nat.eq_dec r0 r) as [->|Hne].
      * apply Hrow_r in H. subst x. apply HinL, I8. exact Hst.
      * rewrite Hother in H by exact Hne. apply HinL. eapply I7; eassumption.
    + intros r'' Hst. assert (r'' = r) by (eapply Hcol; eassumption). subst.
      apply in_or_app. simpl. auto.
Qed.

(* Flipping the whole path, the primed zero (r0, c0) included. *)
Lemma path_flipped L r0 c0 rest :
  chain M L c0 rest -> NoDup L ->
  prime M r0 c0 -> (forall c, ~ star M r0 c) -> ~ In r0 L ->
  let F := flipped M ((r0, c0) :: rest) in
  (forall r x x', F r x = 1 -> F r x' = 1 -> x = x') /\
  (forall r r' x, F r x = 1 -> F r' x = 1 -> r = r') /\
  (forall r, (exists x, F r x = 1) <-> (exists x, star M r x) \/ r = r0) /\
  (forall r x, F r x = 1 -> star M r x \/ prime M r x).
Proof.
  intros Hch Hnd Hp Hno Hnin F.
  destruct (chain_flipped L c0 rest Hch Hnd) as [I1 [I2 [I3 [I4 [I5 [I6 [I7 I8]]]]]]].
  set (F0 := flipped M rest) in *.
  assert (Hother : forall r x, r <> r0 -> F r x = F0 r x).
  { intros r x Hne. unfold F, F0, flipped. simpl.
    destruct (Nat.eqb_spec r0 r); [congruence|]. reflexivity. }
  assert (Hrest_r : forall x, memb rest r0 x = false).
  { intros x. apply memb_false. intros Hin. apply Hnin.
    eapply chain_rows; eassumption. }
  assert (Hrow_r : forall x, F r0 x = 1 <-> x = c0).
  { intros x. unfold F, flipped. simpl. rewrite Nat.eqb_refl, Hrest_r. simpl.
    destruct (Nat.eqb_spec c0 x) as [<-|Hx]; simpl.
    - unfold prime in Hp. rewrite Hp. unfold flip. simpl. tauto.
    - split; [|congruence]. intros H. exfalso. exact (Hno _ H). }
  repeat split.
  - intros r x x' H1 H2. destruct (Nat.eq_dec r r0) as [->|Hne].
    + apply Hrow_r in H1, H2. congruence.
    + rewrite Hother in H1, H2 by exact Hne. eapply I1; eassumption.
  - intros r r1 x H1 H2.
    destruct (Nat.eq_dec r r0) as [->|Hne0], (Nat.eq_dec r1 r0) as [->|Hne1].
    + reflexivity.
    + apply Hrow_r in H1. subst x. rewrite Hother in H2 by exact Hne1.
      exfalso. exact (I3 _ H2).
    + apply Hrow_r in H2. subst x. rewrite Hother in H1 by exact Hne0.
      exfalso. exact (I3 _ H1).
    + rewrite Hother in H1, H2 by assumption. eapply I2; eassumption.
  - intros [x Hx]. destruct (Nat.eq_dec r r0) as [->|Hne]; [auto|].
    left. rewrite Hother in Hx by exact Hne. apply I5. exists x. exact Hx.
  - intros [Hx | ->].
    + destruct (Nat.eq_dec r r0) as [->|Hne].
      * destruct Hx as [x Hx]. exfalso. exact (Hno _ Hx).
      * apply I5 in Hx. destruct Hx as [x Hx]. exists x.
        rewrite Hother by exact Hne. exact Hx.
    + exists c0. apply Hrow_r. reflexivity.
  - intros r x H. destruct (Nat.eq_dec r r0) as [->|Hne].
    + apply Hrow_r in H. subst x. right. exact Hp.
    + rewrite Hother in H by exact Hne. apply I6. exact H.
Qed.

End Chain.

(** ** Step 5: the path buffer *)

Lemma path_read_ok path k :
  (k < length path)%nat -> path_read path (Z.of_nat k) = Ok (nth k path (0, 0)).
Proof.
  intros Hk. unfold path_read.
  replace (0 <=? Z.of_nat k) with true by (symmetry; apply Z.leb_le; lia).
  replace (Z.of_nat k <? Z.of_nat (length path)) with true
    by (symmetry; apply Z.ltb_lt; lia).
  simpl. rewrite Nat2Z.id. reflexivity.
Qed.

Lemma path_read_fail path k :
  (length path <= k)%nat -> path_read path (Z.of_nat k) = Fail out_of_range.
Proof.
  intros Hk. unfold path_read.
  replace (Z.of_nat k <? Z.of_nat (length path)) with false
    by (symmetry; apply Z.ltb_ge; lia).
  rewrite andb_false_r. reflexivity.
Qed.

Lemma path_write0_ok path k v :
  (k < length path)%nat ->
  path_write0 path (Z.of_nat k) v = Ok (upd path k (v, snd (nth k path (0, 0)))).
Proof.
  intros Hk. unfold path_write0. rewrite path_read_ok by exact Hk.
  simpl. rewrite Nat2Z.id. reflexivity.
Qed.

Lemma path_write1_ok path k v :
  (k < length path)%nat ->
  path_write1 path (Z.of_nat k) v = Ok (upd path k (fst (nth k path (0, 0)), v)).
Proof.
  intros Hk. unfold path_write1. rewrite path_read_ok by exact Hk.
  simpl. rewrite Nat2Z.id. reflexivity.
Qed.

Lemma path_write0_fail path k v :
  (length path <= k)%nat -> path_write0 path (Z.of_nat k) v = Fail out_of_range.
Proof.
  intros Hk. unfold path_write0. rewrite path_read_fail by exact Hk. reflexivity.
Qed.

Lemma path_write1_fail path k v :
  (length path <= k)%nat -> path_write1 path (Z.of_nat k) v = Fail out_of_range.
Proof.
  intros Hk. unfold path_write1. rewrite path_read_fail by exact Hk. reflexivity.
Qed.

Lemma holds_last path pre rc :
  holds path (pre ++ [rc]) ->
  (length pre < length path)%nat /\ nth (length pre) path (0, 0) = cellZ rc.
Proof.
  intros [Hlen Hnth]. rewrite length_app in Hlen. simpl in Hlen.
  split; [lia|].
  rewrite Hnth by (rewrite length_app; simpl; lia).
  rewrite app_nth2 by lia. rewrite Nat.sub_diag. reflexivity.
Qed.

Lemma holds_snoc path pre rc :
  holds path pre -> (length pre < length path)%nat ->
  holds (upd path (length pre) (cellZ rc)) (pre ++ [rc]).
Proof.
  intros [Hlen Hnth] Hlt. split.
  - rewrite length_upd, length_app. simpl. lia.
  - intros i Hi. rewrite length_app in Hi. simpl in Hi.
    destruct (Nat.eq_dec i (length pre)) as [->|Hne].
    + rewrite nth_upd_eq by exact Hlt.
      rewrite app_nth2 by lia. rewrite Nat.sub_diag. reflexivity.
    + rewrite nth_upd_neq by lia. rewrite app_nth1 by lia. apply Hnth. lia.
Qed.

Lemma upd_upd {A} (l : list A) i v w : upd (upd l i v) i w = upd l i w.
Proof.
  revert i; induction l as [|h t IH]; intros [|i]; simpl; auto. f_equal. apply IH.
Qed.

Lemma step5_loop_eq fuel path pc c M :
  step5_loop (S fuel) path pc c M =
  (last <- path_read path (pc - 1) ;;
   let r := find_star_in_col (snd last) M in
   if r >? -1 then
     path1 <- path_write0 path (pc + 1 - 1) r ;;
     prev <- path_read path1 (pc + 1 - 2) ;;
     path2 <- path_write1 path1 (pc + 1 - 1) (snd prev) ;;
     last2 <- path_read path2 (pc + 1 - 1) ;;
     let c2 := find_prime_in_row (fst last2) c M in
     prev2 <- path_read path2 (pc + 1 + 1 - 2) ;;
     path3 <- path_write0 path2 (pc + 1 + 1 - 1) (fst prev2) ;;
     path4 <- path_write1 path3 (pc + 1 + 1 - 1) c2 ;;
     step5_loop fuel path4 (pc + 1 + 1) c2 M
   else Ok (path, pc)).
Proof. reflexivity. Qed.

Section Step5.

Variable n : nat.
Variable M : matrix_t.
Hypothesis HsM : square n M.
Hypothesis Hmatch : matching M.
Hypothesis Hprimes : forall r c c', prime M r c -> prime M r c' -> c = c'.

(* The loop of step 5 writes the cells of the chain behind the cell it
   starts from, unless the buffer is too short for them. *)
Lemma step5_loop_chain L c rest :
  chain M L c rest ->
  forall fuel path pre r cvar,
    (length rest < 2 * fuel)%nat ->
    holds path (pre ++ [(r, c)]) ->
    step5_loop fuel path (Z.of_nat (length pre + 1)) cvar M = Fail out_of_range \/
    exists path',
      step5_loop fuel path (Z.of_nat (length pre + 1)) cvar M =
        Ok (path', Z.of_nat (length pre + 1 + length rest)) /\
      holds path' (pre ++ (r, c) :: rest).
Proof.
  destruct Hmatch as [Hrow Hcol].
  induction 1 as [L c Hno|L1 r' L2 c c' rest Hs Hp Hch IH];
    intros fuel path pre r cvar Hfuel Hholds.
  - destruct fuel as [|fuel]; [simpl in Hfuel; lia|].
    rewrite step5_loop_eq.
    destruct (holds_last _ _ _ Hholds) as [Hlt Hnth].
    replace (Z.of_nat (length pre + 1) - 1) with (Z.of_nat (length pre)) by lia.
    rewrite path_read_ok by exact Hlt. rewrite Hnth. cbn [bind cellZ fst snd].
    destruct (find_star_in_col_spec n M c HsM) as [[E _]|[r' [_ [Hst _]]]].
    + rewrite E. simpl. right. exists path.
      rewrite Nat.add_0_r. auto.
    + exfalso. exact (Hno _ Hst).
  - destruct fuel as [|fuel]; [simpl in Hfuel; lia|].
    rewrite step5_loop_eq.
    destruct (holds_last _ _ _ Hholds) as [Hlt Hnth].
    set (k := length pre) in *.
    replace (Z.of_nat (k + 1) - 1) with (Z.of_nat k) by lia.
    replace (Z.of_nat (k + 1) + 1 - 1) with (Z.of_nat (k + 1)) by lia.
    replace (Z.of_nat (k + 1) + 1 - 2) with (Z.of_nat k) by lia.
    replace (Z.of_nat (k + 1) + 1 + 1 - 2) with (Z.of_nat (k + 1)) by lia.
    replace (Z.of_nat (k + 1) + 1 + 1 - 1) with (Z.of_nat (k + 2)) by lia.
    replace (Z.of_nat (k + 1) + 1 + 1) with (Z.of_nat (k + 2 + 1)) by lia.
    rewrite path_read_ok by exact Hlt. rewrite Hnth. cbn [bind cellZ fst snd].
    destruct (find_star_in_col_spec n M c HsM) as [[_ Hno]|[r'' [_ [Hst E]]]].
    { exfalso. exact (Hno _ Hs). }
    assert (r'' = r') by (eapply Hcol; eassumption). subst r''.
    rewrite E. replace (Z.of_nat r' >? -1) with true by (symmetry; apply Z.gtb_lt; lia).
    destruct (Nat.lt_ge_cases (k + 1) (length path)) as [H1|H1];
      [|left; rewrite path_write0_fail by exact H1; reflexivity].
    rewrite path_write0_ok by exact H1. cbn [bind].
    set (path1 := upd path (k + 1) _).
    assert (Hl1 : length path1 = length path) by apply length_upd.
    rewrite path_read_ok by lia.
    assert (Hk1 : nth k path1 (0, 0) = cellZ (r, c)).
    { unfold path1. rewrite nth_upd_neq by lia. exact Hnth. }
    rewrite Hk1. cbn [bind cellZ fst snd].
    rewrite path_write1_ok by lia. cbn [bind].
    assert (Hp2 : upd path1 (k + 1) (fst (nth (k + 1) path1 (0, 0)), Z.of_nat c)
                  = upd path (k + 1) (cellZ (r', c))).
    { unfold path1. rewrite nth_upd_eq by exact H1. rewrite upd_upd. reflexivity. }
    rewrite Hp2. clear Hp2 Hk1 Hl1 path1.
    set (path2 := upd path (k + 1) (cellZ (r', c))).
    assert (Hl2 : length path2 = length path) by apply length_upd.
    assert (Hh2 : holds path2 ((pre ++ [(r, c)]) ++ [(r', c)])).
    { unfold path2. replace (k + 1)%nat with (length (pre ++ [(r, c)]))
        by (rewrite length_app; reflexivity).
      apply holds_snoc; [exact Hholds|]. rewrite length_app. simpl. fold k. lia. }
    rewrite path_read_ok by lia.
    assert (Hk2 : nth (k + 1) path2 (0, 0) = cellZ (r', c)).
    { unfold path2. apply nth_upd_eq. exact H1. }
    rewrite Hk2. cbn [bind cellZ fst snd].
    destruct (find_prime_in_row_spec n M r' cvar HsM) as [[_ Hnp]|[c'' [_ [Hpr Ep]]]].
    { exfalso. exact (Hnp _ Hp). }
    assert (c'' = c') by (eapply Hprimes; eassumption). subst c''.
    rewrite Ep.
    destruct (Nat.lt_ge_cases (k + 2) (length path)) as [H2|H2];
      [|left; rewrite path_write0_fail by lia; reflexivity].
    rewrite path_write0_ok by lia. cbn [bind].
    rewrite path_write1_ok by (rewrite length_upd; lia). cbn [bind].
    rewrite nth_upd_eq by lia. rewrite upd_upd. cbn [fst].
    change (Z.of_nat r', Z.of_nat c') with (cellZ (r', c')).
    set (pre' := (pre ++ [(r, c)]) ++ [(r', c)]) in *.
    assert (Hlen' : length pre' = (k + 2)%nat).
    { unfold pre'. rewrite !length_app. simpl. fold k. lia. }
    assert (Hh4 : holds (upd path2 (k + 2) (cellZ (r', c'))) (pre' ++ [(r', c')])).
    { rewrite <- Hlen'. apply holds_snoc; [exact Hh2|lia]. }
    destruct (IH fuel (upd path2 (k + 2) (cellZ (r', c'))) pre' r' (Z.of_nat c'))
      as [Hf|[path' [Hok Hh]]].
    + simpl in Hfuel. lia.
    + exact Hh4.
    + left. rewrite Hlen' in Hf. exact Hf.
    + right. exists path'. rewrite Hlen' in Hok.
      split.
      * rewrite Hok. do 2 f_equal. simpl. lia.
      * unfold pre' in Hh. rewrite <- !app_assoc in Hh. exact Hh.
Qed.

End Step5.

(** Flipping the cells of the path *)

Lemma augment_loop_cells path P : forall start M,
  (forall i, (i < length P)%nat ->
             path_read path (Z.of_nat (start + i)) = Ok (cellZ (nth i P (O, O)))) ->
  augment_path_loop path (seq start (length P)) M = Ok (fold_left flip_cell P M).
Proof.
  induction P as [|p P IH]; intros start M Hread; simpl; [reflexivity|].
  pose proof (Hread O) as H0. rewrite Nat.add_0_r in H0. simpl in H0.
  rewrite H0 by lia. cbn [bind cellZ fst snd]. unfold getZ, setZ.
  rewrite !Nat2Z.id.
  replace (if get M (fst p) (snd p) =? 1
           then set M (fst p) (snd p) 0 else set M (fst p) (snd p) 1)
    with (flip_cell M p)
    by (unfold flip_cell, flip; destruct (get M (fst p) (snd p) =? 1); reflexivity).
  apply IH. intros i Hi.
  replace (S start + i)%nat with (start + S i)%nat by lia.
  rewrite Hread by (simpl; lia). reflexivity.
Qed.

Lemma flip_cells_get n P : forall M,
  square n M -> NoDup P ->
  (forall r c, In (r, c) P -> (r < n)%nat /\ (c < n)%nat) ->
  square n (fold_left flip_cell P M) /\
  forall r c, get (fold_left flip_cell P M) r c = flipped M P r c.
Proof.
  induction P as [|[pr pc] P IH]; intros M Hs Hnd Hrange; simpl.
  - split; [exact Hs|reflexivity].
  - inversion Hnd as [|? ? Hnin Hnd']; subst.
    destruct (Hrange pr pc (or_introl eq_refl)) as [Hpr Hpc].
    assert (Hs1 : square n (flip_cell M (pr, pc))) by (apply square_set; exact Hs).
    destruct (IH (flip_cell M (pr, pc)) Hs1 Hnd') as [Hs' Hget].
    { intros r c H. apply Hrange. right. exact H. }
    split; [exact Hs'|].
    intros r c. rewrite Hget. unfold flipped, flip_cell. simpl.
    rewrite (get_set n) by assumption.
    destruct (Nat.eqb_spec pr r) as [->|Hr]; simpl.
    + destruct (Nat.eqb_spec pc c) as [->|Hc]; simpl.
      * apply memb_false in Hnin. rewrite Hnin. reflexivity.
      * reflexivity.
    + reflexivity.
Qed.

Lemma chain_cells M L c rest :
  chain M L c rest -> forall r x, In (r, x) rest -> star M r x \/ prime M r x.
Proof.
  induction 1 as [|L1 r L2 c c' rest Hs Hp Hch IH]; intros r0 x Hin.
  - destruct Hin.
  - destruct Hin as [E|[E|Hin]]; [inversion E; subst; auto|inversion E; subst; auto|].
    apply IH. exact Hin.
Qed.

Lemma get_erase_primes n M r c :
  square n M -> (r < n)%nat -> (c < n)%nat ->
  get (erase_primes M) r c = if get M r c =? 2 then 0 else get M r c.
Proof.
  intros Hs Hr Hc. unfold erase_primes. apply get_map_map.
  - rewrite (square_length _ _ Hs). exact Hr.
  - rewrite (square_row _ _ _ Hs Hr). exact Hc.
Qed.

Lemma step5_total n M RC CC L r0 c0 fuel path :
  square n M -> aug_inv M L r0 c0 -> (length L < fuel)%nat ->
  step5 fuel path (Z.of_nat r0) (Z.of_nat c0) M RC CC = Fail out_of_range \/
  exists path' M',
    step5 fuel path (Z.of_nat r0) (Z.of_nat c0) M RC CC =
      Ok (path', M', clear_covers RC, clear_covers CC, 3) /\
    step5_post n M r0 M'.
Proof.
  intros HsM [Hmatch [Hprimes [Hord [Hp0 [Hno [Hnin Hcol0]]]]]] Hfuel.
  unfold step5. change (1 - 1) with (Z.of_nat 0).
  destruct (Nat.lt_ge_cases 0 (length path)) as [Hlen|Hlen];
    [|left; rewrite path_write0_fail by exact Hlen; reflexivity].
  rewrite path_write0_ok by exact Hlen. cbn [bind].
  rewrite path_write1_ok by (rewrite length_upd; exact Hlen). cbn [bind].
  rewrite nth_upd_eq by exact Hlen. rewrite upd_upd. cbn [fst].
  change (Z.of_nat r0, Z.of_nat c0) with (cellZ (r0, c0)).
  destruct (chain_exists M L c0 Hord Hcol0) as [rest Hch].
  pose proof (ord_NoDup M L Hord) as HndL.
  assert (Hh : holds (upd path 0 (cellZ (r0, c0))) ([] ++ [(r0, c0)])).
  { apply (holds_snoc path [] (r0, c0)); [|exact Hlen].
    split; [simpl; lia|]. intros i Hi. simpl in Hi. lia. }
  destruct (step5_loop_chain n M HsM Hmatch Hprimes L c0 rest Hch fuel
              (upd path 0 (cellZ (r0, c0))) [] r0 (-1))
    as [Hf|[path' [Hok Hholds]]].
  - pose proof (chain_length _ _ _ _ Hch). lia.
  - exact Hh.
  - left. change (Z.of_nat (length (@nil (nat * nat)) + 1)) with 1 in Hf.
    rewrite Hf. reflexivity.
  - right. change (Z.of_nat (length (@nil (nat * nat)) + 1)) with 1 in Hok.
    change (length (@nil (nat * nat)) + 1 + length rest)%nat
      with (S (length rest)) in Hok.
    change ([] ++ (r0, c0) :: rest) with ((r0, c0) :: rest) in Hholds.
    rewrite Hok. cbn [bind].
    set (P := (r0, c0) :: rest) in *.
    unfold augment_path. rewrite Nat2Z.id.
    change (S (length rest)) with (length P).
    destruct Hholds as [HlenP Hnth].
    rewrite (augment_loop_cells path' P 0 M).
    2:{ intros i Hi. simpl. rewrite path_read_ok by lia. rewrite Hnth by exact Hi.
        reflexivity. }
    cbn [bind]. exists path', (erase_primes (fold_left flip_cell P M)).
    split; [reflexivity|].
    assert (HndP : NoDup P).
    { constructor; [|eapply chain_NoDup; eassumption].
      intros Hin. apply Hnin. eapply chain_rows; eassumption. }
    assert (HrangeP : forall r c, In (r, c) P -> (r < n)%nat /\ (c < n)%nat).
    { intros r c [E|Hin].
      - inversion E; subst. apply (prime_range n M); assumption.
      - destruct (chain_cells _ _ _ _ Hch _ _ Hin) as [H|H];
          [apply (star_range n M)|apply (prime_range n M)]; assumption. }
    destruct (flip_cells_get n P M HsM HndP HrangeP) as [Hs2 Hget].
    set (M2 := fold_left flip_cell P M) in *.
    destruct (path_flipped M Hmatch L r0 c0 rest Hch HndL Hp0 Hno Hnin)
      as [F1 [F2 [F3 F4]]].
    fold P in F1, F2, F3, F4.
    assert (Hs' : square n (erase_primes M2)) by (apply square_map_map; exact Hs2).
    assert (Hstar : forall r x, star (erase_primes M2) r x <-> flipped M P r x = 1).
    { intros r x. split.
      - intros H. destruct (star_range n _ r x Hs' H) as [Hr Hx].
        unfold star in H. rewrite (get_erase_primes n) in H by assumption.
        rewrite Hget in H. destruct (flipped M P r x =? 2); [discriminate|exact H].
      - intros H. assert (Hrx : (r < n)%nat /\ (x < n)%nat).
        { destruct (F4 r x H) as [H'|H'];
            [apply (star_range n M)|apply (prime_range n M)]; assumption. }
        destruct Hrx as [Hr Hx].
        unfold star. rewrite (get_erase_primes n) by assumption.
        rewrite Hget, H. reflexivity. }
    split; [exact Hs'|]. split; [|split; [|split]].
    + split.
      * intros r x x' H1 H2. apply Hstar in H1, H2. eapply F1; eassumption.
      * intros r r' x H1 H2. apply Hstar in H1, H2. eapply F2; eassumption.
    + intros r x H. destruct (prime_range n _ r x Hs' H) as [Hr Hx].
      unfold prime in H. rewrite (get_erase_primes n) in H by assumption.
      destruct (get M2 r x =? 2) eqn:E; [discriminate|].
      apply Z.eqb_neq in E. contradiction.
    + intros r. rewrite <- F3. split; intros [x Hx]; exists x; apply Hstar; exact Hx.
    + intros r x H. apply Hstar in H. apply F4. exact H.
Qed.

Lemma step5_spec n M RC CC L r0 c0 fuel path path' M' RC' CC' st' :
  square n M -> aug_inv M L r0 c0 ->
  step5 fuel path (Z.of_nat r0) (Z.of_nat c0) M RC CC = Ok (path', M', RC', CC', st') ->
  step5_post n M r0 M' /\ RC' = clear_covers RC /\ CC' = clear_covers CC /\ st' = 3.
Proof.
  intros HsM Hinv H.
  pose proof (step5_fuel fuel (fuel + S (length L)) _ _ _ _ _ _ _ H) as Hbig.
  destruct (step5_total n M RC CC L r0 c0 (fuel + S (length L)) path HsM Hinv)
    as [Hf|[p2 [M2 [Hok Hpost]]]]; [lia| |].
  - rewrite Hbig in Hf; [discriminate|discriminate|lia].
  - rewrite Hbig in Hok; [|discriminate|lia].
    inversion Hok; subst. repeat split; apply Hpost.
Qed.

(** ** The invariant of the loop *)

Lemma step6_zero_marks n matrix M RC CC L :
  square n matrix -> shape n M RC CC -> search_inv n M RC CC L ->
  zero_marks matrix M -> zero_marks (fst (step6 matrix RC CC)) M.
Proof.
  intros Hmx [HsM [HlR [HlC [HbR HbC]]]] [_ [Hcov [Hpc _]]] Hzm r c Hmark.
  assert (Hrange : (r < n)%nat /\ (c < n)%nat).
  { destruct Hmark as [H|H]; [apply (star_range n M)|apply (prime_range n M)]; assumption. }
  destruct Hrange as [Hr Hc].
  rewrite (step6_get n) by assumption. rewrite (Hzm r c Hmark).
  unfold adjust.
  assert (Hcases : (nth r RC 0 = 1 /\ nth c CC 0 = 0) \/ (nth r RC 0 = 0 /\ nth c CC 0 = 1)).
  { destruct Hmark as [H|H].
    - apply Hcov in H. destruct (bin_nth RC r HbR), (bin_nth CC c HbC); lia.
    - left. apply Hpc. exact H. }
  destruct Hcases as [[E1 E2]|[E1 E2]]; rewrite E1, E2; simpl.
  - apply add_sub_cancel. unfold Int.in_range, Int.min, Int.max. lia.
  - reflexivity.
Qed.

Lemma square_step1 n m : square n m -> square n (fst (step1 m)).
Proof.
  intros [Hl Hf]. unfold step1. simpl. split; [rewrite length_map; exact Hl|].
  apply Forall_map. eapply Forall_impl; [|exact Hf].
  intros row Hrow. simpl. destruct (0 <? min_element row); [|exact Hrow].
  rewrite length_map. exact Hrow.
Qed.

Lemma resize_same {A} n (v : A) l : length l = n -> resize n v l = l.
Proof.
  intros H. unfold resize. rewrite <- H, firstn_all, Nat.sub_diag. apply app_nil_r.
Qed.

Lemma resize_square n M : square n M -> resize n [] (map (resize n 0) M) = M.
Proof.
  intros [Hl Hf]. rewrite resize_same by (rewrite length_map; exact Hl).
  transitivity (map (fun row : list Z => row) M); [|apply map_id].
  apply map_ext_in. intros row Hrow. apply resize_same.
  rewrite Forall_forall in Hf. apply Hf. exact Hrow.
Qed.

(* Step 3 with the outcome 4 establishes the invariant of step 4. *)
Lemma step3_search n M RC CC CC' :
  shape n M RC CC -> matching M -> (forall r c, ~ prime M r c) ->
  all_zero RC ->
  length CC' = n -> bin CC' ->
  (forall c, nth c CC' 0 = 1 <-> exists r, star M r c) ->
  (exists c, (c < n)%nat /\ nth c CC' 0 = 0) ->
  shape n M RC CC' /\ search_inv n M RC CC' [].
Proof.
  intros [HsM [HlR [HlC [HbR HbC]]]] Hmatch Hnp HR0 Hl' Hb' Hiff [c0 [Hc0 Hu]].
  split; [split; [exact HsM|auto]|].
  split; [exact Hmatch|].
  split.
  { intros r c H. rewrite (all_zero_nth _ _ HR0).
    assert (nth c CC' 0 = 1) by (apply Hiff; exists r; exact H). lia. }
  split; [intros r c H; exfalso; exact (Hnp _ _ H)|].
  split; [intros r c c' H; exfalso; exact (Hnp _ _ H)|].
  split.
  { intros r. rewrite (all_zero_nth _ _ HR0). simpl. split; [tauto|discriminate]. }
  split; [exact I|].
  split; [|exists c0; auto].
  apply unmatched_row; [exact HsM|exact Hmatch|].
  exists c0. split; [exact Hc0|]. intros r H.
  assert (nth c0 CC' 0 = 1) by (apply Hiff; exists r; exact H). lia.
Qed.

Lemma no_zero_marks matrix M : (forall r c, get M r c = 0) -> zero_marks matrix M.
Proof.
  intros H0 r c [H|H]; unfold star, prime in H; rewrite H0 in H; discriminate.
Qed.

Lemma work_step_struct n fuel s s' d :
  struct_inv n s -> work_step fuel n n s = Ok (s', d) -> struct_inv n s'.
Proof.
  intros [Hmx [Hsh [Hzm Hcase]]] H.
  destruct Hcase as [[Hst [HM0 [HR0 HC0]]]|[[Hst [Hmatch [Hnp [HR0 HC0]]]]|
                     [[Hst [L Hinv]]|[[Hst [L [r0 [c0 [Er [Ec Hinv]]]]]]|
                     [Hst [Hmatch Hall]]]]]].
  - destruct Hst as [E|E].
    + rewrite (work_step_1 _ _ _ _ E) in H. inversion H; subst; clear H.
      split; [apply square_step1; exact Hmx|]. split; [exact Hsh|].
      split; [apply no_zero_marks; exact HM0|]. left. simpl. auto.
    + destruct (step2 (matrix s) (M s) (RowCover s) (ColCover s))
        as [[[M' RC'] CC'] st'] eqn:E2.
      rewrite (work_step_2 _ _ _ _ _ _ _ _ E E2) in H. inversion H; subst; clear H.
      destruct (step2_spec n _ _ _ _ _ _ _ _ Hmx Hsh HM0 HR0 HC0 E2)
        as [-> [Hsh' [Hmatch' [HR' [HC' Hz']]]]].
      pose proof (step2_values is01 (matrix s) (M s) (RowCover s) (ColCover s)) as Hv.
      rewrite E2 in Hv. simpl in Hv.
      assert (Hv' : mask_values is01 M').
      { apply Hv; [|right; reflexivity].
        apply Forall_forall. intros row Hrow. apply Forall_forall. intros x Hx.
        destruct (In_nth _ _ [] Hrow) as [r [Hr <-]].
        destruct (In_nth _ _ 0 Hx) as [c [Hc <-]].
        left. apply (HM0 r c). }
      assert (Hnp' : forall r c, ~ prime M' r c).
      { intros r c Hp. unfold prime in Hp.
        destruct (mask_values_get is01 M' r c Hv' (or_introl eq_refl)); lia. }
      split; [exact Hmx|]. split; [exact Hsh'|]. simpl. split.
      * intros r c [Hs|Hp]; [apply Hz'; exact Hs|exfalso; exact (Hnp' _ _ Hp)].
      * right. left. auto.
  - destruct (step3 (M s) (ColCover s)) as [CC' st'] eqn:E3.
    rewrite (work_step_3 _ _ _ _ _ _ Hst E3) in H. inversion H; subst; clear H.
    destruct Hsh as [HsM [HlR [HlC [HbR HbC]]]].
    destruct (step3_spec n _ _ _ _ HsM HlC HC0 E3) as [Hl' [Hb' [Hiff Hres]]].
    split; [exact Hmx|]. simpl.
    destruct Hres as [[-> Hall]|[-> Hex]].
    + split; [split; [exact HsM|auto]|]. split; [exact Hzm|].
      right. right. right. right. auto.
    + destruct (step3_search n (M s) (RowCover s) (ColCover s) CC') as [Hsh' Hinv'];
        auto; [split; [exact HsM|auto]|].
      split; [exact Hsh'|]. split; [exact Hzm|].
      right. right. left. split; [auto|]. exists []. exact Hinv'.
  - destruct Hst as [E|E].
    + rewrite (work_step_4 _ _ _ _ E) in H.
      destruct (step4 _ _ _ _ _ _ _) as [res|e] eqn:E4; [|discriminate].
      unfold step4 in E4.
      pose proof (step4_loop_spec n _ _ _ _ _ _ _ _ _ Hmx Hsh Hzm Hinv E4) as Hpost.
      destruct res as [[[[[M' RC'] CC'] r0'] c0'] st'].
      inversion H; subst; clear H. simpl in Hpost.
      destruct Hpost as [Hsh' [Hzm' [_ Hcase]]].
      split; [exact Hmx|]. split; [exact Hsh'|]. split; [exact Hzm'|]. simpl.
      destruct Hcase as [[-> [L' [HI _]]]|[-> [L' [r [c [-> [-> [_ [_ HA]]]]]]]]].
      * right. right. left. split; [auto|]. exists (L' ++ L). exact HI.
      * right. right. right. left. split; [reflexivity|].
        exists (L' ++ L), r, c. auto.
    + rewrite (work_step_6 _ _ _ _ E) in H. inversion H; subst; clear H.
      split; [apply step6_square; exact Hmx|]. split; [exact Hsh|]. simpl.
      split; [eapply step6_zero_marks; eassumption|].
      right. right. left. split; [auto|]. exists L. exact Hinv.
  - rewrite (work_step_5 _ _ _ _ Hst) in H.
    destruct (step5 _ _ _ _ _ _ _) as [[[[[p' M'] RC'] CC'] st']|e] eqn:E5;
      [|discriminate].
    inversion H; subst; clear H.
    rewrite Er, Ec in E5.
    destruct Hsh as [HsM [HlR [HlC [HbR HbC]]]].
    destruct (step5_spec n _ _ _ _ _ _ _ _ _ _ _ _ _ HsM Hinv E5)
      as [[Hs' [Hmatch' [Hnp' [Hrows Hfrom]]]] [-> [-> ->]]].
    split; [exact Hmx|]. simpl. split.
    { split; [exact Hs'|]. rewrite !length_clear_covers.
      split; [exact HlR|]. split; [exact HlC|].
      split; apply all_zero_bin, clear_covers_zero. }
    split.
    { intros r c [Hs0|Hp0]; [|exfalso; exact (Hnp' _ _ Hp0)].
      apply Hzm. apply Hfrom. exact Hs0. }
    right. left. split; [reflexivity|]. split; [exact Hmatch'|].
    split; [exact Hnp'|]. split; apply clear_covers_zero.
  - rewrite (work_step_7 _ _ _ _ Hst) in H. inversion H; subst; clear H.
    destruct Hsh as [HsM Hrest].
    simpl. rewrite (resize_square n _ HsM).
    split; [exact Hmx|]. split; [split; [exact HsM|exact Hrest]|].
    split; [exact Hzm|]. right. right. right. right. auto.
Qed.

(** ** From the input to the final mask *)

Lemma square_rectangular n m : (0 < n)%nat -> square n m -> rectangular m.
Proof.
  intros Hn [Hl Hf]. split.
  - intros E. subst m. simpl in Hl. lia.
  - destruct m as [|row0 rest]; [constructor|]. simpl.
    inversion Hf; subst. rewrite H1. exact Hf.
Qed.

Lemma handle_negatives_square n m allow m' :
  square n m -> handle_negatives m allow = (m', None) -> square n m'.
Proof.
  intros Hs H. unfold handle_negatives in H.
  destruct (matrix_min m <? 0); [|inversion H; subst; exact Hs].
  destruct (negb allow); [discriminate|].
  inversion H; subst. apply square_map_map. exact Hs.
Qed.

Lemma pad_matrix_square n m : (0 < n)%nat -> square n m -> pad_matrix m = m.
Proof.
  intros Hn Hs. unfold pad_matrix.
  rewrite (square_length _ _ Hs), (square_row _ _ _ Hs Hn).
  rewrite Nat.ltb_irrefl. reflexivity.
Qed.

Lemma square_repeat n : square n (repeat (repeat 0 n) n).
Proof.
  split; [apply repeat_length|].
  apply Forall_forall. intros row Hrow. apply repeat_spec in Hrow. subst.
  apply repeat_length.
Qed.

Lemma get_repeat n k r c : get (repeat (repeat 0 n) k) r c = 0.
Proof.
  apply (mask_values_get (fun v => v = 0)); [|reflexivity].
  apply mask_values_repeat. reflexivity.
Qed.

Lemma init_struct n m : square n m -> struct_inv n (init_state m).
Proof.
  intros Hs. unfold struct_inv, init_state. simpl.
  rewrite (square_length _ _ Hs).
  split; [exact Hs|]. split.
  - split; [apply square_repeat|]. rewrite !repeat_length.
    split; [reflexivity|]. split; [reflexivity|].
    split; apply all_zero_bin, all_zero_repeat.
  - split; [apply no_zero_marks; intros r c; apply get_repeat|].
    left. split; [auto|]. split; [intros r c; apply get_repeat|].
    split; apply all_zero_repeat.
Qed.

(* The state in which a run on a square matrix starts. *)
Lemma hungarian_run_start n original allow fuel s :
  (0 < n)%nat -> square n original ->
  hungarian_run fuel original allow = Ok s ->
  exists m, handle_negatives original allow = (m, None) /\ square n m /\
            work fuel n n (init_state m) = Ok s.
Proof.
  intros Hn Hs H. unfold hungarian_run in H.
  destruct original as [|row0 rest] eqn:Eo; [discriminate|]. rewrite <- Eo in *.
  rewrite (copy_original_rectangular _ (square_rectangular n _ Hn Hs)) in H.
  destruct (handle_negatives original allow) as [m [e|]] eqn:Eh; [discriminate|].
  pose proof (handle_negatives_square _ _ _ _ Hs Eh) as Hm.
  rewrite (pad_matrix_square n m Hn Hm) in H.
  rewrite (square_length _ _ Hs) in H.
  assert (Hc : length (hd [] original) = n).
  { pose proof (square_row n original 0 Hs Hn) as Hr.
    rewrite Eo in *. exact Hr. }
  rewrite Hc in H. exists m. auto.
Qed.

Lemma work_final_struct n fuel m s :
  square n m -> work fuel n n (init_state m) = Ok s ->
  struct_inv n s /\ step s = 7.
Proof.
  intros Hs H. split.
  - apply (work_inv (struct_inv n) n n) with (fuel := fuel) (s := init_state m).
    + intros f s0 s1 d. apply work_step_struct.
    + apply init_struct. exact Hs.
    + exact H.
  - apply (work_final_values _ _ _ _ _ H).
Qed.

(** Counting the stars of a complete matching *)

Lemma filter_single {A} (f : A -> bool) (a : A) l :
  NoDup l -> In a l -> (forall x, In x l -> (f x = true <-> x = a)) ->
  length (filter f l) = 1%nat.
Proof.
  induction l as [|x l IH]; intros Hnd Hin Hf; [destruct Hin|].
  inversion Hnd as [|? ? Hnx Hnd']; subst. simpl.
  destruct (f x) eqn:E.
  - assert (x = a) by (apply Hf; [left; reflexivity|exact E]). subst x.
    simpl. f_equal.
    assert (Hnone : forall y, In y l -> f y = false).
    { intros y Hy. destruct (f y) eqn:Ey; [|reflexivity].
      assert (y = a) by (apply Hf; [right; exact Hy|exact Ey]). subst. contradiction. }
    clear -Hnone. induction l as [|y l IH]; [reflexivity|]. simpl.
    rewrite (Hnone y (or_introl eq_refl)). apply IH.
    intros z Hz. apply Hnone. right. exact Hz.
  - destruct Hin as [->|Hin].
    + assert (f a = true) by (apply Hf; [left; reflexivity|reflexivity]). congruence.
    + apply IH; [exact Hnd'|exact Hin|].
      intros y Hy. apply Hf. right. exact Hy.
Qed.

Lemma filter_map_length {A B} (f : B -> bool) (g : A -> B) l :
  length (filter f (map g l)) = length (filter (fun x => f (g x)) l).
Proof.
  induction l as [|x l IH]; simpl; [reflexivity|].
  destruct (f (g x)); simpl; rewrite IH; reflexivity.
Qed.

Lemma complete_matching_permutation n M :
  square n M -> matching M ->
  (forall c, (c < n)%nat -> exists r, star M r c) ->
  permutation_matrix n M.
Proof.
  intros Hs Hmatch Hall. pose proof Hmatch as [Hrow Hcol].
  assert (Hcols : forall c, (c < n)%nat -> stars_in_col n M c = 1%nat).
  { intros c Hc. destruct (Hall c Hc) as [r Hst].
    unfold stars_in_col. apply (filter_single _ r).
    - apply seq_NoDup.
    - apply in_seq. destruct (star_range n M r c Hs Hst). lia.
    - intros r' _. rewrite Z.eqb_eq. split; [|intros ->; exact Hst].
      intros H. eapply Hcol; eassumption. }
  assert (Hrows : forall r, (r < n)%nat -> stars_in_row n M r = 1%nat).
  { intros r Hr. destruct (matched_rows n M Hs Hmatch Hall r Hr) as [c Hst].
    unfold stars_in_row. apply (filter_single _ c).
    - apply seq_NoDup.
    - apply in_seq. destruct (star_range n M r c Hs Hst). lia.
    - intros c' _. rewrite Z.eqb_eq. split; [|intros ->; exact Hst].
      intros H. eapply Hrow; eassumption. }
  split; [|split; assumption].
  unfold starred_cells.
  assert (Hlen : forall l, (forall c, In c l -> (c < n)%nat) ->
            length (filter (fun rc => get M (fst rc) (snd rc) =? 1)
                      (flat_map (fun j => map (fun i => (i, j)) (seq 0 n)) l))
            = length l).
  { induction l as [|j l IH]; intros Hl; simpl; [reflexivity|].
    rewrite filter_app, length_app, filter_map_length. simpl.
    change (length (filter (fun x => get M x j =? 1) (seq 0 n)))
      with (stars_in_col n M j).
    rewrite Hcols by (apply Hl; left; reflexivity).
    rewrite IH; [reflexivity|]. intros c Hc. apply Hl. right. exact Hc. }
  rewrite Hlen; [apply length_seq|].
  intros c Hc. apply in_seq in Hc. lia.
Qed.

(** ** The entries of the working matrix *)

Lemma fold_min_le l : forall a x, (x = a \/ In x l) -> fold_left Z.min l a <= x.
Proof.
  induction l as [|h t IH]; intros a x Hx; simpl.
  - destruct Hx as [->|[]]. lia.
  - destruct Hx as [->|[<-|Hin]].
    + transitivity (Z.min a h); [apply IH; left; reflexivity|lia].
    + transitivity (Z.min a h); [apply IH; left; reflexivity|lia].
    + apply IH. right. exact Hin.
Qed.

Lemma fold_min_in l : forall a, fold_left Z.min l a = a \/ In (fold_left Z.min l a) l.
Proof.
  induction l as [|h t IH]; intros a; simpl; [left; reflexivity|].
  destruct (IH (Z.min a h)) as [E|Hin]; [|right; right; exact Hin].
  rewrite E. destruct (Z.min_spec a h) as [[_ ->]|[_ ->]]; auto.
Qed.

Lemma min_element_le row x : In x row -> min_element row <= x.
Proof.
  intros Hx. unfold min_element. destruct row as [|h t]; [destruct Hx|].
  simpl. apply fold_min_le. destruct Hx as [<-|Hin]; auto.
Qed.

Lemma min_element_in row : row <> [] -> In (min_element row) row.
Proof.
  intros Hne. unfold min_element. destruct row as [|h t]; [congruence|].
  simpl. destruct (fold_min_in t h) as [->|Hin]; auto.
Qed.

Lemma find_smallest_spec n matrix RC CC init :
  square n matrix ->
  let m := find_smallest init matrix RC CC in
  m <= init /\
  (forall r c, (r < n)%nat -> (c < n)%nat -> uncovered RC CC r c -> m <= get matrix r c) /\
  (m = init \/
   exists r c, (r < n)%nat /\ (c < n)%nat /\ uncovered RC CC r c /\ m = get matrix r c).
Proof.
  intros Hs m. subst m. unfold find_smallest. rewrite (square_length _ _ Hs).
  change (fun minval r =>
            fold_left (fun minval c =>
                         if (nth r RC 0 =? 0) && (nth c CC 0 =? 0)
                         then if minval >? get matrix r c then get matrix r c else minval
                         else minval) (seq 0 n) minval)
    with (fun minval r => fold_left (find_smallest_cell matrix RC CC r) (seq 0 n) minval).
  split; [|split].
  - apply (nested_fold_inv (find_smallest_cell matrix RC CC) (fun a => a <= init));
      [lia|].
    intros a r c _ _ Ha. unfold find_smallest_cell.
    destruct (_ && _); [|exact Ha].
    destruct (a >? get matrix r c) eqn:E; [|exact Ha].
    apply Z.gtb_lt in E. lia.
  - intros r c Hr Hc [HR HC].
    apply (nested_fold_reach (find_smallest_cell matrix RC CC) (fun _ => True)
             (fun a => a <= get matrix r c) (seq 0 n) (seq 0 n) r c);
      try (apply in_seq; lia); auto.
    + intros a _. unfold find_smallest_cell. rewrite HR, HC. simpl.
      destruct (a >? get matrix r c) eqn:E; [lia|].
      rewrite Z.gtb_ltb in E. apply Z.ltb_ge in E. exact E.
    + intros a r' c' _ _ _ Ha. unfold find_smallest_cell.
      destruct (_ && _); [|exact Ha].
      destruct (a >? get matrix r' c') eqn:E; [|exact Ha].
      apply Z.gtb_lt in E. lia.
  - apply (nested_fold_inv (find_smallest_cell matrix RC CC)
             (fun a => a = init \/
                       exists r c, (r < n)%nat /\ (c < n)%nat /\
                                   uncovered RC CC r c /\ a = get matrix r c));
      [left; reflexivity|].
    intros a r c Hr Hc Ha. apply in_seq in Hr, Hc. unfold find_smallest_cell.
    destruct (nth r RC 0 =? 0) eqn:ER; [|exact Ha].
    destruct (nth c CC 0 =? 0) eqn:EC; [|exact Ha]. simpl.
    destruct (a >? get matrix r c); [|exact Ha].
    right. exists r, c. apply Z.eqb_eq in ER, EC.
    split; [lia|]. split; [lia|]. split; [split; assumption|reflexivity].
Qed.

Lemma potentials_ext n A e e' M u v :
  (forall r c, (r < n)%nat -> (c < n)%nat -> e' r c = e r c) ->
  potentials n A e M u v -> potentials n A e' M u v.
Proof.
  intros Hext [H1 [H2 [H3 H4]]]. split; [|split; [|split]]; auto.
  - intros r c Hr Hc. rewrite Hext by assumption. apply H1; assumption.
  - intros r c Hr Hc. rewrite Hext by assumption. apply H2; assumption.
Qed.

Lemma potentials_mask n A e M M' u v :
  (forall r, (exists c, star M r c) -> exists c, star M' r c) ->
  potentials n A e M u v -> potentials n A e M' u v.
Proof.
  intros Hgrow [H1 [H2 [H3 H4]]]. split; [|split; [|split]]; auto.
  intros r Hr Hno. apply H4; [exact Hr|].
  intros c Hst. destruct (Hgrow r (ex_intro _ c Hst)) as [c' Hc'].
  exact (Hno _ Hc').
Qed.

(* While some row has no star, no entry exceeds twice the largest entry of A. *)
Lemma entries_bound n A K e M u v r0 :
  square n M ->
  potentials n A e M u v ->
  (forall r c, (r < n)%nat -> (c < n)%nat -> 0 <= get A r c <= K) ->
  (forall r c, star M r c -> e r c = 0) ->
  (r0 < n)%nat -> (forall c, ~ star M r0 c) ->
  forall r c, (r < n)%nat -> (c < n)%nat -> e r c <= 2 * K.
Proof.
  intros HsM [H1 [H2 [H3 H4]]] HA Hz Hr0 Hno r c Hr Hc.
  assert (Hv : forall x, (x < n)%nat -> v x <= K).
  { intros x Hx. pose proof (H1 r0 x Hr0 Hx). pose proof (H2 r0 x Hr0 Hx).
    pose proof (H4 r0 Hr0 Hno). pose proof (HA r0 x Hr0 Hx). lia. }
  assert (Hu : - K <= u r).
  { destruct (find_star_in_row_spec n M r HsM) as [[_ Hnone]|[cs [Hcs [Hst _]]]].
    - pose proof (H4 r Hr Hnone). pose proof (HA r c Hr Hc). lia.
    - pose proof (Hz _ _ Hst). pose proof (H1 r cs Hr Hcs).
      pose proof (Hv cs Hcs). pose proof (HA r cs Hr Hcs). lia. }
  pose proof (H1 r c Hr Hc). pose proof (H3 c Hc). pose proof (HA r c Hr Hc). lia.
Qed.

Lemma get_in_row n m r c : square n m -> (r < n)%nat -> (c < n)%nat ->
  In (get m r c) (nth r m []).
Proof.
  intros Hs Hr Hc. unfold get. apply nth_In. rewrite (square_row _ _ _ Hs Hr). exact Hc.
Qed.

(* Step 1 raises the row potentials by the row minima. *)
Lemma step1_potentials n A matrix M u v :
  (0 < n)%nat -> square n matrix -> mask_values Int.in_range matrix ->
  potentials n A (get matrix) M u v ->
  exists u', potentials n A (get (fst (step1 matrix))) M u' v.
Proof.
  intros Hn Hs Hrange [H1 [H2 [H3 H4]]].
  set (rho := fun r => if 0 <? min_element (nth r matrix [])
                       then min_element (nth r matrix []) else 0).
  exists (fun r => u r + rho r).
  assert (Hget : forall r c, (r < n)%nat -> (c < n)%nat ->
            get (fst (step1 matrix)) r c = get matrix r c - rho r /\
            0 <= rho r <= get matrix r c).
  { intros r c Hr Hc. rewrite step1_get
      by (rewrite ?(square_length _ _ Hs), ?(square_row _ _ _ Hs Hr); assumption).
    unfold rho. pose proof (H2 r c Hr Hc) as Hpos.
    destruct (0 <? min_element (nth r matrix [])) eqn:E.
    - apply Z.ltb_lt in E.
      pose proof (min_element_le _ _ (get_in_row n matrix r c Hs Hr Hc)) as Hle.
      split; [|lia]. unfold Int.sub. apply wrap_in_range.
      assert (Hx : Int.in_range (get matrix r c)).
      { apply mask_values_get; [exact Hrange|].
        unfold Int.in_range, Int.min, Int.max. lia. }
      unfold Int.in_range, Int.min, Int.max in *. lia.
    - split; lia. }
  split; [|split; [|split]].
  - intros r c Hr Hc. destruct (Hget r c Hr Hc) as [-> _].
    rewrite (H1 r c Hr Hc). lia.
  - intros r c Hr Hc. destruct (Hget r c Hr Hc) as [-> ?]. lia.
  - exact H3.
  - intros r Hr Hno. pose proof (H4 r Hr Hno).
    destruct (Hget r 0%nat Hr Hn) as [_ ?]. lia.
Qed.

Lemma ord_star M L r : ord M L -> In r L -> exists c, star M r c.
Proof.
  induction L as [|x L IH]; simpl; [intros _ []|].
  intros [_ [Hst [_ Hord]]] [<-|Hin]; [exact Hst|apply IH; assumption].
Qed.

(* Step 6 lowers the potentials of the covered rows and raises those of the
   uncovered columns by the smallest uncovered entry; with entries of A up to
   K and 2K within the int range none of its additions and subtractions
   leaves the range. *)
Lemma step6_potentials n A K matrix M RC CC L u v :
  square n matrix -> mask_values Int.in_range matrix ->
  shape n M RC CC -> search_inv n M RC CC L -> zero_marks matrix M ->
  (forall r c, (r < n)%nat -> (c < n)%nat -> 0 <= get A r c <= K) ->
  2 * K <= Int.max ->
  potentials n A (get matrix) M u v ->
  exists u' v', potentials n A (get (fst (step6 matrix RC CC))) M u' v'.
Proof.
  intros Hmx Hrange [HsM [HlR [HlC [HbR HbC]]]]
         [Hmatch [Hcov [Hpc [Hpu [HL [Hord [[r0 [Hr0 Hno0]] [c0 [Hc0 Hu0]]]]]]]]]
         Hzm HA HK Hpot.
  pose proof Hpot as [H1 [H2 [H3 H4]]].
  set (m := find_smallest Int.max matrix RC CC).
  destruct (find_smallest_spec n matrix RC CC Int.max Hmx) as [Hmle [Hmin Hatt]].
  fold m in Hmle, Hmin, Hatt.
  assert (Hm0 : 0 <= m).
  { destruct Hatt as [->|[r [c [Hr [Hc [_ ->]]]]]]; [unfold Int.max; lia|].
    apply H2; assumption. }
  assert (Hunm : forall r, (forall c, ~ star M r c) -> nth r RC 0 <> 1).
  { intros r Hno E. apply HL in E. destruct (ord_star M L r Hord E) as [c Hc].
    exact (Hno _ Hc). }
  set (dr := fun r => if nth r RC 0 =? 1 then m else 0).
  set (dc := fun c => if nth c CC 0 =? 0 then m else 0).
  set (E' := fun r c => get matrix r c + dr r - dc c).
  assert (Hpot' : potentials n A E' M (fun r => u r - dr r) (fun c => v c + dc c)).
  { split; [|split; [|split]].
    - intros r c Hr Hc. unfold E'. rewrite (H1 r c Hr Hc). lia.
    - intros r c Hr Hc. unfold E', dr, dc. pose proof (H2 r c Hr Hc) as Hpos.
      destruct (nth r RC 0 =? 1) eqn:ER, (nth c CC 0 =? 0) eqn:EC; try lia.
      apply Z.eqb_neq in ER. apply Z.eqb_eq in EC.
      assert (uncovered RC CC r c).
      { split; [|exact EC]. destruct (bin_nth RC r HbR); [assumption|contradiction]. }
      pose proof (Hmin r c Hr Hc H). lia.
    - intros c Hc. unfold dc. pose proof (H3 c Hc).
      destruct (nth c CC 0 =? 0); lia.
    - intros r Hr Hno. unfold dr. pose proof (H4 r Hr Hno).
      apply Hunm in Hno. apply Z.eqb_neq in Hno. rewrite Hno. lia. }
  assert (Hz' : forall r c, star M r c -> E' r c = 0).
  { intros r c Hst. unfold E', dr, dc.
    rewrite (Hzm r c (or_introl Hst)). pose proof (Hcov r c Hst) as Hc1.
    destruct (bin_nth RC r HbR) as [ER|ER], (bin_nth CC c HbC) as [EC|EC];
      rewrite ER, EC in *; simpl; lia. }
  pose proof (entries_bound n A K E' M _ _ r0 HsM Hpot' HA Hz' Hr0 Hno0) as Hbound.
  exists (fun r => u r - dr r), (fun c => v c + dc c).
  apply (potentials_ext n A E'); [|exact Hpot'].
  intros r c Hr Hc. rewrite (step6_get n) by assumption. fold m.
  assert (Hx : Int.in_range (get matrix r c)).
  { apply mask_values_get; [exact Hrange|].
    unfold Int.in_range, Int.min, Int.max. lia. }
  pose proof (Hbound r c Hr Hc) as Hub.
  destruct Hpot' as [_ [Hpos' _]]. pose proof (Hpos' r c Hr Hc) as Hlb.
  unfold adjust, E', dr, dc in *.
  destruct (nth r RC 0 =? 1), (nth c CC 0 =? 0).
  - rewrite add_sub_cancel by exact Hx. lia.
  - unfold Int.add. rewrite wrap_in_range; [lia|].
    unfold Int.in_range, Int.min, Int.max in *. lia.
  - unfold Int.sub. rewrite wrap_in_range; [lia|].
    unfold Int.in_range, Int.min, Int.max in *. lia.
  - lia.
Qed.

(** The entries stay within the int range. *)

Lemma step1_range matrix :
  mask_values Int.in_range matrix -> mask_values Int.in_range (fst (step1 matrix)).
Proof.
  intros H. unfold step1, mask_values in *. simpl.
  apply Forall_map. eapply Forall_impl; [|exact H].
  intros row Hrow. simpl. destruct (0 <? min_element row); [|exact Hrow].
  apply Forall_map. apply Forall_forall. intros x _. apply wrap_range.
Qed.

Lemma step6_range matrix RC CC :
  mask_values Int.in_range matrix ->
  mask_values Int.in_range (fst (step6 matrix RC CC)).
Proof.
  intros H. unfold step6. simpl.
  apply (nested_fold_inv (step6_cell RC CC (find_smallest Int.max matrix RC CC))
           (mask_values Int.in_range)); [exact H|].
  intros a r c _ _ Ha. unfold step6_cell.
  destruct (nth r RC 0 =? 1), (nth c CC 0 =? 0);
    repeat (apply mask_values_set; [|apply wrap_range]); exact Ha.
Qed.

(** The invariant on the entries *)

Lemma work_step_value n A K fuel s s' d :
  (0 < n)%nat ->
  (forall r c, (r < n)%nat -> (c < n)%nat -> 0 <= get A r c <= K) ->
  2 * K <= Int.max ->
  struct_inv n s -> value_inv n A s ->
  work_step fuel n n s = Ok (s', d) -> value_inv n A s'.
Proof.
  intros Hn HA HK [Hmx [Hsh [Hzm Hcase]]] [Hrange [u [v Hpot]]] H.
  destruct Hcase as [[Hst [HM0 [HR0 HC0]]]|[[Hst [Hmatch [Hnp [HR0 HC0]]]]|
                     [[Hst [L Hinv]]|[[Hst [L [r0 [c0 [Er [Ec Hinv]]]]]]|
                     [Hst [Hmatch Hall]]]]]].
  - destruct Hst as [E|E].
    + rewrite (work_step_1 _ _ _ _ E) in H. inversion H; subst; clear H.
      split; [apply step1_range; exact Hrange|]. simpl.
      destruct (step1_potentials n A _ _ u v Hn Hmx Hrange Hpot) as [u' Hpot'].
      exists u', v. exact Hpot'.
    + destruct (step2 (matrix s) (M s) (RowCover s) (ColCover s))
        as [[[M' RC'] CC'] st'] eqn:E2.
      rewrite (work_step_2 _ _ _ _ _ _ _ _ E E2) in H. inversion H; subst; clear H.
      split; [exact Hrange|]. simpl. exists u, v.
      apply (potentials_mask n A _ (M s)); [|exact Hpot].
      intros r [c Hc]. unfold star in Hc. rewrite HM0 in Hc. discriminate.
  - destruct (step3 (M s) (ColCover s)) as [CC' st'] eqn:E3.
    rewrite (work_step_3 _ _ _ _ _ _ Hst E3) in H. inversion H; subst; clear H.
    split; [exact Hrange|]. simpl. exists u, v. exact Hpot.
  - destruct Hst as [E|E].
    + rewrite (work_step_4 _ _ _ _ E) in H.
      destruct (step4 _ _ _ _ _ _ _) as [res|e] eqn:E4; [|discriminate].
      unfold step4 in E4.
      pose proof (step4_loop_spec n _ _ _ _ _ _ _ _ _ Hmx Hsh Hzm Hinv E4) as Hpost.
      destruct res as [[[[[M' RC'] CC'] r0'] c0'] st'].
      inversion H; subst; clear H. simpl in Hpost.
      destruct Hpost as [_ [_ [Hstar _]]].
      split; [exact Hrange|]. simpl. exists u, v.
      apply (potentials_mask n A _ (M s)); [|exact Hpot].
      intros r [c Hc]. exists c. apply Hstar. exact Hc.
    + rewrite (work_step_6 _ _ _ _ E) in H. inversion H; subst; clear H.
      split; [apply step6_range; exact Hrange|]. simpl.
      eapply step6_potentials; eassumption.
  - rewrite (work_step_5 _ _ _ _ Hst) in H.
    destruct (step5 _ _ _ _ _ _ _) as [[[[[p' M'] RC'] CC'] st']|e] eqn:E5;
      [|discriminate].
    inversion H; subst; clear H.
    rewrite Er, Ec in E5.
    destruct Hsh as [HsM _].
    destruct (step5_spec n _ _ _ _ _ _ _ _ _ _ _ _ _ HsM Hinv E5)
      as [[_ [_ [_ [Hrows _]]]] _].
    split; [exact Hrange|]. simpl. exists u, v.
    apply (potentials_mask n A _ (M s)); [|exact Hpot].
    intros r Hr. apply Hrows. left. exact Hr.
  - rewrite (work_step_7 _ _ _ _ Hst) in H. inversion H; subst; clear H.
    destruct Hsh as [HsM _].
    split; [exact Hrange|]. simpl. rewrite (resize_square n _ HsM).
    exists u, v. exact Hpot.
Qed.

(** ** Termination *)

Lemma starred_rows_exists n M : square n M -> exists S, starred_rows M S.
Proof.
  intros Hs. exists (filter (fun r => star_in_row (Z.of_nat r) M) (seq 0 n)).
  split; [apply NoDup_filter, seq_NoDup|].
  intros r. rewrite filter_In, (star_in_row_spec n M r Hs), in_seq. split.
  - intros [_ H]. exact H.
  - intros [c Hc]. split; [|exists c; exact Hc].
    destruct (star_range n M r c Hs Hc). lia.
Qed.

Lemma starred_rows_ext M M' S :
  (forall r, (exists c, star M r c) <-> (exists c, star M' r c)) ->
  starred_rows M S -> starred_rows M' S.
Proof.
  intros Hext [Hnd Hin]. split; [exact Hnd|].
  intros r. rewrite Hin. apply Hext.
Qed.

Lemma starred_rows_bound n M S :
  square n M -> starred_rows M S -> (length S <= n)%nat.
Proof.
  intros Hs [Hnd Hin]. rewrite <- (length_seq n 0).
  apply NoDup_incl_length; [exact Hnd|].
  intros r Hr. apply Hin in Hr. destruct Hr as [c Hc].
  apply in_seq. destruct (star_range n M r c Hs Hc). lia.
Qed.

Lemma starred_rows_lt n M S r0 :
  square n M -> starred_rows M S ->
  (r0 < n)%nat -> (forall c, ~ star M r0 c) -> (length S < n)%nat.
Proof.
  intros Hs [Hnd Hin] Hr0 Hno.
  assert (Hle : (length (r0 :: S) <= length (seq 0 n))%nat).
  { apply NoDup_incl_length.
    - constructor; [|exact Hnd]. intros H. apply Hin in H.
      destruct H as [c Hc]. exact (Hno _ Hc).
    - intros r [<-|Hr]; apply in_seq; [lia|].
      apply Hin in Hr. destruct Hr as [c Hc].
      destruct (star_range n M r c Hs Hc). lia. }
  rewrite length_seq in Hle. simpl in Hle. lia.
Qed.

Lemma aug_rows_bound n M L r0 c0 :
  square n M -> aug_inv M L r0 c0 -> (length L <= n)%nat.
Proof.
  intros Hs [_ [_ [Hord _]]]. rewrite <- (length_seq n 0).
  apply NoDup_incl_length; [apply (ord_NoDup M); exact Hord|].
  intros r Hr. destruct (ord_star M L r Hord Hr) as [c Hc].
  apply in_seq. destruct (star_range n M r c Hs Hc). lia.
Qed.

(* Step 6 turns the smallest uncovered entry into an uncovered zero. *)
Lemma step6_creates_zero n matrix M RC CC L :
  square n matrix -> mask_values Int.in_range matrix ->
  shape n M RC CC -> search_inv n M RC CC L ->
  exists r c, (r < n)%nat /\ (c < n)%nat /\
              uncovered_zero (fst (step6 matrix RC CC)) RC CC r c = true.
Proof.
  intros Hmx Hrange [HsM [HlR [HlC [HbR HbC]]]]
         [_ [_ [_ [_ [HL [Hord [[r0 [Hr0 Hno0]] [c0 [Hc0 Hu0]]]]]]]]].
  assert (HR0 : nth r0 RC 0 = 0).
  { destruct (bin_nth RC r0 HbR) as [E|E]; [exact E|].
    apply HL in E. destruct (ord_star M L r0 Hord E) as [c Hc].
    exfalso. exact (Hno0 _ Hc). }
  destruct (find_smallest_spec n matrix RC CC Int.max Hmx) as [Hmle [Hmin Hatt]].
  assert (Hcell : exists r c, (r < n)%nat /\ (c < n)%nat /\ uncovered RC CC r c /\
                              find_smallest Int.max matrix RC CC = get matrix r c).
  { destruct Hatt as [E|Hatt]; [|exact Hatt].
    exists r0, c0. split; [exact Hr0|]. split; [exact Hc0|].
    split; [split; assumption|].
    pose proof (Hmin r0 c0 Hr0 Hc0 (conj HR0 Hu0)) as Hle.
    assert (Hx : Int.in_range (get matrix r0 c0)).
    { apply mask_values_get; [exact Hrange|].
      unfold Int.in_range, Int.min, Int.max. lia. }
    unfold Int.in_range in Hx. lia. }
  destruct Hcell as [r [c [Hr [Hc [[HR HC] Hm]]]]].
  exists r, c. split; [exact Hr|]. split; [exact Hc|].
  unfold uncovered_zero. rewrite (step6_get n) by assumption.
  unfold adjust. rewrite HR, HC, Hm. simpl.
  unfold Int.sub. rewrite Z.sub_diag. reflexivity.
Qed.

Lemma base_pos n k : (3 <= base n k)%nat.
Proof. unfold base. apply Nat.le_add_l. Qed.

Lemma base_step n k : (k < n)%nat -> ((n - k) * W n = base n k + 2 * n + 2)%nat.
Proof.
  intros Hk. unfold base.
  replace (n - k)%nat with (S (n - k - 1)) by lia.
  rewrite Nat.mul_succ_l. unfold W at 2. lia.
Qed.

Lemma base_le n k : ((n - k) * W n <= n * W n)%nat.
Proof. apply Nat.mul_le_mono_r. lia. Qed.

Lemma run_inv_positive n B s : run_inv n B s -> (1 <= B)%nat.
Proof.
  intros [[_ [_ [_ Hcase]]] [_ [S [_ [B1 [B2 [B3 [B7 [B5 [B6 B4]]]]]]]]]].
  destruct Hcase as [[[E|E] _]|[[E _]|[[[E|E] _]|[[E _]|[E _]]]]].
  - specialize (B1 E). lia.
  - specialize (B2 E). lia.
  - specialize (B3 E). lia.
  - pose proof (base_pos n (length S)) as Hb.
    destruct (B4 E) as [_ [L [_ [H|[H _]]]]]; lia.
  - pose proof (base_pos n (length S)) as Hb. destruct (B6 E) as [_ [L [_ H]]]. lia.
  - pose proof (base_pos n (length S)) as Hb. destruct (B5 E) as [_ H]. lia.
  - specialize (B7 E). lia.
Qed.

Ltac budget_cases :=
  unfold budget_ok; simpl;
  repeat match goal with |- _ /\ _ => split end;
  intros Ebud; try discriminate Ebud.

(* Every turn of the loop uses up some of the budget, unless it overruns the
   path buffer or ends the loop. *)
Lemma work_step_progress n B fuel s :
  (0 < n)%nat -> run_inv n B s -> (n + 1 <= fuel)%nat ->
  work_step fuel n n s = Fail out_of_range \/
  exists s' d, work_step fuel n n s = Ok (s', d) /\
               (d = true \/ exists B', (B' < B)%nat /\ run_inv n B' s').
Proof.
  intros Hn Hinv Hfuel. pose proof (run_inv_positive n B s Hinv) as HB.
  destruct Hinv as [Hstruct [Hrange [S [HS Hbud]]]].
  pose proof Hstruct as [Hmx [Hsh [Hzm Hcase]]].
  destruct Hbud as [B1 [B2 [B3 [B7 [B5 [B6 B4]]]]]].
  assert (Hnext : forall s', work_step fuel n n s = Ok (s', false) ->
            mask_values Int.in_range (matrix s') ->
            (exists S', starred_rows (M s') S' /\ budget_ok n (B - 1) s' S') ->
            work_step fuel n n s = Fail out_of_range \/
            exists s' d, work_step fuel n n s = Ok (s', d) /\
                         (d = true \/ exists B', (B' < B)%nat /\ run_inv n B' s')).
  { intros s' Hws Hr' Hb'. right. exists s', false. split; [exact Hws|].
    right. exists (B - 1)%nat. split; [lia|].
    split; [exact (work_step_struct n fuel s s' false Hstruct Hws)|].
    split; assumption. }
  destruct Hcase as [[Hst [HM0 [HR0 HC0]]]|[[Hst [Hmatch [Hnp [HR0 HC0]]]]|
                     [[Hst _]|[[Hst [L [r0 [c0 [Er [Ec Hinv]]]]]]|
                     [Hst [Hmatch Hall]]]]]].
  - destruct Hst as [E|E].
    + (* step 1 *)
      apply (Hnext _ (work_step_1 _ _ _ _ E)); [apply step1_range; exact Hrange|].
      exists S. split; [exact HS|]. specialize (B1 E). budget_cases. lia.
    + (* step 2 *)
      destruct (step2 (matrix s) (M s) (RowCover s) (ColCover s))
        as [[[M' RC'] CC'] st'] eqn:E2.
      destruct (step2_spec n _ _ _ _ _ _ _ _ Hmx Hsh HM0 HR0 HC0 E2)
        as [-> [[HsM' _] _]].
      apply (Hnext _ (work_step_2 _ _ _ _ _ _ _ _ E E2)); [exact Hrange|].
      destruct (starred_rows_exists n M' HsM') as [S' HS'].
      exists S'. split; [exact HS'|]. specialize (B2 E).
      pose proof (base_le n (length S')). budget_cases. lia.
  - (* step 3 *)
    destruct (step3 (M s) (ColCover s)) as [CC' st'] eqn:E3.
    pose proof Hsh as [HsM [HlR [HlC [HbR HbC]]]].
    destruct (step3_spec n _ _ _ _ HsM HlC HC0 E3) as [Hl' [Hb' [Hiff Hres]]].
    specialize (B3 Hst).
    apply (Hnext _ (work_step_3 _ _ _ _ _ _ Hst E3)); [exact Hrange|].
    exists S. split; [exact HS|].
    destruct Hres as [[-> _]|[-> Hex]].
    + budget_cases. lia.
    + destruct (step3_search n (M s) (RowCover s) (ColCover s) CC'
                  Hsh Hmatch Hnp HR0 Hl' Hb' Hiff Hex) as [_ Hsearch].
      pose proof Hsearch as [_ [_ [_ [_ [_ [_ [[r0 [Hr0 Hno0]] _]]]]]]].
      pose proof (starred_rows_lt n (M s) S r0 HsM HS Hr0 Hno0) as Hlt.
      budget_cases. split; [exact Hlt|].
      exists []. split; [exact Hsearch|]. left.
      rewrite (base_step n (length S) Hlt) in B3. simpl. lia.
  - destruct Hst as [E|E].
    + (* step 4 *)
      destruct (B4 E) as [Hlt [L [Hinv Halt]]].
      destruct (step4_loop_total n (matrix s) fuel (M s) (RowCover s) (ColCover s) L
                  (path_row_0 s) (path_col_0 s) Hmx Hsh Hzm Hinv)
        as [res [Hres Hpost]]; [lia|].
      pose proof (work_step_4 fuel n n s E) as Hws.
      unfold step4 in Hws. rewrite Hres in Hws.
      destruct res as [[[[[M' RC'] CC'] r0'] c0'] st']. simpl in Hpost.
      destruct Hpost as [Hsh' [_ [Hstar Hcases]]].
      apply (Hnext _ Hws); [exact Hrange|].
      exists S. split.
      { apply (starred_rows_ext (M s)); [|exact HS].
        intros r. split; intros [c Hc]; exists c; apply Hstar; exact Hc. }
      destruct Hcases as [[-> [L' [HI [_ Hnz0]]]]|[-> _]].
      * budget_cases. split; [exact Hlt|].
        exists (L' ++ L). split; [exact HI|].
        pose proof (covered_rows_bound n _ _ _ _ Hsh' HI) as Hbound.
        rewrite length_app in *.
        destruct L' as [|x L'].
        -- simpl. destruct Halt as [H|[_ [r [c [Hr [Hc Hz]]]]]]; [lia|].
           rewrite (Hnz0 eq_refl r c Hr Hc) in Hz. discriminate.
        -- simpl in *. destruct Halt as [H|[H _]]; lia.
      * budget_cases. split; [exact Hlt|]. destruct Halt as [H|[H _]]; lia.
    + (* step 6 *)
      destruct (B6 E) as [Hlt [L [Hinv Hb]]].
      apply (Hnext _ (work_step_6 _ _ _ _ E)); [apply step6_range; exact Hrange|].
      exists S. split; [exact HS|].
      budget_cases. split; [exact Hlt|].
      exists L. split; [exact Hinv|]. right. split; [lia|].
      eapply step6_creates_zero; eassumption.
  - (* step 5 *)
    destruct (B5 Hst) as [Hlt Hb].
    pose proof Hsh as [HsM [HlR [HlC [HbR HbC]]]].
    pose proof (aug_rows_bound n _ _ _ _ HsM Hinv) as HL.
    pose proof (work_step_5 fuel n n s Hst) as Hws. rewrite Er, Ec in Hws.
    destruct (step5_total n (M s) (RowCover s) (ColCover s) L r0 c0 fuel (path s)
                HsM Hinv) as [Hf|[path' [M' [Hok Hpost]]]]; [lia| |].
    + left. rewrite Hws, Hf. reflexivity.
    + rewrite Hok in Hws.
      apply (Hnext _ Hws); [exact Hrange|].
      destruct Hpost as [_ [_ [_ [Hrows _]]]].
      destruct Hinv as [_ [_ [_ [_ [Hno _]]]]].
      destruct HS as [HndS HinS].
      exists (r0 :: S). split.
      * split.
        -- constructor; [|exact HndS]. intros H. apply HinS in H.
           destruct H as [c Hc]. exact (Hno _ Hc).
        -- intros r. simpl. rewrite Hrows, HinS. split; intros [H|H]; auto.
      * budget_cases. simpl.
        replace (n - Datatypes.S (length S))%nat with (n - length S - 1)%nat by lia.
        unfold base in Hb. lia.
  - (* step 7 *)
    right. eexists. exists true. split; [apply (work_step_7 _ _ _ _ Hst)|].
    left. reflexivity.
Qed.

(* The loop ends, in a final state or on the path buffer. *)
Lemma work_terminates n : forall fuel B s,
  (0 < n)%nat -> run_inv n B s -> (B + n + 1 <= fuel)%nat ->
  work fuel n n s = Fail out_of_range \/ exists s', work fuel n n s = Ok s'.
Proof.
  induction fuel as [|fuel IH]; intros B s Hn Hinv Hfuel.
  - pose proof (run_inv_positive n B s Hinv). lia.
  - pose proof (run_inv_positive n B s Hinv) as HB. simpl.
    destruct (work_step_progress n B fuel s Hn Hinv) as [Hf|[s' [d [Hok Hd]]]]; [lia| |].
    + left. rewrite Hf. reflexivity.
    + rewrite Hok. simpl. destruct Hd as [->|[B' [HB' Hinv']]].
      * right. exists s'. reflexivity.
      * destruct d; [right; exists s'; reflexivity|].
        apply (IH B' s' Hn Hinv'). lia.
Qed.

Lemma init_run_inv n m :
  square n m -> mask_values Int.in_range m ->
  run_inv n (n * W n + 4) (init_state m).
Proof.
  intros Hs Hr. split; [apply init_struct; exact Hs|]. split; [exact Hr|].
  exists []. split.
  - split; [constructor|]. intros r. simpl. split; [tauto|].
    intros [c Hc]. unfold star in Hc. rewrite (square_length _ _ Hs) in Hc.
    rewrite get_repeat in Hc. discriminate.
  - budget_cases. lia.
Qed.

(** ** The shift of handle_negatives *)

Lemma matrix_min_from_le m : forall a row x,
  In row m -> In x row ->
  fold_left (fun minval elem => fold_left Z.min elem minval) m a <= x.
Proof.
  induction m as [|h t IH]; intros a row x Hrow Hx; [destruct Hrow|].
  simpl. destruct Hrow as [->|Hrow].
  - assert (Hmono : forall l b, fold_left (fun minval elem => fold_left Z.min elem minval) l b <= b).
    { clear. induction l as [|h l IH]; intros b; simpl; [lia|].
      transitivity (fold_left Z.min h b); [apply IH|].
      apply fold_min_le. left. reflexivity. }
    transitivity (fold_left Z.min row a); [apply Hmono|].
    apply fold_min_le. right. exact Hx.
  - eapply IH; eassumption.
Qed.

Lemma matrix_min_from_attained m : forall a,
  let res := fold_left (fun minval elem => fold_left Z.min elem minval) m a in
  res = a \/ exists row x, In row m /\ In x row /\ res = x.
Proof.
  induction m as [|h t IH]; intros a; simpl; [left; reflexivity|].
  destruct (IH (fold_left Z.min h a)) as [E|[row [x [Hr [Hx E]]]]].
  - rewrite E. destruct (fold_min_in h a) as [E'|Hin]; [left; exact E'|].
    right. exists h, (fold_left Z.min h a). auto.
  - right. exists row, x. auto.
Qed.

Lemma get_in n m r c : square n m -> (r < n)%nat -> (c < n)%nat ->
  exists row, In row m /\ In (get m r c) row.
Proof.
  intros Hs Hr Hc. exists (nth r m []). split.
  - apply nth_In. rewrite (square_length _ _ Hs). exact Hr.
  - apply (get_in_row n); assumption.
Qed.

Lemma in_get n m row x : square n m -> In row m -> In x row ->
  exists r c, (r < n)%nat /\ (c < n)%nat /\ get m r c = x.
Proof.
  intros Hs Hrow Hx.
  destruct (In_nth _ _ [] Hrow) as [r [Hr Er]].
  subst row. rewrite (square_length _ _ Hs) in Hr.
  destruct (In_nth _ _ 0 Hx) as [c [Hc Ec]].
  rewrite (square_row _ _ _ Hs Hr) in Hc.
  exists r, c. auto.
Qed.

Lemma square_values n (P : Z -> Prop) m :
  square n m -> (forall r c, (r < n)%nat -> (c < n)%nat -> P (get m r c)) ->
  mask_values P m.
Proof.
  intros Hs HP. apply Forall_forall. intros row Hrow.
  apply Forall_forall. intros x Hx.
  destruct (in_get n m row x Hs Hrow Hx) as [r [c [Hr [Hc <-]]]].
  apply HP; assumption.
Qed.

(* With entries between -Bd and Bd and 2 Bd within the int range, the shift
   is exact and leaves entries between 0 and 2 Bd. *)
Lemma handle_negatives_shift n original Bd :
  (0 < n)%nat -> square n original ->
  (forall r c, (r < n)%nat -> (c < n)%nat -> - Bd <= get original r c <= Bd) ->
  2 * Bd <= Int.max ->
  exists A shift,
    handle_negatives original true = (A, None) /\ square n A /\
    mask_values Int.in_range A /\
    forall r c, (r < n)%nat -> (c < n)%nat ->
      get A r c = get original r c + shift /\ 0 <= get A r c <= 2 * Bd.
Proof.
  intros Hn Hs Hb HB.
  assert (HBd : 0 <= Bd) by (pose proof (Hb O O Hn Hn); lia).
  assert (Hle : forall r c, (r < n)%nat -> (c < n)%nat ->
                matrix_min original <= get original r c).
  { intros r c Hr Hc. destruct (get_in n original r c Hs Hr Hc) as [row [H1 H2]].
    unfold matrix_min. eapply matrix_min_from_le; eassumption. }
  unfold handle_negatives.
  destruct (matrix_min original <? 0) eqn:E; cbn [negb].
  - apply Z.ltb_lt in E.
    assert (Hlow : - Bd <= matrix_min original).
    { destruct (matrix_min_from_attained original Int.max) as [E'|[row [x [Hr [Hx E']]]]].
      - fold (matrix_min original) in E'. unfold Int.max in E'. lia.
      - fold (matrix_min original) in E'.
        destruct (in_get n original row x Hs Hr Hx) as [r [c [Hr' [Hc' Eg]]]].
        pose proof (Hb r c Hr' Hc'). lia. }
    assert (Habs : Int.abs (matrix_min original) = - matrix_min original).
    { unfold Int.abs. rewrite wrap_in_range.
      - lia.
      - unfold Int.in_range, Int.min, Int.max in *. lia. }
    rewrite Habs.
    assert (Hget : forall r c, (r < n)%nat -> (c < n)%nat ->
              get (map (map (fun num => Int.add num (- matrix_min original))) original) r c
              = get original r c + - matrix_min original).
    { intros r c Hr Hc. rewrite get_map_map
        by (rewrite ?(square_length _ _ Hs), ?(square_row _ _ _ Hs Hr); assumption).
      unfold Int.add. apply wrap_in_range.
      pose proof (Hb r c Hr Hc). pose proof (Hle r c Hr Hc).
      unfold Int.in_range, Int.min, Int.max in *. lia. }
    eexists. exists (- matrix_min original).
    split; [reflexivity|]. split; [apply square_map_map; exact Hs|].
    split.
    + apply (square_values n); [apply square_map_map; exact Hs|].
      intros r c Hr Hc. rewrite Hget by assumption.
      pose proof (Hb r c Hr Hc). pose proof (Hle r c Hr Hc).
      unfold Int.in_range, Int.min, Int.max in *. lia.
    + intros r c Hr Hc. rewrite Hget by assumption.
      pose proof (Hb r c Hr Hc). pose proof (Hle r c Hr Hc). lia.
  - apply Z.ltb_ge in E. exists original, 0.
    split; [reflexivity|]. split; [exact Hs|]. split.
    + apply (square_values n); [exact Hs|].
      intros r c Hr Hc. pose proof (Hb r c Hr Hc).
      unfold Int.in_range, Int.min, Int.max in *. lia.
    + intros r c Hr Hc. pose proof (Hb r c Hr Hc). pose proof (Hle r c Hr Hc). lia.
Qed.

(** ** Sums *)

Lemma sumZ_app l1 l2 : sumZ (l1 ++ l2) = sumZ l1 + sumZ l2.
Proof. induction l1 as [|x l1 IH]; simpl; [reflexivity|]. rewrite IH. lia. Qed.

Lemma sumZ_perm l1 l2 : Permutation l1 l2 -> sumZ l1 = sumZ l2.
Proof. induction 1; simpl; lia. Qed.

Lemma sumZ_map_le {A} (f g : A -> Z) l :
  (forall x, In x l -> f x <= g x) -> sumZ (map f l) <= sumZ (map g l).
Proof.
  induction l as [|x l IH]; intros H; simpl; [lia|].
  pose proof (H x (or_introl eq_refl)).
  assert (sumZ (map f l) <= sumZ (map g l)) by (apply IH; intros y Hy; apply H; right; exact Hy).
  lia.
Qed.

Lemma sumZ_map_eq {A} (f g : A -> Z) l :
  (forall x, In x l -> f x = g x) -> sumZ (map f l) = sumZ (map g l).
Proof.
  intros H. f_equal. apply map_ext_in. exact H.
Qed.

Lemma sumZ_map_add {A} (f g : A -> Z) l :
  sumZ (map (fun x => f x + g x) l) = sumZ (map f l) + sumZ (map g l).
Proof. induction l as [|x l IH]; simpl; [reflexivity|]. rewrite IH. lia. Qed.

Lemma sumZ_map_bound {A} (f : A -> Z) b l :
  (forall x, In x l -> - b <= f x <= b) ->
  - (Z.of_nat (length l) * b) <= sumZ (map f l) <= Z.of_nat (length l) * b.
Proof.
  induction l as [|x l IH]; intros H; [simpl; lia|].
  pose proof (H x (or_introl eq_refl)).
  assert (- (Z.of_nat (length l) * b) <= sumZ (map f l) <= Z.of_nat (length l) * b)
    by (apply IH; intros y Hy; apply H; right; exact Hy).
  change (length (x :: l)) with (S (length l)). rewrite Nat2Z.inj_succ.
  simpl sumZ. lia.
Qed.

Lemma map_nth_seq (l : list nat) :
  map (fun i => nth i l O) (seq 0 (length l)) = l.
Proof.
  induction l as [|x l IH]; [reflexivity|].
  simpl. f_equal. rewrite <- seq_shift, map_map. exact IH.
Qed.

(** ** The cost of a complete matching on zeros *)

Lemma filter_single_eq {A} (f : A -> bool) (a : A) l :
  NoDup l -> In a l -> (forall x, In x l -> (f x = true <-> x = a)) ->
  filter f l = [a].
Proof.
  induction l as [|x l IH]; intros Hnd Hin Hf; [destruct Hin|].
  inversion Hnd as [|? ? Hnx Hnd']; subst. simpl.
  destruct (f x) eqn:E.
  - assert (x = a) by (apply Hf; [left; reflexivity|exact E]). subst x.
    f_equal.
    assert (Hnone : forall y, In y l -> f y = false).
    { intros y Hy. destruct (f y) eqn:Ey; [|reflexivity].
      assert (y = a) by (apply Hf; [right; exact Hy|exact Ey]). subst. contradiction. }
    clear -Hnone. induction l as [|y l IH]; [reflexivity|]. simpl.
    rewrite (Hnone y (or_introl eq_refl)). apply IH.
    intros z Hz. apply Hnone. right. exact Hz.
  - destruct Hin as [->|Hin].
    + assert (f a = true) by (apply Hf; [left; reflexivity|reflexivity]). congruence.
    + apply IH; [exact Hnd'|exact Hin|].
      intros y Hy. apply Hf. right. exact Hy.
Qed.

Lemma filter_map_comm {A B} (f : B -> bool) (g : A -> B) l :
  filter f (map g l) = map g (filter (fun x => f (g x)) l).
Proof.
  induction l as [|x l IH]; simpl; [reflexivity|].
  destruct (f (g x)); simpl; rewrite IH; reflexivity.
Qed.

Section Complete.

Variable n : nat.
Variable M : matrix_t.
Hypothesis HsM : square n M.
Hypothesis Hmatch : matching M.
Hypothesis Hall : forall c, (c < n)%nat -> exists r, star M r c.

Lemma star_col_spec r : (r < n)%nat -> star M r (star_col M r) /\ (star_col M r < n)%nat.
Proof.
  intros Hr. unfold star_col.
  destruct (find_star_in_row_spec n M r HsM) as [[_ Hno]|[c [Hc [Hst ->]]]].
  - destruct (matched_rows n M HsM Hmatch Hall r Hr) as [c Hc].
    exfalso. exact (Hno _ Hc).
  - rewrite Nat2Z.id. auto.
Qed.

Lemma star_row_spec c : (c < n)%nat -> star M (star_row M c) c /\ (star_row M c < n)%nat.
Proof.
  intros Hc. unfold star_row.
  destruct (find_star_in_col_spec n M c HsM) as [[_ Hno]|[r [Hr [Hst ->]]]].
  - destruct (Hall c Hc) as [r Hr]. exfalso. exact (Hno _ Hr).
  - rewrite Nat2Z.id. auto.
Qed.

Lemma assignment_nth r : (r < n)%nat -> nth r (assignment n M) O = star_col M r.
Proof.
  intros Hr. unfold assignment.
  rewrite (nth_indep _ O (star_col M O)) by (rewrite length_map, length_seq; exact Hr).
  rewrite map_nth, seq_nth by exact Hr. reflexivity.
Qed.

Lemma assignment_permutation : Permutation (seq 0 n) (assignment n M).
Proof.
  destruct Hmatch as [Hrow Hcol].
  apply NoDup_Permutation.
  - apply seq_NoDup.
  - unfold assignment. apply NoDup_map_NoDup_ForallPairs; [|apply seq_NoDup].
    intros x y Hx Hy E. apply in_seq in Hx, Hy.
    destruct (star_col_spec x) as [H1 _]; [lia|].
    destruct (star_col_spec y) as [H2 _]; [lia|].
    rewrite E in H1. eapply Hcol; eassumption.
  - intros c. unfold assignment. rewrite in_map_iff, in_seq. split.
    + intros [_ Hc]. destruct (star_row_spec c) as [Hst Hr]; [lia|].
      exists (star_row M c). split; [|apply in_seq; lia].
      destruct (star_col_spec (star_row M c) Hr) as [Hst' _].
      eapply Hrow; eassumption.
    + intros [r [<- Hr]]. apply in_seq in Hr.
      destruct (star_col_spec r) as [_ H]; lia.
Qed.

Lemma starred_cells_complete :
  starred_cells n n M = map (fun c => (star_row M c, c)) (seq 0 n).
Proof.
  destruct Hmatch as [Hrow Hcol]. unfold starred_cells.
  assert (Hl : forall l, (forall c, In c l -> (c < n)%nat) ->
            filter (fun rc => get M (fst rc) (snd rc) =? 1)
                   (flat_map (fun j => map (fun i => (i, j)) (seq 0 n)) l)
            = map (fun c => (star_row M c, c)) l).
  { induction l as [|j l IH]; intros Hlt; [reflexivity|].
    simpl. rewrite filter_app, IH by (intros c Hc; apply Hlt; right; exact Hc).
    rewrite filter_map_comm. simpl.
    destruct (star_row_spec j (Hlt j (or_introl eq_refl))) as [Hst Hr].
    rewrite (filter_single_eq _ (star_row M j)); [reflexivity|apply seq_NoDup| |].
    - apply in_seq. lia.
    - intros r _. rewrite Z.eqb_eq. split; [|intros ->; exact Hst].
      intros H. eapply Hcol; eassumption. }
  apply Hl. intros c Hc. apply in_seq in Hc. lia.
Qed.

(* The sum over the starred cells, by columns and by rows. *)
Lemma starred_cells_by_rows (g : nat * nat -> Z) :
  sumZ (map g (starred_cells n n M)) =
  sumZ (map (fun r => g (r, star_col M r)) (seq 0 n)).
Proof.
  destruct Hmatch as [Hrow Hcol].
  rewrite starred_cells_complete.
  rewrite <- (map_map (fun r => (r, star_col M r)) g).
  apply sumZ_perm, Permutation_map, NoDup_Permutation.
  - apply NoDup_map_NoDup_ForallPairs; [|apply seq_NoDup].
    intros x y _ _ E. inversion E. reflexivity.
  - apply NoDup_map_NoDup_ForallPairs; [|apply seq_NoDup].
    intros x y _ _ E. inversion E. reflexivity.
  - intros [r c]. rewrite !in_map_iff. split.
    + intros [j [E Hj]]. inversion E; subst. apply in_seq in Hj.
      destruct (star_row_spec c) as [Hst Hr]; [lia|].
      exists (star_row M c). split; [|apply in_seq; lia].
      f_equal. destruct (star_col_spec (star_row M c) Hr) as [Hst' _].
      eapply Hrow; eassumption.
    + intros [i [E Hi]]. inversion E; subst. apply in_seq in Hi.
      destruct (star_col_spec r) as [Hst Hc]; [lia|].
      exists (star_col M r). split; [|apply in_seq; lia].
      f_equal. destruct (star_row_spec (star_col M r) Hc) as [Hst' _].
      eapply Hcol; eassumption.
Qed.

Lemma assignment_cost_rows original :
  assignment_cost original (assignment n M) =
  sumZ (map (fun r => get original r (star_col M r)) (seq 0 n)).
Proof.
  unfold assignment_cost.
  replace (length (assignment n M)) with n
    by (unfold assignment; rewrite length_map, length_seq; reflexivity).
  apply sumZ_map_eq. intros r Hr. apply in_seq in Hr.
  rewrite assignment_nth by lia. reflexivity.
Qed.

(* A complete matching on zeros of a matrix that differs from the original
   by potentials and a constant is a cheapest (assignment n M). *)
Lemma complete_matching_optimal original A shift matrix u v :
  length original = n -> length (hd [] original) = n ->
  zero_marks matrix M ->
  potentials n A (get matrix) M u v ->
  (forall r c, (r < n)%nat -> (c < n)%nat -> get A r c = get original r c + shift) ->
  starred_sum original M = assignment_cost original (assignment n M) /\
  is_min_assignment n original (starred_sum original M).
Proof.
  intros Hlen Hhd Hzm [H1 [H2 [H3 H4]]] HA.
  assert (Hsum : starred_sum original M = assignment_cost original (assignment n M)).
  { unfold starred_sum. rewrite Hlen, Hhd.
    rewrite (starred_cells_by_rows (fun rc => get original (fst rc) (snd rc))).
    rewrite assignment_cost_rows. reflexivity. }
  split; [exact Hsum|]. rewrite Hsum. split.
  - exists (assignment n M). split; [apply assignment_permutation|reflexivity].
  - intros sigma Hp.
    pose proof (Permutation_length Hp) as Hls. rewrite length_seq in Hls.
    assert (Hlt : forall i, (i < n)%nat -> (nth i sigma O < n)%nat).
    { intros i Hi.
      assert (In (nth i sigma O) (seq 0 n)).
      { apply (Permutation_in _ (Permutation_sym Hp)). apply nth_In. lia. }
      apply in_seq in H. lia. }
    set (lb := fun (sg : list nat) i => (u i - shift) + v (nth i sg O)).
    assert (Hlb : forall sg, Permutation (seq 0 n) sg ->
              sumZ (map (lb sg) (seq 0 n)) =
              sumZ (map (fun i => u i - shift) (seq 0 n)) + sumZ (map v (seq 0 n))).
    { intros sg Hsg. unfold lb. rewrite sumZ_map_add. f_equal.
      rewrite <- (map_map (fun i => nth i sg O) v).
      pose proof (Permutation_length Hsg) as Hl. rewrite length_seq in Hl.
      assert (Hm : map (fun i => nth i sg O) (seq 0 n) = sg).
      { rewrite Hl. apply map_nth_seq. }
      rewrite Hm.
      apply sumZ_perm, Permutation_map, Permutation_sym. exact Hsg. }
    assert (Hstar : assignment_cost original (assignment n M)
                    = sumZ (map (lb (assignment n M)) (seq 0 n))).
    { rewrite assignment_cost_rows. apply sumZ_map_eq.
      intros r Hr. apply in_seq in Hr. unfold lb.
      rewrite assignment_nth by lia.
      destruct (star_col_spec r) as [Hst Hc]; [lia|].
      pose proof (HA r (star_col M r) ltac:(lia) Hc) as Ha.
      pose proof (H1 r (star_col M r) ltac:(lia) Hc) as He.
      rewrite (Hzm _ _ (or_introl Hst)) in He. lia. }
    rewrite Hstar, (Hlb (assignment n M) assignment_permutation), <- (Hlb sigma Hp).
    unfold assignment_cost. rewrite <- Hls.
    apply sumZ_map_le. intros i Hi. apply in_seq in Hi. unfold lb.
    pose proof (Hlt i ltac:(lia)) as Hc.
    pose proof (HA i (nth i sigma O) ltac:(lia) Hc) as Ha.
    pose proof (H1 i (nth i sigma O) ltac:(lia) Hc) as He.
    pose proof (H2 i (nth i sigma O) ltac:(lia) Hc) as Hpos. lia.
Qed.

End Complete.

(** ** The run on a square matrix *)

Lemma hungarian_run_square n original allow fuel A :
  (0 < n)%nat -> square n original ->
  handle_negatives original allow = (A, None) ->
  hungarian_run fuel original allow = work fuel n n (init_state A).
Proof.
  intros Hn Hs Hh. unfold hungarian_run.
  destruct original as [|row0 rest] eqn:Eo.
  { destruct Hs as [Hl _]. simpl in Hl. lia. }
  rewrite <- Eo in *.
  rewrite (copy_original_rectangular _ (square_rectangular n _ Hn Hs)), Hh.
  pose proof (handle_negatives_square _ _ _ _ Hs Hh) as HA.
  rewrite (pad_matrix_square n A Hn HA), (square_length _ _ Hs).
  assert (Hc : length (hd [] original) = n).
  { pose proof (square_row n original 0 Hs Hn) as Hr. rewrite Eo in *. exact Hr. }
  rewrite Hc. reflexivity.
Qed.

Lemma init_value n A :
  square n A -> mask_values Int.in_range A ->
  (forall r c, (r < n)%nat -> (c < n)%nat -> 0 <= get A r c) ->
  value_inv n A (init_state A).
Proof.
  intros Hs Hr Hpos. split; [exact Hr|].
  exists (fun _ => 0), (fun _ => 0). simpl.
  split; [|split; [|split]]; intros; try lia. apply Hpos; assumption.
Qed.

Lemma work_final_value n A K fuel s :
  (0 < n)%nat -> square n A -> mask_values Int.in_range A ->
  (forall r c, (r < n)%nat -> (c < n)%nat -> 0 <= get A r c <= K) ->
  2 * K <= Int.max ->
  work fuel n n (init_state A) = Ok s ->
  struct_inv n s /\ value_inv n A s.
Proof.
  intros Hn Hs Hr HA HK H.
  apply (work_inv (fun s => struct_inv n s /\ value_inv n A s) n n)
    with (fuel := fuel) (s := init_state A).
  - intros f s0 s1 d [H1 H2] Hstep. split.
    + eapply work_step_struct; eassumption.
    + eapply work_step_value; eassumption.
  - split; [apply init_struct; exact Hs|].
    apply init_value; [exact Hs|exact Hr|].
    intros r c Hr' Hc'. apply HA; assumption.
  - exact H.
Qed.

(** ** Every run on a square matrix ends *)

Lemma handle_negatives_range m A :
  mask_values Int.in_range m -> handle_negatives m true = (A, None) ->
  mask_values Int.in_range A.
Proof.
  intros Hr H. unfold handle_negatives in H.
  destruct (matrix_min m <? 0); [|inversion H; subst; exact Hr].
  cbn [negb] in H. inversion H; subst.
  unfold mask_values. apply Forall_map, Forall_forall. intros row _.
  apply Forall_map, Forall_forall. intros x _. apply wrap_range.
Qed.

(* Whatever the values, wrapped or not: the loop on a square matrix of ints
   ends in step 7, unless step 5 leaves its path buffer. *)
Lemma square_run_ends n original :
  (0 < n)%nat -> square n original -> mask_values Int.in_range original ->
  exists fuel,
    hungarian_run fuel original true = Fail out_of_range \/
    exists s, hungarian_run fuel original true = Ok s /\ step s = 7.
Proof.
  intros Hn Hs Hr.
  destruct (handle_negatives original true) as [A [e|]] eqn:Hh.
  { unfold handle_negatives in Hh.
    destruct (matrix_min original <? 0); discriminate. }
  pose proof (handle_negatives_square _ _ _ _ Hs Hh) as HsA.
  pose proof (handle_negatives_range _ _ Hr Hh) as HrA.
  exists (n * W n + 4 + n + 1)%nat.
  rewrite (hungarian_run_square n original true _ A Hn Hs Hh).
  destruct (work_terminates n (n * W n + 4 + n + 1) (n * W n + 4) (init_state A) Hn
              (init_run_inv n A HsA HrA)) as [Hf|[s Hok]]; [lia| |].
  - left. exact Hf.
  - right. exists s. split; [exact Hok|].
    apply (work_final_values _ _ _ _ _ Hok).
Qed.

(** ** Inputs without columns *)

Lemma step2_cell_cover_inv n matrix st r c :
  (r < n)%nat -> (c < n)%nat ->
  step2_cover_inv n matrix st -> step2_cover_inv n matrix (step2_cell matrix r st c).
Proof.
  intros Hr Hc. destruct st as [[M RC] CC]. intros [Hinv [HR HC]].
  pose proof (step2_cell_inv n matrix (M, RC, CC) r c Hr Hc Hinv) as Hinv'.
  unfold step2_cell in *.
  destruct (get matrix r c =? 0); [|split; auto].
  destruct (nth r RC 0 =? 0) eqn:Er; [|split; auto].
  destruct (nth c CC 0 =? 0) eqn:Ec; [|split; auto].
  simpl in *. split; [exact Hinv'|].
  destruct Hinv as [[HsM [HlR [HlC _]]] [_ [Hcov _]]].
  assert (Hnew : star (set M r c 1) r c).
  { unfold star. apply (get_set_eq n); assumption. }
  assert (Hold : forall x y, star M x y -> star (set M r c 1) x y).
  { intros x y H. apply (star_set n); try assumption.
    right. split; [|exact H]. intros E. inversion E; subst.
    apply Hcov in H. apply Z.eqb_eq in Er. lia. }
  split.
  - intros x. rewrite nth_upd by lia.
    destruct (Nat.eqb_spec r x) as [<-|Hne]; [intros _; exists c; exact Hnew|].
    intros H. destruct (HR x H) as [y Hy]. exists y. apply Hold. exact Hy.
  - intros y. rewrite nth_upd by lia.
    destruct (Nat.eqb_spec c y) as [<-|Hne]; [intros _; exists r; exact Hnew|].
    intros H. destruct (HC y H) as [x Hx]. exists x. apply Hold. exact Hx.
Qed.

Lemma step2_maximal n matrix M RC CC M' RC' CC' st' :
  square n matrix -> shape n M RC CC ->
  (forall r c, get M r c = 0) -> all_zero RC -> all_zero CC ->
  step2 matrix M RC CC = (M', RC', CC', st') ->
  forall r c, (r < n)%nat -> (c < n)%nat -> get matrix r c = 0 ->
    (exists c', star M' r c') \/ (exists r', star M' r' c).
Proof.
  intros Hmx Hsh HM0 HR0 HC0 H r c Hr Hc Hz. unfold step2 in H.
  rewrite (square_length _ _ Hmx) in H.
  set (res := fold_left _ _ _) in H.
  assert (Hinit : step2_cover_inv n matrix (M, RC, CC)).
  { split; [|split].
    - simpl. split; [exact Hsh|]. unfold matching, star.
      split; [split; intros ? ? ? H1 _; rewrite HM0 in H1; discriminate|].
      split; intros x y Hst; rewrite HM0 in Hst; discriminate.
    - intros x Hx. rewrite (all_zero_nth _ _ HR0) in Hx. discriminate.
    - intros x Hx. rewrite (all_zero_nth _ _ HC0) in Hx. discriminate. }
  assert (HQ : nth r (snd (fst res)) 0 = 1 \/ nth c (snd res) 0 = 1).
  { subst res.
    apply (nested_fold_reach (step2_cell matrix) (step2_cover_inv n matrix)
             (fun st => nth r (snd (fst st)) 0 = 1 \/ nth c (snd st) 0 = 1)
             (seq 0 n) (seq 0 n) r c);
      try (apply in_seq; lia).
    - intros a r' c' Hr' Hc'. apply in_seq in Hr', Hc'.
      apply step2_cell_cover_inv; lia.
    - intros [[Ma RCa] CCa] [[[_ [HlR [HlC [HbR HbC]]]] _] _].
      unfold step2_cell. rewrite Hz. simpl.
      destruct (bin_nth RCa r HbR) as [ER|ER]; [|rewrite ER; simpl; auto].
      destruct (bin_nth CCa c HbC) as [EC|EC];
        [|rewrite EC, andb_false_r; simpl; auto].
      rewrite ER, EC. simpl. left. apply nth_upd_eq. lia.
    - intros [[Ma RCa] CCa] r' c' Hr' Hc' [[[_ [HlR [HlC _]]] _] _] HQ.
      apply in_seq in Hr', Hc'. unfold step2_cell.
      destruct (get matrix r' c' =? 0); [|exact HQ].
      destruct (_ && _); [|exact HQ]. simpl in *.
      rewrite !nth_upd by lia.
      destruct (Nat.eqb r' r), (Nat.eqb c' c); tauto.
    - exact Hinit. }
  assert (Hfinal : step2_cover_inv n matrix res).
  { subst res.
    apply (nested_fold_inv (step2_cell matrix) (step2_cover_inv n matrix));
      [exact Hinit|].
    intros a r' c' Hr' Hc'. apply in_seq in Hr', Hc'.
    apply step2_cell_cover_inv; lia. }
  destruct res as [[M1 RC1] CC1]. inversion H; subst; clear H.
  destruct Hfinal as [_ [HR HC]]. simpl in HQ.
  destruct HQ as [E|E]; [left; apply HR|right; apply HC]; exact E.
Qed.

(* On a matrix of zeros step 2 stars a zero in every column. *)
Lemma step2_zero_matrix n matrix M RC CC M' RC' CC' st' :
  square n matrix -> shape n M RC CC ->
  (forall r c, get M r c = 0) -> all_zero RC -> all_zero CC ->
  (forall r c, (r < n)%nat -> (c < n)%nat -> get matrix r c = 0) ->
  step2 matrix M RC CC = (M', RC', CC', st') ->
  forall c, (c < n)%nat -> exists r, star M' r c.
Proof.
  intros Hmx Hsh HM0 HR0 HC0 Hzero H c Hc.
  destruct (step2_spec n _ _ _ _ _ _ _ _ Hmx Hsh HM0 HR0 HC0 H)
    as [_ [[HsM' _] [Hmatch _]]].
  destruct (find_star_in_col_spec n M' c HsM') as [[_ Hno]|[r [_ [Hst _]]]];
    [|exists r; exact Hst].
  destruct (pigeonhole n (fun r c => star M' r c)) with (y := c) as [r [_ Hst]].
  - intros r Hr.
    destruct (step2_maximal n _ _ _ _ _ _ _ _ Hmx Hsh HM0 HR0 HC0 H r c Hr Hc
                (Hzero r c Hr Hc)) as [[c' Hc']|[r' Hr']].
    + exists c'. split; [apply (star_range n M' r c' HsM' Hc')|exact Hc'].
    + exfalso. exact (Hno _ Hr').
  - intros x x' y. apply Hmatch.
  - exact Hc.
  - exists r. exact Hst.
Qed.

Lemma work_S fuel rows cols s :
  work (S fuel) rows cols s =
  (sd <- work_step fuel rows cols s ;;
   let '(s', d) := sd in if d then Ok s' else work fuel rows cols s').
Proof. reflexivity. Qed.

Lemma length_resize {A} n (v : A) l : length (resize n v l) = n.
Proof.
  unfold resize. rewrite length_app, length_firstn, repeat_length. lia.
Qed.

Lemma resize_nil n (v : Z) : resize n v [] = repeat v n.
Proof. unfold resize. rewrite firstn_nil, Nat.sub_0_r. reflexivity. Qed.

Lemma min_element_repeat v k : (0 < k)%nat -> min_element (repeat v k) = v.
Proof.
  intros Hk.
  assert (Hne : repeat v k <> []) by (destruct k; [lia|discriminate]).
  pose proof (min_element_in _ Hne) as Hin. apply repeat_spec in Hin. exact Hin.
Qed.

(* The run on an input that has rows but no columns: the padded matrix holds
   the maximum everywhere, step 1 turns it into zeros, step 2 stars a zero in
   every column and step 3 goes to step 7. *)
Lemma zero_columns_run original allow :
  original <> [] -> Forall (fun row => row = []) original ->
  exists s, hungarian_run 4 original allow = Ok s /\ step s = 7.
Proof.
  intros Hne Hrows.
  remember (length original) as R eqn:ER.
  assert (HR : (0 < R)%nat) by (destruct original; [congruence|simpl in ER; lia]).
  assert (Hhd : hd [] original = []).
  { destruct original as [|row0 rest]; [reflexivity|]. inversion Hrows; subst. reflexivity. }
  assert (Hrect : rectangular original).
  { split; [exact Hne|]. rewrite Hhd. eapply Forall_impl; [|exact Hrows].
    intros row ->. reflexivity. }
  assert (Hmin : (matrix_min original <? 0) = false).
  { apply Z.ltb_ge. destruct (Z.lt_ge_cases (matrix_min original) 0) as [H|H]; [|exact H].
    apply matrix_min_neg in H. destruct H as [row [x [Hr [Hx _]]]].
    rewrite Forall_forall in Hrows. rewrite (Hrows row Hr) in Hx. destruct Hx. }
  set (P := map (resize R Int.max) original).
  assert (Hpad : pad_matrix original = P).
  { unfold pad_matrix.
    replace (nth 0 original []) with (hd [] original) by (destruct original; reflexivity).
    rewrite Hhd, <- ER. simpl length.
    replace (0 <? R)%nat with true by (symmetry; apply Nat.ltb_lt; exact HR).
    reflexivity. }
  assert (HsP : square R P).
  { split; [unfold P; rewrite length_map; symmetry; exact ER|].
    unfold P. apply Forall_map, Forall_forall. intros row _. apply length_resize. }
  assert (HrowP : forall r, (r < R)%nat -> nth r P [] = repeat Int.max R).
  { intros r Hr. unfold P. rewrite nth_map_row by (rewrite <- ER; exact Hr).
    rewrite Forall_forall in Hrows. rewrite (Hrows (nth r original [])).
    - apply resize_nil.
    - apply nth_In. rewrite <- ER. exact Hr. }
  set (Z1 := fst (step1 P)).
  assert (HsZ : square R Z1) by (apply square_step1; exact HsP).
  assert (HZ0 : forall r c, (r < R)%nat -> (c < R)%nat -> get Z1 r c = 0).
  { intros r c Hr Hc. unfold Z1. rewrite step1_get
      by (rewrite ?(square_length _ _ HsP), ?(square_row _ _ _ HsP Hr); assumption).
    rewrite (HrowP r Hr), (min_element_repeat _ _ HR).
    change (0 <? Int.max) with true. cbv iota.
    unfold get. rewrite (HrowP r Hr), nth_repeat_lt by exact Hc.
    reflexivity. }
  unfold hungarian_run.
  destruct original as [|row0 rest] eqn:Eo; [congruence|]. rewrite <- Eo in *.
  rewrite (copy_original_rectangular _ Hrect).
  unfold handle_negatives. rewrite Hmin, Hpad, Hhd, <- ER.
  change (length (@nil Z)) with O.
  assert (Hsh0 : shape R (repeat (repeat 0 R) R) (repeat 0 R) (repeat 0 R)).
  { split; [apply square_repeat|]. rewrite !repeat_length.
    split; [reflexivity|]. split; [reflexivity|].
    split; apply all_zero_bin, all_zero_repeat. }
  destruct (step2 Z1 (repeat (repeat 0 R) R) (repeat 0 R) (repeat 0 R))
    as [[[M1 RC1] CC1] st1] eqn:E2.
  destruct (step2_spec R _ _ _ _ _ _ _ _ HsZ Hsh0 (get_repeat R R)
              (all_zero_repeat R) (all_zero_repeat R) E2)
    as [-> [[HsM1 [HlR1 [HlC1 _]]] [_ [_ [HC1 _]]]]].
  pose proof (step2_zero_matrix R _ _ _ _ _ _ _ _ HsZ Hsh0 (get_repeat R R)
                (all_zero_repeat R) (all_zero_repeat R) HZ0 E2) as Hall.
  destruct (step3 M1 CC1) as [CC2 st2] eqn:E3.
  destruct (step3_spec R _ _ _ _ HsM1 HlC1 HC1 E3) as [_ [_ [Hiff Hres]]].
  assert (st2 = 7).
  { destruct Hres as [[E _]|[_ [c [Hc Hu]]]]; [exact E|].
    destruct (Hall c Hc) as [r Hr].
    assert (nth c CC2 0 = 1) by (apply Hiff; exists r; exact Hr). lia. }
  subst st2.
  unfold init_state. rewrite (square_length _ _ HsP).
  rewrite work_S, work_step_1 by reflexivity.
  cbn [bind matrix M RowCover ColCover path_row_0 path_col_0 path step]. cbv iota.
  fold Z1.
  rewrite work_S. erewrite work_step_2; [|reflexivity|exact E2].
  cbn [bind matrix M RowCover ColCover path_row_0 path_col_0 path step]. cbv iota.
  rewrite work_S. erewrite work_step_3; [|reflexivity|exact E3].
  cbn [bind matrix M RowCover ColCover path_row_0 path_col_0 path step]. cbv iota.
  rewrite work_S, work_step_7 by reflexivity.
  cbn [bind matrix M RowCover ColCover path_row_0 path_col_0 path step]. cbv iota.
  eexists. split; reflexivity.
Qed.

(** * Further properties of the functions *)

(** ** The preprocessing *)

Lemma matrix_min_le m row x : In row m -> In x row -> matrix_min m <= x.
Proof. apply matrix_min_from_le. Qed.

Lemma matrix_min_attained m :
  matrix_min m = Int.max \/ exists row x, In row m /\ In x row /\ matrix_min m = x.
Proof. apply (matrix_min_from_attained m Int.max). Qed.

Lemma get_In m r c :
  (r < length m)%nat -> (c < length (nth r m []))%nat ->
  In (nth r m []) m /\ In (get m r c) (nth r m []).
Proof. intros Hr Hc. split; apply nth_In; assumption. Qed.

Lemma hd_nth0 {A} (l : list A) d : nth 0 l d = hd d l.
Proof. destruct l; reflexivity. Qed.

Lemma rectangular_row m r :
  rectangular m -> (r < length m)%nat -> length (nth r m []) = length (hd [] m).
Proof.
  intros [_ Hrows] Hr. rewrite Forall_forall in Hrows.
  apply Hrows, nth_In, Hr.
Qed.

Lemma nth_resize_max row k c :
  (length row <= k)%nat -> (c < k)%nat ->
  nth c (resize k Int.max row) 0 =
  if (c <? length row)%nat then nth c row 0 else Int.max.
Proof.
  intros Hle Hc. unfold resize. rewrite firstn_all2 by exact Hle.
  destruct (c <? length row)%nat eqn:E.
  - apply Nat.ltb_lt in E. apply app_nth1. exact E.
  - apply Nat.ltb_ge in E. rewrite app_nth2 by exact E.
    apply nth_repeat_lt. lia.
Qed.

(** ** The searches *)

(* The loop of fold_last ends on the largest index that satisfies p. *)
Lemma fold_last_max (p : nat -> bool) n d i :
  (i < n)%nat -> p i = true -> (forall j, (i < j < n)%nat -> p j = false) ->
  fold_left (fun acc i => if p i then Z.of_nat i else acc) (seq 0 n) d = Z.of_nat i.
Proof.
  induction n as [|n IH]; intros Hi Hp Hmax; [lia|].
  rewrite seq_S, fold_left_app. simpl.
  destruct (Nat.eq_dec i n) as [->|Hne].
  - rewrite Hp. reflexivity.
  - rewrite (Hmax n) by lia. apply IH; [lia|exact Hp|].
    intros j Hj. apply Hmax. lia.
Qed.

Lemma find_a_zero_cols_first matrix RC CC r len : forall start c,
  find_a_zero_cols matrix RC CC r (seq start len) = Some c ->
  forall c', (start <= c' < c)%nat -> uncovered_zero matrix RC CC r c' = false.
Proof.
  induction len as [|len IH]; intros start c H c' Hc'; simpl in H; [discriminate|].
  fold (uncovered_zero matrix RC CC r start) in H.
  destruct (uncovered_zero matrix RC CC r start) eqn:E.
  - inversion H; subst. lia.
  - destruct (Nat.eq_dec c' start) as [->|Hne]; [exact E|].
    apply (IH (S start) c H). lia.
Qed.

Lemma find_a_zero_rows_first matrix RC CC sz len : forall start r c,
  find_a_zero_rows matrix RC CC sz (seq start len) = (Z.of_nat r, Z.of_nat c) ->
  forall r' c', (c' < sz)%nat -> (start <= r')%nat ->
    (r' < r)%nat \/ (r' = r /\ (c' < c)%nat) ->
    uncovered_zero matrix RC CC r' c' = false.
Proof.
  induction len as [|len IH]; intros start r c H r' c' Hc' Hr' Hlt; simpl in H.
  - inversion H. lia.
  - pose proof (find_a_zero_cols_spec matrix RC CC start (seq 0 sz)) as Hspec.
    destruct (find_a_zero_cols matrix RC CC start (seq 0 sz)) as [c0|] eqn:E.
    + inversion H as [[Er Ec]]. apply Nat2Z.inj in Er, Ec. subst.
      destruct Hlt as [Hlt|[-> Hlt]]; [lia|].
      apply (find_a_zero_cols_first _ _ _ _ _ _ _ E). lia.
    + destruct (Nat.eq_dec r' start) as [->|Hne].
      * apply Hspec. apply in_seq. lia.
      * apply (IH (S start) r c H); [exact Hc'|lia|exact Hlt].
Qed.

(** ** The path buffer *)

Lemma holds_read path P :
  holds path P ->
  forall i, (i < length P)%nat ->
    path_read path (Z.of_nat (0 + i)) = Ok (cellZ (nth i P (O, O))).
Proof.
  intros [Hlen Hnth] i Hi. simpl. rewrite path_read_ok by lia.
  rewrite Hnth by exact Hi. reflexivity.
Qed.

(** ** Covers *)

Lemma all_zero_is_repeat l : all_zero l -> l = repeat 0 (length l).
Proof.
  induction l as [|x l IH]; intros H; [reflexivity|].
  inversion H; subst. simpl. f_equal. apply IH. assumption.
Qed.

Lemma matrix_min_nonneg m :
  mask_values (fun x => 0 <= x) m -> (matrix_min m <? 0) = false.
Proof.
  intros Hpos. apply Z.ltb_ge.
  destruct (Z.lt_ge_cases (matrix_min m) 0) as [Hlt|Hge]; [|exact Hge].
  apply matrix_min_neg in Hlt. destruct Hlt as [row [x [Hrow [Hx Hn]]]].
  unfold mask_values in Hpos. rewrite Forall_forall in Hpos.
  specialize (Hpos _ Hrow). rewrite Forall_forall in Hpos. specialize (Hpos _ Hx). lia.
Qed.

(** ** The order of the steps *)

Lemma step4_loop_next fuel : forall matrix M RC CC r0 c0 M' RC' CC' r0' c0' st',
  step4_loop fuel matrix M RC CC r0 c0 = Ok (M', RC', CC', r0', c0', st') ->
  st' = 5 \/ st' = 6.
Proof.
  induction fuel as [|fuel IH]; intros matrix M RC CC r0 c0 M' RC' CC' r0' c0' st' H;
    simpl in H; [discriminate|].
  destruct (find_a_zero matrix RC CC) as [row col].
  destruct (row =? -1); [inversion H; auto|].
  destruct (star_in_row row (setZ M row col 2)); [|inversion H; auto].
  eapply IH. exact H.
Qed.

Lemma ord_prime M L r : ord M L -> In r L -> exists c, prime M r c.
Proof.
  induction L as [|x L IH]; simpl; [intros _ []|].
  intros [_ [_ [[c [Hp _]] Hord]]] [<-|Hin]; [exists c; exact Hp|apply IH; assumption].
Qed.

(** ** The states of a run *)

(* Only the last turn, which sets done, looks at the dimensions of the
   original matrix. *)
Lemma work_step_dims fuel rows cols rows' cols' s s' :
  work_step fuel rows cols s = Ok (s', false) ->
  work_step fuel rows' cols' s = Ok (s', false).
Proof.
  intros H.
  destruct (step_cases (step s)) as [E|[E|[E|[E|[E|[E|[E|E]]]]]]].
  - rewrite (work_step_1 fuel rows cols s E) in H.
    rewrite (work_step_1 fuel rows' cols' s E). exact H.
  - destruct (step2 (matrix s) (M s) (RowCover s) (ColCover s))
      as [[[M' RC'] CC'] st'] eqn:E2.
    rewrite (work_step_2 fuel rows cols s _ _ _ _ E E2) in H.
    rewrite (work_step_2 fuel rows' cols' s _ _ _ _ E E2). exact H.
  - destruct (step3 (M s) (ColCover s)) as [CC' st'] eqn:E3.
    rewrite (work_step_3 fuel rows cols s _ _ E E3) in H.
    rewrite (work_step_3 fuel rows' cols' s _ _ E E3). exact H.
  - rewrite (work_step_4 fuel rows cols s E) in H.
    rewrite (work_step_4 fuel rows' cols' s E). exact H.
  - rewrite (work_step_5 fuel rows cols s E) in H.
    rewrite (work_step_5 fuel rows' cols' s E). exact H.
  - rewrite (work_step_6 fuel rows cols s E) in H.
    rewrite (work_step_6 fuel rows' cols' s E). exact H.
  - rewrite (work_step_7 _ _ _ _ E) in H. discriminate.
  - rewrite (work_step_other _ _ _ _ E) in H. discriminate.
Qed.

Lemma reachable_inv (P : state -> Prop) rows cols m :
  P (init_state m) ->
  (forall fuel s s', P s -> work_step fuel rows cols s = Ok (s', false) -> P s') ->
  forall s, reachable rows cols m s -> P s.
Proof.
  intros H0 Hstep s Hr. induction Hr as [|fuel s s' _ IH H]; [exact H0|].
  exact (Hstep fuel s s' IH H).
Qed.

Lemma reachable_struct rows cols n m s :
  square n m -> reachable rows cols m s -> struct_inv n s.
Proof.
  intros Hs. apply reachable_inv; [apply init_struct; exact Hs|].
  intros fuel s0 s1 Hinv H.
  apply (work_step_struct n fuel s0 s1 false Hinv).
  apply (work_step_dims _ _ _ _ _ _ _ H).
Qed.

Lemma reachable_values rows cols m s : reachable rows cols m s -> values_inv s.
Proof.
  apply reachable_inv; [apply init_values|].
  intros fuel s0 s1 Hinv H. exact (work_step_values _ _ _ _ _ _ Hinv H).
Qed.

Lemma work_step_range fuel rows cols s s' d :
  mask_values Int.in_range (matrix s) -> work_step fuel rows cols s = Ok (s', d) ->
  mask_values Int.in_range (matrix s').
Proof.
  intros Hr H.
  destruct (step_cases (step s)) as [E|[E|[E|[E|[E|[E|[E|E]]]]]]].
  - rewrite (work_step_1 _ _ _ _ E) in H. inversion H; subst. simpl.
    apply step1_range. exact Hr.
  - destruct (step2 (matrix s) (M s) (RowCover s) (ColCover s))
      as [[[M' RC'] CC'] st'] eqn:E2.
    rewrite (work_step_2 _ _ _ _ _ _ _ _ E E2) in H. inversion H; subst. exact Hr.
  - destruct (step3 (M s) (ColCover s)) as [CC' st'] eqn:E3.
    rewrite (work_step_3 _ _ _ _ _ _ E E3) in H. inversion H; subst. exact Hr.
  - rewrite (work_step_4 _ _ _ _ E) in H.
    destruct (step4 _ _ _ _ _ _ _) as [[[[[[M' RC'] CC'] r0'] c0'] st']|e];
      [|discriminate].
    inversion H; subst. exact Hr.
  - rewrite (work_step_5 _ _ _ _ E) in H.
    destruct (step5 _ _ _ _ _ _ _) as [[[[[p' M'] RC'] CC'] st']|e]; [|discriminate].
    inversion H; subst. exact Hr.
  - rewrite (work_step_6 _ _ _ _ E) in H. inversion H; subst. simpl.
    apply step6_range. exact Hr.
  - rewrite (work_step_7 _ _ _ _ E) in H. inversion H; subst. exact Hr.
  - rewrite (work_step_other _ _ _ _ E) in H. inversion H; subst. exact Hr.
Qed.

Lemma reachable_range rows cols m s :
  mask_values Int.in_range m -> reachable rows cols m s ->
  mask_values Int.in_range (matrix s).
Proof.
  intros Hr.
  apply (reachable_inv (fun s => mask_values Int.in_range (matrix s))); [exact Hr|].
  intros fuel s0 s1 Hinv H. exact (work_step_range _ _ _ _ _ _ Hinv H).
Qed.

Lemma reachable_value rows cols n m K s :
  (0 < n)%nat -> square n m ->
  (forall r c, (r < n)%nat -> (c < n)%nat -> 0 <= get m r c <= K) ->
  2 * K <= Int.max ->
  reachable rows cols m s -> struct_inv n s /\ value_inv n m s.
Proof.
  intros Hn Hs HA HK.
  assert (Hr : mask_values Int.in_range m).
  { apply (square_values n); [exact Hs|]. intros r c Hr Hc.
    pose proof (HA r c Hr Hc). unfold Int.in_range, Int.min, Int.max in *. lia. }
  apply (reachable_inv (fun s => struct_inv n s /\ value_inv n m s)).
  - split; [apply init_struct; exact Hs|].
    apply init_value; [exact Hs|exact Hr|]. intros r c Hr' Hc'. apply HA; assumption.
  - intros fuel s0 s1 [H1 H2] H. apply (work_step_dims _ _ _ n n) in H. split.
    + eapply work_step_struct; eassumption.
    + eapply work_step_value; eassumption.
Qed.

Lemma work_step_7_stays fuel rows cols s s' d :
  step s = 7 -> work_step fuel rows cols s = Ok (s', d) -> step s' = 7.
Proof.
  intros E H. rewrite (work_step_7 _ _ _ _ E) in H. inversion H; subst. reflexivity.
Qed.

Lemma work_n_stays k fuel rows cols : forall s s',
  step s = 7 -> work_n k fuel rows cols s = Ok s' -> step s' = 7.
Proof.
  induction k as [|k IH]; intros s s' E H; simpl in H.
  - inversion H; subst. exact E.
  - apply bind_ok in H. destruct H as [[s1 d] [H1 H2]].
    apply (IH s1 s'); [|exact H2].
    exact (work_step_7_stays _ _ _ _ _ _ E H1).
Qed.

(* The state after k turns is one in which the loop starts a turn, unless
   the loop has ended before. *)
Lemma work_n_reachable k fuel rows cols m : forall s0 s,
  reachable rows cols m s0 -> work_n k fuel rows cols s0 = Ok s -> step s <> 7 ->
  reachable rows cols m s.
Proof.
  induction k as [|k IH]; intros s0 s Hr H Hne; simpl in H.
  - inversion H; subst. exact Hr.
  - apply bind_ok in H. destruct H as [[s1 d] [H1 H2]]. simpl in H2.
    destruct d.
    + exfalso. apply Hne.
      destruct (reachable_values _ _ _ _ Hr) as [Hrange _].
      pose proof (work_step_done _ _ _ _ _ H1 Hrange) as E7.
      apply (work_n_stays k fuel rows cols s1 s); [|exact H2].
      exact (work_step_7_stays _ _ _ _ _ _ E7 H1).
    + apply (IH s1 s); [|exact H2|exact Hne].
      exact (reach_turn _ _ _ fuel s0 s1 Hr H1).
Qed.

Lemma struct_marks n s :
  struct_inv n s -> values_inv s ->
  matching (M s) /\
  (forall r c c', prime (M s) r c -> prime (M s) r c' -> c = c').
Proof.
  intros [_ [_ [_ Hcase]]] [_ [_ H01]].
  assert (Hnp : mask_values is01 (M s) -> forall r c, ~ prime (M s) r c).
  { intros Hv r c Hp. unfold prime in Hp.
    destruct (mask_values_get is01 (M s) r c Hv (or_introl eq_refl)); lia. }
  destruct Hcase as [[Hst [HM0 _]]|[[Hst [Hmatch [Hnp' _]]]|
                     [[Hst [L Hinv]]|[[Hst [L [r0 [c0 [_ [_ Hinv]]]]]]|
                     [Hst [Hmatch _]]]]]].
  - split.
    + split; intros r; intros; unfold star in *; rewrite HM0 in *; discriminate.
    + intros r c c' Hp. unfold prime in Hp. rewrite HM0 in Hp. discriminate.
  - split; [exact Hmatch|]. intros r c c' Hp. destruct (Hnp' _ _ Hp).
  - destruct Hinv as [Hmatch [_ [_ [Hpu _]]]]. split; assumption.
  - destruct Hinv as [Hmatch [Hpu _]]. split; assumption.
  - split; [exact Hmatch|]. intros r c c' Hp.
    exfalso. apply (Hnp (H01 (or_intror (or_intror (or_intror Hst)))) _ _ Hp).
Qed.

Lemma struct_step4 n s :
  struct_inv n s -> step s = 4 \/ step s = 6 ->
  exists L, search_inv n (M s) (RowCover s) (ColCover s) L.
Proof.
  intros [_ [_ [_ Hcase]]] E.
  destruct Hcase as [[Hst _]|[[Hst _]|[[_ HL]|[[Hst _]|[Hst _]]]]];
    [lia|lia|exact HL|lia|lia].
Qed.

Lemma struct_step5 n s :
  struct_inv n s -> step s = 5 ->
  exists L r0 c0, path_row_0 s = Z.of_nat r0 /\ path_col_0 s = Z.of_nat c0 /\
                  aug_inv (M s) L r0 c0.
Proof.
  intros [_ [_ [_ Hcase]]] E.
  destruct Hcase as [[Hst _]|[[Hst _]|[[Hst _]|[[_ HL]|[Hst _]]]]];
    [lia|lia|lia|exact HL|lia].
Qed.

Lemma state_after_reachable k m :
  (exists s, work_n k 20 (length m) (length m) (init_state m) = Ok s /\ step s <> 7) ->
  reachable (length m) (length m) m (state_after k m).
Proof.
  intros [s [H Hne]]. unfold state_after. rewrite H.
  apply (work_n_reachable k 20 _ _ m (init_state m)); [apply reach_init|exact H|exact Hne].
Qed.

(** ** The length of the path buffer *)

Lemma path_write0_length path i v path' :
  path_write0 path i v = Ok path' -> length path' = length path.
Proof.
  unfold path_write0. intros H. apply bind_ok in H. destruct H as [p [_ H]].
  inversion H. apply length_upd.
Qed.

Lemma path_write1_length path i v path' :
  path_write1 path i v = Ok path' -> length path' = length path.
Proof.
  unfold path_write1. intros H. apply bind_ok in H. destruct H as [p [_ H]].
  inversion H. apply length_upd.
Qed.

Lemma step5_loop_length fuel : forall path pc c M path' pc',
  step5_loop fuel path pc c M = Ok (path', pc') -> length path' = length path.
Proof.
  induction fuel as [|fuel IH]; intros path pc c M path' pc' H; [discriminate|].
  rewrite step5_loop_eq in H.
  apply bind_ok in H. destruct H as [last [_ H]]. cbv zeta in H.
  destruct (find_star_in_col (snd last) M >? -1); [|inversion H; reflexivity].
  apply bind_ok in H. destruct H as [path1 [W1 H]].
  apply bind_ok in H. destruct H as [prev [_ H]].
  apply bind_ok in H. destruct H as [path2 [W2 H]].
  apply bind_ok in H. destruct H as [last2 [_ H]].
  apply bind_ok in H. destruct H as [prev2 [_ H]].
  apply bind_ok in H. destruct H as [path3 [W3 H]].
  apply bind_ok in H. destruct H as [path4 [W4 H]].
  apply IH in H.
  apply path_write0_length in W1, W3. apply path_write1_length in W2, W4. lia.
Qed.

Lemma step5_length fuel path r0 c0 M RC CC path' M' RC' CC' st' :
  step5 fuel path r0 c0 M RC CC = Ok (path', M', RC', CC', st') ->
  length path' = length path.
Proof.
  unfold step5. intros H.
  apply bind_ok in H. destruct H as [path1 [W1 H]].
  apply bind_ok in H. destruct H as [path2 [W2 H]].
  apply bind_ok in H. destruct H as [[path3 pc] [HL H]].
  apply bind_ok in H. destruct H as [M2 [_ H]].
  inversion H; subst.
  apply step5_loop_length in HL.
  apply path_write0_length in W1. apply path_write1_length in W2. lia.
Qed.

Lemma work_step_path_length fuel rows cols s s' d :
  work_step fuel rows cols s = Ok (s', d) -> length (path s') = length (path s).
Proof.
  intros H.
  destruct (step_cases (step s)) as [E|[E|[E|[E|[E|[E|[E|E]]]]]]].
  - rewrite (work_step_1 _ _ _ _ E) in H. inversion H; subst. reflexivity.
  - destruct (step2 (matrix s) (M s) (RowCover s) (ColCover s))
      as [[[M' RC'] CC'] st'] eqn:E2.
    rewrite (work_step_2 _ _ _ _ _ _ _ _ E E2) in H. inversion H; subst. reflexivity.
  - destruct (step3 (M s) (ColCover s)) as [CC' st'] eqn:E3.
    rewrite (work_step_3 _ _ _ _ _ _ E E3) in H. inversion H; subst. reflexivity.
  - rewrite (work_step_4 _ _ _ _ E) in H.
    destruct (step4 _ _ _ _ _ _ _) as [[[[[[M' RC'] CC'] r0'] c0'] st']|e];
      [|discriminate].
    inversion H; subst. reflexivity.
  - rewrite (work_step_5 _ _ _ _ E) in H.
    destruct (step5 _ _ _ _ _ _ _) as [[[[[p' M'] RC'] CC'] st']|e] eqn:E5;
      [|discriminate].
    inversion H; subst. simpl. eapply step5_length. exact E5.
  - rewrite (work_step_6 _ _ _ _ E) in H. inversion H; subst. reflexivity.
  - rewrite (work_step_7 _ _ _ _ E) in H. inversion H; subst. reflexivity.
  - rewrite (work_step_other _ _ _ _ E) in H. inversion H; subst. reflexivity.
Qed.

Lemma reachable_path_length rows cols m s :
  reachable rows cols m s -> length (path s) = (length m + 1)%nat.
Proof.
  apply (reachable_inv (fun s => length (path s) = (length m + 1)%nat)).
  - simpl. apply repeat_length.
  - intros fuel s0 s1 Hinv H. rewrite (work_step_path_length _ _ _ _ _ _ H). exact Hinv.
Qed.

(** ** A buffer that holds the whole path *)

Section Step5Fits.

Variable n : nat.
Variable M : matrix_t.
Hypothesis HsM : square n M.
Hypothesis Hmatch : matching M.
Hypothesis Hprimes : forall r c c', prime M r c -> prime M r c' -> c = c'.

(* With room for the cells of the chain, the loop of step 5 writes them all. *)
Lemma step5_loop_fits L c rest :
  chain M L c rest ->
  forall fuel path pre r cvar,
    (length rest < 2 * fuel)%nat ->
    holds path (pre ++ [(r, c)]) ->
    (length pre + 1 + length rest <= length path)%nat ->
    exists path',
      step5_loop fuel path (Z.of_nat (length pre + 1)) cvar M =
        Ok (path', Z.of_nat (length pre + 1 + length rest)) /\
      holds path' (pre ++ (r, c) :: rest).
Proof.
  destruct Hmatch as [Hrow Hcol].
  induction 1 as [L c Hno|L1 r' L2 c c' rest Hs Hp Hch IH];
    intros fuel path pre r cvar Hfuel Hholds Hroom.
  - destruct fuel as [|fuel]; [simpl in Hfuel; lia|].
    rewrite step5_loop_eq.
    destruct (holds_last _ _ _ Hholds) as [Hlt Hnth].
    replace (Z.of_nat (length pre + 1) - 1) with (Z.of_nat (length pre)) by lia.
    rewrite path_read_ok by exact Hlt. rewrite Hnth. cbn [bind cellZ fst snd].
    destruct (find_star_in_col_spec n M c HsM) as [[E _]|[r' [_ [Hst _]]]].
    + rewrite E. simpl. exists path. rewrite Nat.add_0_r. auto.
    + exfalso. exact (Hno _ Hst).
  - destruct fuel as [|fuel]; [simpl in Hfuel; lia|].
    rewrite step5_loop_eq.
    destruct (holds_last _ _ _ Hholds) as [Hlt Hnth].
    simpl in Hroom.
    set (k := length pre) in *.
    replace (Z.of_nat (k + 1) - 1) with (Z.of_nat k) by lia.
    replace (Z.of_nat (k + 1) + 1 - 1) with (Z.of_nat (k + 1)) by lia.
    replace (Z.of_nat (k + 1) + 1 - 2) with (Z.of_nat k) by lia.
    replace (Z.of_nat (k + 1) + 1 + 1 - 2) with (Z.of_nat (k + 1)) by lia.
    replace (Z.of_nat (k + 1) + 1 + 1 - 1) with (Z.of_nat (k + 2)) by lia.
    replace (Z.of_nat (k + 1) + 1 + 1) with (Z.of_nat (k + 2 + 1)) by lia.
    rewrite path_read_ok by exact Hlt. rewrite Hnth. cbn [bind cellZ fst snd].
    destruct (find_star_in_col_spec n M c HsM) as [[_ Hno]|[r'' [_ [Hst E]]]].
    { exfalso. exact (Hno _ Hs). }
    assert (r'' = r') by (eapply Hcol; eassumption). subst r''.
    rewrite E. replace (Z.of_nat r' >? -1) with true by (symmetry; apply Z.gtb_lt; lia).
    assert (H1 : (k + 1 < length path)%nat) by lia.
    rewrite path_write0_ok by exact H1. cbn [bind].
    set (path1 := upd path (k + 1) _).
    assert (Hl1 : length path1 = length path) by apply length_upd.
    rewrite path_read_ok by lia.
    assert (Hk1 : nth k path1 (0, 0) = cellZ (r, c)).
    { unfold path1. rewrite nth_upd_neq by lia. exact Hnth. }
    rewrite Hk1. cbn [bind cellZ fst snd].
    rewrite path_write1_ok by lia. cbn [bind].
    assert (Hp2 : upd path1 (k + 1) (fst (nth (k + 1) path1 (0, 0)), Z.of_nat c)
                  = upd path (k + 1) (cellZ (r', c))).
    { unfold path1. rewrite nth_upd_eq by exact H1. rewrite upd_upd. reflexivity. }
    rewrite Hp2. clear Hp2 Hk1 Hl1 path1.
    set (path2 := upd path (k + 1) (cellZ (r', c))).
    assert (Hl2 : length path2 = length path) by apply length_upd.
    assert (Hh2 : holds path2 ((pre ++ [(r, c)]) ++ [(r', c)])).
    { unfold path2. replace (k + 1)%nat with (length (pre ++ [(r, c)]))
        by (rewrite length_app; reflexivity).
      apply holds_snoc; [exact Hholds|]. rewrite length_app. simpl. fold k. lia. }
    rewrite path_read_ok by lia.
    assert (Hk2 : nth (k + 1) path2 (0, 0) = cellZ (r', c)).
    { unfold path2. apply nth_upd_eq. exact H1. }
    rewrite Hk2. cbn [bind cellZ fst snd].
    destruct (find_prime_in_row_spec n M r' cvar HsM) as [[_ Hnp]|[c'' [_ [Hpr Ep]]]].
    { exfalso. exact (Hnp _ Hp). }
    assert (c'' = c') by (eapply Hprimes; eassumption). subst c''.
    rewrite Ep.
    assert (H2 : (k + 2 < length path)%nat) by lia.
    rewrite path_write0_ok by lia. cbn [bind].
    rewrite path_write1_ok by (rewrite length_upd; lia). cbn [bind].
    rewrite nth_upd_eq by lia. rewrite upd_upd. cbn [fst].
    change (Z.of_nat r', Z.of_nat c') with (cellZ (r', c')).
    set (pre' := (pre ++ [(r, c)]) ++ [(r', c)]) in *.
    assert (Hlen' : length pre' = (k + 2)%nat).
    { unfold pre'. rewrite !length_app. simpl. fold k. lia. }
    assert (Hh4 : holds (upd path2 (k + 2) (cellZ (r', c'))) (pre' ++ [(r', c')])).
    { rewrite <- Hlen'. apply holds_snoc; [exact Hh2|lia]. }
    destruct (IH fuel (upd path2 (k + 2) (cellZ (r', c'))) pre' r' (Z.of_nat c'))
      as [path' [Hok Hh]].
    + simpl in Hfuel. lia.
    + exact Hh4.
    + rewrite length_upd, Hl2, Hlen'. lia.
    + exists path'. rewrite Hlen' in Hok. split.
      * rewrite Hok. do 2 f_equal. simpl. lia.
      * unfold pre' in Hh. rewrite <- !app_assoc in Hh. exact Hh.
Qed.

End Step5Fits.

(* The rows of the search order hold stars and the row of the primed zero
   holds none: together they are at most n rows. *)
Lemma aug_rows_lt n M L r0 c0 :
  square n M -> aug_inv M L r0 c0 -> (length L < n)%nat.
Proof.
  intros Hs [_ [_ [Hord [Hp0 [Hno [Hnin _]]]]]].
  assert (Hle : (length (r0 :: L) <= length (seq 0 n))%nat).
  { apply NoDup_incl_length.
    - constructor; [exact Hnin|apply (ord_NoDup M); exact Hord].
    - intros r [<-|Hr]; apply in_seq.
      + destruct (prime_range n M r0 c0 Hs Hp0). lia.
      + destruct (ord_star M L r Hord Hr) as [c Hc].
        destruct (star_range n M r c Hs Hc). lia. }
  rewrite length_seq in Hle. simpl in Hle. lia.
Qed.

(* Step 5 on a buffer of 2 |L| + 1 rows or more. *)
Lemma step5_fits n M RC CC L r0 c0 fuel path :
  square n M -> aug_inv M L r0 c0 -> (length L < fuel)%nat ->
  (2 * length L + 1 <= length path)%nat ->
  exists path' M',
    step5 fuel path (Z.of_nat r0) (Z.of_nat c0) M RC CC =
      Ok (path', M', clear_covers RC, clear_covers CC, 3) /\
    step5_post n M r0 M'.
Proof.
  intros HsM Hinv Hfuel Hroom.
  destruct (step5_total n M RC CC L r0 c0 fuel path HsM Hinv Hfuel)
    as [Hf|Hok]; [|exact Hok].
  exfalso. destruct Hinv as [Hmatch [Hprimes [Hord [Hp0 [Hno [Hnin Hcol0]]]]]].
  unfold step5 in Hf. change (1 - 1) with (Z.of_nat 0) in Hf.
  assert (Hlen : (0 < length path)%nat) by lia.
  rewrite path_write0_ok in Hf by exact Hlen. cbn [bind] in Hf.
  rewrite path_write1_ok in Hf by (rewrite length_upd; exact Hlen). cbn [bind] in Hf.
  rewrite nth_upd_eq in Hf by exact Hlen. rewrite upd_upd in Hf. cbn [fst] in Hf.
  change (Z.of_nat r0, Z.of_nat c0) with (cellZ (r0, c0)) in Hf.
  destruct (chain_exists M L c0 Hord Hcol0) as [rest Hch].
  pose proof (chain_length _ _ _ _ Hch) as Hcl.
  assert (Hh : holds (upd path 0 (cellZ (r0, c0))) ([] ++ [(r0, c0)])).
  { apply (holds_snoc path [] (r0, c0)); [|exact Hlen].
    split; [simpl; lia|]. intros i Hi. simpl in Hi. lia. }
  destruct (step5_loop_fits n M HsM Hmatch Hprimes L c0 rest Hch fuel
              (upd path 0 (cellZ (r0, c0))) [] r0 (-1))
    as [path' [Hok Hholds]].
  - lia.
  - exact Hh.
  - rewrite length_upd. simpl. lia.
  - change (Z.of_nat (length (@nil (nat * nat)) + 1)) with 1 in Hok.
    rewrite Hok in Hf. cbn [bind] in Hf.
    change (length (@nil (nat * nat)) + 1 + length rest)%nat
      with (length ((r0, c0) :: rest)) in Hf.
    change ([] ++ (r0, c0) :: rest) with ((r0, c0) :: rest) in Hholds.
    unfold augment_path in Hf. rewrite Nat2Z.id in Hf.
    rewrite (augment_loop_cells path' ((r0, c0) :: rest) 0 M) in Hf
      by (apply holds_read; exact Hholds).
    discriminate.
Qed.

(** ** Runs on rectangular inputs *)

Lemma handle_negatives_rectangular m allow A :
  rectangular m -> handle_negatives m allow = (A, None) ->
  rectangular A /\ length A = length m /\ length (hd [] A) = length (hd [] m).
Proof.
  intros Hrect H. unfold handle_negatives in H.
  destruct (matrix_min m <? 0); [|inversion H; subst; auto].
  destruct (negb allow); [discriminate|]. inversion H; subst; clear H.
  destruct Hrect as [Hne Hrows].
  destruct m as [|row0 rest]; [congruence|]. simpl.
  split; [|rewrite !length_map; auto].
  split; [discriminate|]. simpl. rewrite length_map.
  constructor; [apply length_map|].
  inversion Hrows; subst. apply Forall_map.
  eapply Forall_impl; [|eassumption]. intros row Hrow. simpl in *.
  rewrite length_map. exact Hrow.
Qed.

Lemma pad_matrix_is_square m :
  rectangular m ->
  square (Nat.max (length m) (length (hd [] m))) (pad_matrix m).
Proof.
  intros [_ Hrows]. unfold pad_matrix. rewrite hd_nth0.
  set (R := length m) in *. set (C := length (hd [] m)) in *.
  destruct (C <? R)%nat eqn:E1; [|destruct (R <? C)%nat eqn:E2].
  - apply Nat.ltb_lt in E1. replace (Nat.max R C) with R by lia.
    split; [apply length_map|]. apply Forall_map, Forall_forall.
    intros row _. apply length_resize.
  - apply Nat.ltb_lt in E2. replace (Nat.max R C) with C by lia.
    split; [rewrite length_app, repeat_length; fold R; lia|].
    apply Forall_app. split; [exact Hrows|].
    apply Forall_forall. intros row Hin. apply repeat_spec in Hin. subst row.
    apply repeat_length.
  - apply Nat.ltb_ge in E1, E2. replace (Nat.max R C) with R by lia.
    split; [reflexivity|]. replace R with C by lia. exact Hrows.
Qed.

Lemma Forall_resize_max k row :
  Forall Int.in_range row -> Forall Int.in_range (resize k Int.max row).
Proof.
  intros H. unfold resize. apply Forall_app. split.
  - apply Forall_firstn. exact H.
  - apply Forall_forall. intros x Hx. apply repeat_spec in Hx. subst x.
    unfold Int.in_range, Int.min, Int.max. lia.
Qed.

Lemma pad_matrix_range m :
  mask_values Int.in_range m -> mask_values Int.in_range (pad_matrix m).
Proof.
  intros H. unfold pad_matrix, mask_values in *.
  destruct (_ <? _)%nat; [|destruct (_ <? _)%nat; [|exact H]].
  - apply Forall_map. eapply Forall_impl; [|exact H].
    intros row Hrow. apply Forall_resize_max. exact Hrow.
  - apply Forall_app. split; [exact H|].
    apply Forall_forall. intros row Hin. apply repeat_spec in Hin. subst row.
    apply Forall_forall. intros x Hx. apply repeat_spec in Hx. subst x.
    unfold Int.in_range, Int.min, Int.max. lia.
Qed.

Lemma handle_negatives_in_range m allow A :
  mask_values Int.in_range m -> handle_negatives m allow = (A, None) ->
  mask_values Int.in_range A.
Proof.
  intros Hr H. unfold handle_negatives in H.
  destruct (matrix_min m <? 0); [|inversion H; subst; exact Hr].
  destruct (negb allow); [discriminate|]. inversion H; subst.
  unfold mask_values. apply Forall_map, Forall_forall. intros row _.
  apply Forall_map, Forall_forall. intros x _. apply wrap_range.
Qed.

(* The run on a rectangular input, from the padded working matrix on. *)
Lemma hungarian_run_rectangular original allow fuel A :
  rectangular original ->
  handle_negatives original allow = (A, None) ->
  hungarian_run fuel original allow =
  work fuel (length original) (length (hd [] original)) (init_state (pad_matrix A)).
Proof.
  intros Hrect Hh. unfold hungarian_run.
  destruct original as [|row0 rest] eqn:Eo; [destruct Hrect; congruence|].
  rewrite <- Eo in *.
  rewrite (copy_original_rectangular _ Hrect), Hh. reflexivity.
Qed.

(* The turns before the last one do not depend on the dimensions of the
   original matrix. *)
Lemma work_step_dims_eq fuel rows cols rows' cols' s :
  step s <> 7 -> work_step fuel rows cols s = work_step fuel rows' cols' s.
Proof.
  intros Hne.
  destruct (step_cases (step s)) as [E|[E|[E|[E|[E|[E|[E|E]]]]]]].
  - rewrite (work_step_1 fuel rows cols s E), (work_step_1 fuel rows' cols' s E).
    reflexivity.
  - destruct (step2 (matrix s) (M s) (RowCover s) (ColCover s))
      as [[[M' RC'] CC'] st'] eqn:E2.
    rewrite (work_step_2 fuel rows cols s _ _ _ _ E E2).
    rewrite (work_step_2 fuel rows' cols' s _ _ _ _ E E2). reflexivity.
  - destruct (step3 (M s) (ColCover s)) as [CC' st'] eqn:E3.
    rewrite (work_step_3 fuel rows cols s _ _ E E3).
    rewrite (work_step_3 fuel rows' cols' s _ _ E E3). reflexivity.
  - rewrite (work_step_4 fuel rows cols s E), (work_step_4 fuel rows' cols' s E).
    reflexivity.
  - rewrite (work_step_5 fuel rows cols s E), (work_step_5 fuel rows' cols' s E).
    reflexivity.
  - rewrite (work_step_6 fuel rows cols s E), (work_step_6 fuel rows' cols' s E).
    reflexivity.
  - contradiction.
  - rewrite (work_step_other fuel rows cols s E), (work_step_other fuel rows' cols' s E).
    reflexivity.
Qed.

Lemma work_dims rows cols rows' cols' fuel : forall s,
  (forall e, work fuel rows cols s = Fail e -> work fuel rows' cols' s = Fail e) /\
  (forall s1, work fuel rows cols s = Ok s1 ->
     exists s2, work fuel rows' cols' s = Ok s2 /\ step s2 = step s1).
Proof.
  induction fuel as [|fuel IH]; intros s; simpl.
  - split; [auto|discriminate].
  - destruct (Z.eq_dec (step s) 7) as [E|Hne].
    + rewrite (work_step_7 fuel rows cols s E), (work_step_7 fuel rows' cols' s E).
      simpl. split; [discriminate|]. intros s1 H. inversion H; subst.
      eexists. split; reflexivity.
    + rewrite (work_step_dims_eq fuel rows cols rows' cols' s Hne).
      destruct (work_step fuel rows' cols' s) as [[s' d]|e]; simpl.
      * destruct d; [|apply IH].
        split; [discriminate|]. intros s1 H. inversion H; subst.
        eexists. split; reflexivity.
      * split; [auto|discriminate].
Qed.

(* A run that returns has passed through a state of step 7, and returns
   that state with the mask cut down to the dimensions of the original. *)
Lemma work_reaches rows cols m fuel : forall s0 s1,
  reachable rows cols m s0 -> work fuel rows cols s0 = Ok s1 ->
  exists s7, reachable rows cols m s7 /\ step s7 = 7 /\
             M s1 = resize rows [] (map (resize cols 0) (M s7)).
Proof.
  induction fuel as [|fuel IH]; intros s0 s1 Hr H; simpl in H; [discriminate|].
  apply bind_ok in H. destruct H as [[s' d] [H1 H2]]. simpl in H2.
  destruct d.
  - inversion H2; subst; clear H2.
    destruct (reachable_values _ _ _ _ Hr) as [Hrange _].
    pose proof (work_step_done _ _ _ _ _ H1 Hrange) as E7.
    exists s0. split; [exact Hr|]. split; [exact E7|].
    rewrite (work_step_7 _ _ _ _ E7) in H1. inversion H1; subst. reflexivity.
  - apply (IH s' s1); [|exact H2].
    exact (reach_turn _ _ _ fuel s0 s' Hr H1).
Qed.

(* The mask cut down to rows x cols. *)
Lemma get_resize_mask n M7 rows cols r c :
  square n M7 -> (rows <= n)%nat -> (cols <= n)%nat ->
  get (resize rows [] (map (resize cols 0) M7)) r c =
  if ((r <? rows) && (c <? cols))%nat then get M7 r c else 0.
Proof.
  intros Hs HR HC. unfold get, resize at 1.
  rewrite length_map, (square_length _ _ Hs).
  replace (rows - n)%nat with O by lia. simpl. rewrite app_nil_r.
  destruct (r <? rows)%nat eqn:Er.
  - apply Nat.ltb_lt in Er. rewrite nth_firstn.
    replace (r <? rows)%nat with true by (symmetry; apply Nat.ltb_lt; exact Er).
    rewrite nth_map_row by (rewrite (square_length _ _ Hs); lia).
    unfold resize. rewrite (square_row _ _ _ Hs) by lia.
    replace (cols - n)%nat with O by lia. simpl. rewrite app_nil_r.
    rewrite nth_firstn. destruct (c <? cols)%nat; reflexivity.
  - rewrite nth_firstn, Er. destruct c; reflexivity.
Qed.

Lemma length_resize_mask n M7 rows cols :
  square n M7 -> (rows <= n)%nat ->
  length (resize rows [] (map (resize cols 0) M7)) = rows /\
  Forall (fun row => length row = cols) (resize rows [] (map (resize cols 0) M7)).
Proof.
  intros Hs HR. split; [apply length_resize|].
  unfold resize at 1. rewrite length_map, (square_length _ _ Hs).
  replace (rows - n)%nat with O by lia. simpl. rewrite app_nil_r.
  apply Forall_firstn. apply Forall_map, Forall_forall.
  intros row _. apply length_resize.
Qed.

Lemma rectangular_dims m :
  rectangular m ->
  (0 < Nat.max (length m) (length (hd [] m)))%nat.
Proof. intros [Hne _]. destruct m; [congruence|]. cbn [length]. lia. Qed.

(* The padded working matrix of a run on a rectangular input. *)
Lemma run_start original allow :
  rectangular original -> mask_values Int.in_range original ->
  let n := Nat.max (length original) (length (hd [] original)) in
  (allow = false /\ forall fuel, hungarian_run fuel original allow = Fail runtime_error) \/
  exists P, square n P /\ mask_values Int.in_range P /\
            forall fuel, hungarian_run fuel original allow =
                         work fuel (length original) (length (hd [] original))
                              (init_state P).
Proof.
  intros Hrect Hrange n.
  destruct (handle_negatives original allow) as [A [e|]] eqn:Hh.
  - left. assert (He : allow = false /\ e = runtime_error).
    { unfold handle_negatives in Hh.
      destruct (matrix_min original <? 0); [|discriminate].
      destruct allow; simpl in Hh; [discriminate|]. inversion Hh. auto. }
    destruct He as [Ea Ee]. split; [exact Ea|]. intros fuel.
    unfold hungarian_run.
    destruct original as [|row0 rest] eqn:Eo; [destruct Hrect; congruence|].
    rewrite <- Eo in *.
    rewrite (copy_original_rectangular _ Hrect), Hh, Ee. reflexivity.
  - right. exists (pad_matrix A).
    destruct (handle_negatives_rectangular _ _ _ Hrect Hh) as [HrA [HlA HcA]].
    split; [|split].
    + unfold n. rewrite <- HlA, <- HcA. apply pad_matrix_is_square. exact HrA.
    + apply pad_matrix_range. eapply handle_negatives_in_range; eassumption.
    + intros fuel. apply hungarian_run_rectangular; assumption.
Qed.

(* The loop on an N x N working matrix of ints ends within N (2N+5) + N + 5
   turns, in step 7 or outside the path buffer. *)
Lemma work_ends n P rows cols fuel :
  (0 < n)%nat -> square n P -> mask_values Int.in_range P ->
  (n * (2 * n + 5) + n + 5 <= fuel)%nat ->
  work fuel rows cols (init_state P) = Fail out_of_range \/
  exists s, work fuel rows cols (init_state P) = Ok s /\ step s = 7.
Proof.
  intros Hn HsP HrP Hfuel.
  destruct (work_dims n n rows cols fuel (init_state P)) as [Hfail Hok].
  destruct (work_terminates n fuel (n * W n + 4) (init_state P) Hn
              (init_run_inv n P HsP HrP)) as [Hf|[s Hs]].
  - unfold W. lia.
  - left. apply Hfail. exact Hf.
  - right. destruct (Hok s Hs) as [s2 [Hs2 Est]].
    exists s2. split; [exact Hs2|].
    rewrite Est. apply (work_final_values _ _ _ _ _ Hs).
Qed.

(** ** Where the path buffer is left *)

Lemma work_step_overrun fuel rows cols s :
  work_step fuel rows cols s = Fail out_of_range ->
  step s = 5 /\
  step5 fuel (path s) (path_row_0 s) (path_col_0 s) (M s) (RowCover s) (ColCover s)
    = Fail out_of_range.
Proof.
  intros H.
  destruct (step_cases (step s)) as [E|[E|[E|[E|[E|[E|[E|E]]]]]]].
  - rewrite (work_step_1 _ _ _ _ E) in H. discriminate.
  - destruct (step2 (matrix s) (M s) (RowCover s) (ColCover s))
      as [[[M' RC'] CC'] st'] eqn:E2.
    rewrite (work_step_2 _ _ _ _ _ _ _ _ E E2) in H. discriminate.
  - destruct (step3 (M s) (ColCover s)) as [CC' st'] eqn:E3.
    rewrite (work_step_3 _ _ _ _ _ _ E E3) in H. discriminate.
  - rewrite (work_step_4 _ _ _ _ E) in H.
    destruct (step4 _ _ _ _ _ _ _) as [[[[[[M' RC'] CC'] r0'] c0'] st']|e] eqn:E4;
      [discriminate|].
    unfold step4 in E4. apply step4_loop_failure in E4. subst e. discriminate.
  - split; [exact E|]. rewrite (work_step_5 _ _ _ _ E) in H.
    destruct (step5 _ _ _ _ _ _ _) as [[[[[p' M'] RC'] CC'] st']|e];
      [discriminate|congruence].
  - rewrite (work_step_6 _ _ _ _ E) in H. discriminate.
  - rewrite (work_step_7 _ _ _ _ E) in H. discriminate.
  - rewrite (work_step_other _ _ _ _ E) in H. discriminate.
Qed.

Lemma work_overrun rows cols m fuel : forall s0,
  reachable rows cols m s0 -> work fuel rows cols s0 = Fail out_of_range ->
  exists s5 f, reachable rows cols m s5 /\
               work_step f rows cols s5 = Fail out_of_range.
Proof.
  induction fuel as [|fuel IH]; intros s0 Hr H; simpl in H; [discriminate|].
  apply bind_fail in H. destruct H as [H|[[s' d] [H1 H2]]].
  - exists s0, fuel. auto.
  - simpl in H2. destruct d; [discriminate|].
    apply (IH s'); [|exact H2]. exact (reach_turn _ _ _ fuel s0 s' Hr H1).
Qed.

(* Step 5 never leaves a buffer that has room for the whole path,
   whatever number of turns its loop is given. *)
Lemma step5_never_overruns n M RC CC L r0 c0 fuel path :
  square n M -> aug_inv M L r0 c0 -> (2 * length L + 1 <= length path)%nat ->
  step5 fuel path (Z.of_nat r0) (Z.of_nat c0) M RC CC <> Fail out_of_range.
Proof.
  intros HsM Haug Hroom Hf.
  pose proof (step5_fuel fuel (fuel + S (length L)) _ _ _ _ _ _ _ Hf) as Hbig.
  destruct (step5_fits n M RC CC L r0 c0 (fuel + S (length L)) path HsM Haug)
    as [p' [M' [Hok _]]]; [lia|exact Hroom|].
  rewrite Hbig in Hok; [discriminate|discriminate|lia].
Qed.

(* On a working matrix of size 1 or 2 the N+1 rows of the buffer are enough. *)
Lemma small_work_no_overrun rows cols n P fuel :
  (n <= 2)%nat -> square n P ->
  work fuel rows cols (init_state P) <> Fail out_of_range.
Proof.
  intros Hn HsP Hf.
  destruct (work_overrun rows cols P fuel _ (reach_init _ _ _) Hf)
    as [s5 [f [Hr5 H5]]].
  destruct (work_step_overrun _ _ _ _ H5) as [E5 Hstep5].
  pose proof (reachable_struct _ _ n _ _ HsP Hr5) as Hinv.
  pose proof (reachable_path_length _ _ _ _ Hr5) as Hpl.
  rewrite (square_length _ _ HsP) in Hpl.
  destruct (struct_step5 n s5 Hinv E5) as [L [r0 [c0 [Er [Ec Haug]]]]].
  destruct Hinv as [_ [[HsM _] _]].
  pose proof (aug_rows_lt n _ _ _ _ HsM Haug) as HL.
  rewrite Er, Ec in Hstep5.
  apply (step5_never_overruns n (M s5) (RowCover s5) (ColCover s5) L r0 c0 f (path s5)
           HsM Haug); [lia|exact Hstep5].
Qed.

(** ** Step 6 without overflow *)

Lemma step2_next matrix M RC CC M' RC' CC' st' :
  step2 matrix M RC CC = (M', RC', CC', st') -> st' = 3.
Proof.
  unfold step2. destruct (fold_left _ _ _) as [[M1 RC1] CC1].
  intros H. inversion H. reflexivity.
Qed.

Lemma step3_next M CC CC' st' : step3 M CC = (CC', st') -> st' = 7 \/ st' = 4.
Proof.
  unfold step3. destruct (_ >=? _); intros H; inversion H; auto.
Qed.

Lemma step5_next fuel path r0 c0 M RC CC path' M' RC' CC' st' :
  step5 fuel path r0 c0 M RC CC = Ok (path', M', RC', CC', st') -> st' = 3.
Proof.
  unfold step5. intros H.
  apply bind_ok in H. destruct H as [path1 [_ H]].
  apply bind_ok in H. destruct H as [path2 [_ H]].
  apply bind_ok in H. destruct H as [[path3 pc] [_ H]].
  apply bind_ok in H. destruct H as [M2 [_ H]].
  inversion H. reflexivity.
Qed.

(* Step 6 is only entered from step 4, when no uncovered zero is left. *)
Lemma work_step_to6 n fuel rows cols s s' d :
  struct_inv n s -> work_step fuel rows cols s = Ok (s', d) -> step s' = 6 ->
  forall r c, (r < n)%nat -> (c < n)%nat ->
    uncovered_zero (matrix s') (RowCover s') (ColCover s') r c = false.
Proof.
  intros Hinv H E6.
  destruct (step_cases (step s)) as [E|[E|[E|[E|[E|[E|[E|E]]]]]]].
  - rewrite (work_step_1 _ _ _ _ E) in H. inversion H; subst. discriminate.
  - destruct (step2 (matrix s) (M s) (RowCover s) (ColCover s))
      as [[[M' RC'] CC'] st'] eqn:E2.
    rewrite (work_step_2 _ _ _ _ _ _ _ _ E E2) in H. inversion H; subst.
    apply step2_next in E2. simpl in E6. lia.
  - destruct (step3 (M s) (ColCover s)) as [CC' st'] eqn:E3.
    rewrite (work_step_3 _ _ _ _ _ _ E E3) in H. inversion H; subst.
    apply step3_next in E3. simpl in E6. lia.
  - destruct (struct_step4 n s Hinv (or_introl E)) as [L HL].
    destruct Hinv as [Hmx [Hsh [Hzm _]]].
    rewrite (work_step_4 _ _ _ _ E) in H.
    destruct (step4 _ _ _ _ _ _ _) as [res|e] eqn:E4; [|discriminate].
    unfold step4 in E4.
    pose proof (step4_loop_spec n _ _ _ _ _ _ _ _ _ Hmx Hsh Hzm HL E4) as Hpost.
    destruct res as [[[[[M' RC'] CC'] r0'] c0'] st'].
    inversion H; subst; clear H. simpl in *.
    destruct Hpost as [_ [_ [_ [[_ [L' [_ [Hno _]]]]|[E5 _]]]]]; [exact Hno|lia].
  - rewrite (work_step_5 _ _ _ _ E) in H.
    destruct (step5 _ _ _ _ _ _ _) as [[[[[p' M'] RC'] CC'] st']|e] eqn:E5;
      [|discriminate].
    inversion H; subst. apply step5_next in E5. simpl in E6. lia.
  - rewrite (work_step_6 _ _ _ _ E) in H. inversion H; subst. discriminate.
  - rewrite (work_step_7 _ _ _ _ E) in H. inversion H; subst. simpl in E6. lia.
  - rewrite (work_step_other _ _ _ _ E) in H. inversion H; subst. lia.
Qed.

Lemma reachable_no_zero6 rows cols n m s :
  square n m -> reachable rows cols m s -> step s = 6 ->
  forall r c, (r < n)%nat -> (c < n)%nat ->
    uncovered_zero (matrix s) (RowCover s) (ColCover s) r c = false.
Proof.
  intros Hs Hr. destruct Hr as [|fuel s0 s1 Hr0 H]; [discriminate|].
  apply (work_step_to6 n fuel rows cols s0 s1 false); [|exact H].
  exact (reachable_struct _ _ n _ _ Hs Hr0).
Qed.

(* With entries of A up to K and 2K within the int range, the additions and
   subtractions of step 6 are exact. *)
Lemma step6_entries n A K matrix M RC CC L u v :
  square n matrix -> mask_values Int.in_range matrix ->
  shape n M RC CC -> search_inv n M RC CC L -> zero_marks matrix M ->
  (forall r c, (r < n)%nat -> (c < n)%nat -> 0 <= get A r c <= K) ->
  2 * K <= Int.max ->
  potentials n A (get matrix) M u v ->
  let m := find_smallest Int.max matrix RC CC in
  0 <= m /\
  forall r c, (r < n)%nat -> (c < n)%nat ->
    get (fst (step6 matrix RC CC)) r c =
      get matrix r c + (if nth r RC 0 =? 1 then m else 0)
                     - (if nth c CC 0 =? 0 then m else 0) /\
    0 <= get (fst (step6 matrix RC CC)) r c <= 2 * K.
Proof.
  intros Hmx Hrange [HsM [HlR [HlC [HbR HbC]]]]
         [Hmatch [Hcov [Hpc [Hpu [HL [Hord [[r0 [Hr0 Hno0]] [c0 [Hc0 Hu0]]]]]]]]]
         Hzm HA HK Hpot m.
  pose proof Hpot as [H1 [H2 [H3 H4]]].
  destruct (find_smallest_spec n matrix RC CC Int.max Hmx) as [Hmle [Hmin Hatt]].
  fold m in Hmle, Hmin, Hatt.
  assert (Hm0 : 0 <= m).
  { destruct Hatt as [->|[r [c [Hr [Hc [_ ->]]]]]]; [unfold Int.max; lia|].
    apply H2; assumption. }
  split; [exact Hm0|].
  assert (Hunm : forall r, (forall c, ~ star M r c) -> nth r RC 0 <> 1).
  { intros r Hno E. apply HL in E. destruct (ord_star M L r Hord E) as [c Hc].
    exact (Hno _ Hc). }
  set (dr := fun r => if nth r RC 0 =? 1 then m else 0).
  set (dc := fun c => if nth c CC 0 =? 0 then m else 0).
  set (E' := fun r c => get matrix r c + dr r - dc c).
  assert (Hpot' : potentials n A E' M (fun r => u r - dr r) (fun c => v c + dc c)).
  { split; [|split; [|split]].
    - intros r c Hr Hc. unfold E'. rewrite (H1 r c Hr Hc). lia.
    - intros r c Hr Hc. unfold E', dr, dc. pose proof (H2 r c Hr Hc) as Hpos.
      destruct (nth r RC 0 =? 1) eqn:ER, (nth c CC 0 =? 0) eqn:EC; try lia.
      apply Z.eqb_neq in ER. apply Z.eqb_eq in EC.
      assert (uncovered RC CC r c).
      { split; [|exact EC]. destruct (bin_nth RC r HbR); [assumption|contradiction]. }
      pose proof (Hmin r c Hr Hc H). lia.
    - intros c Hc. unfold dc. pose proof (H3 c Hc).
      destruct (nth c CC 0 =? 0); lia.
    - intros r Hr Hno. unfold dr. pose proof (H4 r Hr Hno).
      apply Hunm in Hno. apply Z.eqb_neq in Hno. rewrite Hno. lia. }
  assert (Hz' : forall r c, star M r c -> E' r c = 0).
  { intros r c Hst. unfold E', dr, dc.
    rewrite (Hzm r c (or_introl Hst)). pose proof (Hcov r c Hst) as Hc1.
    destruct (bin_nth RC r HbR) as [ER|ER], (bin_nth CC c HbC) as [EC|EC];
      rewrite ER, EC in *; simpl; lia. }
  pose proof (entries_bound n A K E' M _ _ r0 HsM Hpot' HA Hz' Hr0 Hno0) as Hbound.
  intros r c Hr Hc. rewrite (step6_get n) by assumption. fold m.
  assert (Hx : Int.in_range (get matrix r c)).
  { apply mask_values_get; [exact Hrange|].
    unfold Int.in_range, Int.min, Int.max. lia. }
  pose proof (Hbound r c Hr Hc) as Hub.
  destruct Hpot' as [_ [Hpos' _]]. pose proof (Hpos' r c Hr Hc) as Hlb.
  unfold adjust, E', dr, dc in *.
  destruct (nth r RC 0 =? 1), (nth c CC 0 =? 0).
  - rewrite add_sub_cancel by exact Hx. lia.
  - unfold Int.add. rewrite wrap_in_range; [lia|].
    unfold Int.in_range, Int.min, Int.max in *. lia.
  - unfold Int.sub. rewrite wrap_in_range; [lia|].
    unfold Int.in_range, Int.min, Int.max in *. lia.
  - lia.
Qed.

(** ** The cost of an assignment in the working matrix *)

Lemma potentials_cost n A (w : matrix_t) u v sigma :
  (forall r c, (r < n)%nat -> (c < n)%nat -> get w r c = get A r c - u r - v c) ->
  Permutation (seq 0 n) sigma ->
  assignment_cost w sigma =
  assignment_cost A sigma - (sumZ (map u (seq 0 n)) + sumZ (map v (seq 0 n))).
Proof.
  intros He Hp.
  pose proof (Permutation_length Hp) as Hl. rewrite length_seq in Hl.
  assert (Hlt : forall i, (i < n)%nat -> (nth i sigma O < n)%nat).
  { intros i Hi.
    assert (In (nth i sigma O) (seq 0 n)).
    { apply (Permutation_in _ (Permutation_sym Hp)). apply nth_In. lia. }
    apply in_seq in H. lia. }
  assert (Hv : sumZ (map v (seq 0 n)) = sumZ (map (fun i => v (nth i sigma O)) (seq 0 n))).
  { rewrite <- (map_map (fun i => nth i sigma O) v).
    assert (Hm : map (fun i => nth i sigma O) (seq 0 n) = sigma).
    { rewrite Hl. apply map_nth_seq. }
    rewrite Hm. apply sumZ_perm, Permutation_map. exact Hp. }
  unfold assignment_cost. rewrite <- Hl, Hv.
  assert (Hsplit : sumZ (map (fun i => get A i (nth i sigma O)) (seq 0 n)) =
            sumZ (map (fun i => get w i (nth i sigma O) + (u i + v (nth i sigma O)))
                      (seq 0 n))).
  { apply sumZ_map_eq. intros i Hi. apply in_seq in Hi.
    rewrite (He i (nth i sigma O)) by (try apply Hlt; lia). lia. }
  rewrite Hsplit, sumZ_map_add, sumZ_map_add. lia.
Qed.

(** * The claims of the specification *)

(** ** Concrete runs *)

(** C10, as stated: on [[25,40,35],[40,60,35],[20,40,25]] the solver does not
    return 60, whatever number of loop iterations it is given. *)
Lemma sample_3x3_cost_not_60 :
  ~ exists fuel, hungarian fuel sample_3x3 true = Ok 60.
Proof.
  intros [fuel H].
  assert (H' : hungarian (fuel + 12) sample_3x3 true = Ok 60).
  { apply (hungarian_fuel fuel); [exact H|discriminate|lia]. }
  assert (H8 : hungarian (fuel + 12) sample_3x3 true = Ok 95).
  { apply (hungarian_fuel 12); [vm_compute; reflexivity|discriminate|lia]. }
  rewrite H8 in H'. discriminate.
Qed.

(** C10, amended: on [[25,40,35],[40,60,35],[20,40,25]] with negatives
    allowed the solver returns 95, which is the least cost of a one-to-one
    assignment of the three rows to the three columns. *)
Theorem sample_3x3_cost :
  (exists fuel, hungarian fuel sample_3x3 true = Ok 95) /\
  is_min_assignment 3 sample_3x3 95.
Proof.
  split; [exists 12%nat; vm_compute; reflexivity|].
  split.
  - exists [1; 2; 0]%nat. split; [|vm_compute; reflexivity].
    apply perm_trans with [1; 0; 2]%nat; [apply perm_swap|].
    apply perm_skip, perm_swap.
  - intros sigma Hp.
    pose proof (Permutation_length Hp) as Hlen.
    pose proof (Permutation_NoDup Hp (seq_NoDup 3 0)) as Hnd.
    assert (Hin : forall x, In x sigma -> (x < 3)%nat).
    { intros x Hx. apply (Permutation_in _ (Permutation_sym Hp)) in Hx.
      apply in_seq in Hx. lia. }
    destruct sigma as [|a [|b [|c [|d sigma]]]]; try discriminate.
    assert (Ha := Hin a (or_introl eq_refl)).
    assert (Hb := Hin b (or_intror (or_introl eq_refl))).
    assert (Hc := Hin c (or_intror (or_intror (or_introl eq_refl)))).
    inversion Hnd as [|? ? Hna Hnd1]; subst.
    inversion Hnd1 as [|? ? Hnb Hnd2]; subst.
    simpl in Hna, Hnb.
    destruct a as [|[|[|a]]]; try lia;
      destruct b as [|[|[|b]]]; try lia;
      destruct c as [|[|[|c]]]; try lia;
      try (exfalso; apply Hna; auto; fail);
      try (exfalso; apply Hnb; auto; fail);
      vm_compute; discriminate.
Qed.

(** C4, at the failing input: on [[0,0,5],[5,0,0],[0,5,5]] the loop never
    reaches step 7; the run ends in step 5 with an access outside the path
    buffer.  That access is the only obstacle: a run on a square matrix
    that stays inside the buffer ends in step 7 ([square_run_ends]). *)
Theorem long_path_run_overruns :
  (forall fuel s, hungarian_run fuel long_path_3x3 true <> Ok s) /\
  hungarian_run 8 long_path_3x3 true = Fail out_of_range.
Proof.
  split; [|vm_compute; reflexivity].
  intros fuel s H.
  assert (H' : hungarian_run (fuel + 8) long_path_3x3 true = Ok s).
  { apply (hungarian_run_fuel fuel); [exact H|discriminate|lia]. }
  assert (H8 : hungarian_run (fuel + 8) long_path_3x3 true = Fail out_of_range).
  { apply (hungarian_run_fuel 8); [vm_compute; reflexivity|discriminate|lia]. }
  rewrite H8 in H'. discriminate.
Qed.

(** C5, at the failing input: on [[0,0,5],[5,0,0],[0,5,5]] the run enters
    step 5 after four turns of the loop with a path buffer of N+1 = 4 rows;
    the alternating path from the primed zero (2,0) has five pairs, and
    step 5 indexes the buffer at row 4, outside its bounds. *)
Theorem long_path_step5_out_of_bounds :
  exists s,
    work_n 4 8 3 3 (init_state (pad_matrix long_path_3x3)) = Ok s /\
    step s = 5 /\
    length (path s) = 4%nat /\
    M s = [[1; 2; 0]; [0; 1; 2]; [2; 0; 0]] /\
    (path_row_0 s, path_col_0 s) = (2, 0) /\
    path_read (path s) 4 = Fail out_of_range /\
    forall fuel, (3 <= fuel)%nat ->
      step5 fuel (path s) (path_row_0 s) (path_col_0 s)
            (M s) (RowCover s) (ColCover s) = Fail out_of_range.
Proof.
  eexists. split; [vm_compute; reflexivity|]. simpl.
  repeat split.
  intros fuel Hf.
  apply (step5_fuel 3); [vm_compute; reflexivity|discriminate|exact Hf].
Qed.

(** C8, as stated: a matrix of one row with zero columns is not rejected;
    the solver runs its steps and returns the cost 0. *)
Lemma zero_columns_not_rejected :
  hungarian 4 [[]] true = Ok 0 /\
  ~ exists fuel e, hungarian fuel [[]] true = Fail e /\ e <> out_of_fuel.
Proof.
  split; [vm_compute; reflexivity|].
  intros [fuel [e [H Hne]]].
  assert (H' : hungarian (fuel + 4) [[]] true = Fail e).
  { apply (hungarian_fuel fuel); [exact H|congruence|lia]. }
  assert (H4 : hungarian (fuel + 4) [[]] true = Ok 0).
  { apply (hungarian_fuel 4); [vm_compute; reflexivity|discriminate|lia]. }
  rewrite H4 in H'. discriminate.
Qed.

(** ** Negative values *)

(** C7: with allow_negatives = false, a rectangular input that has a negative
    entry makes the solver fail with the exception of handle_negatives, and
    neither the caller's matrix nor the working copy is changed when it is
    thrown; an input without a negative entry never raises this exception,
    whatever the flag. *)
Theorem negative_values_rejected (original : matrix_t) (fuel : nat) :
  rectangular original ->
  ((exists row x, In row original /\ In x row /\ x < 0) ->
     hungarian fuel original false = Fail runtime_error /\
     handle_negatives (copy_original original) false
       = (original, Some runtime_error)) /\
  ((forall row x, In row original -> In x row -> 0 <= x) ->
     forall allow, hungarian fuel original allow <> Fail runtime_error).
Proof.
  intros Hrect. pose proof (copy_original_rectangular _ Hrect) as Hcopy.
  destruct Hrect as [Hne _]. split.
  - intros Hneg. apply matrix_min_neg in Hneg.
    assert (Hh : handle_negatives (copy_original original) false
                 = (original, Some runtime_error)).
    { rewrite Hcopy. unfold handle_negatives.
      apply Z.ltb_lt in Hneg. rewrite Hneg. reflexivity. }
    split; [|exact Hh].
    unfold hungarian, hungarian_run.
    destruct original as [|row0 rest]; [congruence|].
    rewrite Hh. reflexivity.
  - intros Hpos allow H.
    unfold hungarian in H. apply bind_fail in H.
    destruct H as [H|[s [_ H]]]; [|discriminate].
    unfold hungarian_run in H.
    destruct original as [|row0 rest]; [congruence|].
    rewrite Hcopy in H. unfold handle_negatives in H.
    destruct (matrix_min (row0 :: rest) <? 0) eqn:E.
    + apply Z.ltb_lt, matrix_min_neg in E.
      destruct E as [row [x [Hr [Hx Hn]]]].
      specialize (Hpos row x Hr Hx). lia.
    + apply work_failure in H. destruct H; discriminate.
Qed.

Lemma negative_values_rejected_witness :
  hungarian 0 negative_2x2 false = Fail runtime_error /\
  handle_negatives (copy_original negative_2x2) false
    = (negative_2x2, Some runtime_error).
Proof.
  apply (negative_values_rejected negative_2x2 0).
  - split; [discriminate|]. repeat constructor.
  - exists [1; -2], (-2). simpl. split; [auto|]. split; [auto|lia].
Defined.

(** ** The adjustment of step 6 *)

(** C6, as stated: in the run on [[1,2,3],[2,4,6],[3,6,9]] the loop enters
    step 6 after eleven turns with row 0 and column 0 both covered, and
    step 6 changes the entry (0,0) from 0 to 1. *)
Lemma doubly_covered_entry_changes :
  exists s,
    work_n 11 20 3 3 (init_state (pad_matrix multiples_3x3)) = Ok s /\
    step s = 6 /\
    nth 0 (RowCover s) 0 = 1 /\ nth 0 (ColCover s) 0 = 1 /\
    get (matrix s) 0 0 = 0 /\
    get (fst (step6 (matrix s) (RowCover s) (ColCover s))) 0 0 = 1.
Proof.
  eexists. split; [vm_compute; reflexivity|].
  repeat split.
Qed.

(** C6, amended: step 6 leaves unchanged every entry covered by exactly one
    line (row covered and column uncovered, where the minimum uncovered
    value is added and subtracted again, or row uncovered and column
    covered, which is not touched); an entry whose row and column are both
    covered is increased by the minimum uncovered value, and an entry whose
    row and column are both uncovered is decreased by it. *)
Theorem step6_adjustment (n : nat) (matrix : matrix_t) (RC CC : list Z) (r c : nat) :
  square n matrix -> (r < n)%nat -> (c < n)%nat ->
  let minval := find_smallest Int.max matrix RC CC in
  let x := get matrix r c in
  let x' := get (fst (step6 matrix RC CC)) r c in
  (nth r RC 0 = 1 -> nth c CC 0 = 0 -> Int.in_range x -> x' = x) /\
  (nth r RC 0 <> 1 -> nth c CC 0 <> 0 -> x' = x) /\
  (nth r RC 0 = 1 -> nth c CC 0 <> 0 -> x' = Int.add x minval) /\
  (nth r RC 0 <> 1 -> nth c CC 0 = 0 -> x' = Int.sub x minval).
Proof.
  intros Hs Hr Hc minval x x'. subst x'.
  rewrite (step6_get n) by assumption. fold minval. fold x.
  unfold adjust.
  repeat split; intros HR HC; try intros Hx.
  - rewrite HR, HC. simpl. apply add_sub_cancel. exact Hx.
  - apply Z.eqb_neq in HR, HC. rewrite HR, HC. reflexivity.
  - apply Z.eqb_neq in HC. rewrite HR, HC. reflexivity.
  - apply Z.eqb_neq in HR. rewrite HR, HC. reflexivity.
Qed.

Lemma step6_adjustment_witness :
  let matrix := [[0; 0; 0]; [0; 1; 2]; [0; 2; 4]] in
  let RC := [1; 0; 0] in
  let CC := [1; 0; 0] in
  (get (fst (step6 matrix RC CC)) 0 1 = 0) /\
  (get (fst (step6 matrix RC CC)) 1 0 = 0) /\
  (get (fst (step6 matrix RC CC)) 0 0 = Int.add 0 1) /\
  (get (fst (step6 matrix RC CC)) 1 1 = Int.sub 1 1).
Proof.
  intros matrix RC CC.
  assert (Hs : square 3 matrix) by (split; [reflexivity|repeat constructor]).
  destruct (step6_adjustment 3 matrix RC CC 0 1 Hs) as [H01 _]; [lia|lia|].
  destruct (step6_adjustment 3 matrix RC CC 1 0 Hs) as [_ [H10 _]]; [lia|lia|].
  destruct (step6_adjustment 3 matrix RC CC 0 0 Hs) as [_ [_ [H00 _]]]; [lia|lia|].
  destruct (step6_adjustment 3 matrix RC CC 1 1 Hs) as [_ [_ [_ H11]]]; [lia|lia|].
  split; [|split; [|split]].
  - apply H01; [reflexivity|reflexivity|]. vm_compute. split; discriminate.
  - apply H10; simpl; lia.
  - apply H00; [reflexivity|simpl; lia].
  - apply H11; [simpl; lia|reflexivity].
Defined.

(** ** Arithmetic *)




(** ** The reported cost *)

(** C3, as stated: on [[2000000000,2147483647],[2147483647,2000000000]] the
    final mask stars the diagonal, whose entries sum to 4000000000, but the
    solver returns -294967296: the sum is taken in the element type and
    wraps around. *)
Lemma reported_cost_wraps :
  exists s,
    hungarian_run 12 large_2x2 true = Ok s /\
    starred_sum large_2x2 (M s) = 4000000000 /\
    hungarian 12 large_2x2 true = Ok (-294967296) /\
    forall fuel v, hungarian fuel large_2x2 true = Ok v ->
                   v <> starred_sum large_2x2 (M s).
Proof.
  eexists. split; [vm_compute; reflexivity|].
  split; [vm_compute; reflexivity|]. split; [vm_compute; reflexivity|].
  intros fuel v H.
  assert (H' : hungarian (fuel + 12) large_2x2 true = Ok v).
  { apply (hungarian_fuel fuel); [exact H|discriminate|lia]. }
  assert (H12 : hungarian (fuel + 12) large_2x2 true = Ok (-294967296)).
  { apply (hungarian_fuel 12); [vm_compute; reflexivity|discriminate|lia]. }
  rewrite H12 in H'. inversion H'; subst. vm_compute. discriminate.
Qed.

(** C3, amended: whenever the solver returns a value, the loop has ended in
    step 7 and the value is the sum, taken in the element type, of the
    entries of the original matrix at the cells that the final mask, cut
    down to the rows and columns of the original, marks as starred: it is
    the exact sum whenever that sum lies within the int range, and the sum
    wrapped around otherwise.  Neither the shifted nor the padded working
    matrix enters the reported cost. *)
Theorem reported_cost_is_starred_sum
    (original : matrix_t) (allow_negatives : bool) (fuel : nat) (v : Z) :
  hungarian fuel original allow_negatives = Ok v ->
  exists s,
    hungarian_run fuel original allow_negatives = Ok s /\
    step s = 7 /\
    v = Int.wrap (starred_sum original (M s)) /\
    (Int.in_range (starred_sum original (M s)) -> v = starred_sum original (M s)).
Proof.
  intros H. unfold hungarian in H.
  apply bind_ok in H. destruct H as [s [Hrun H]].
  inversion H; subst; clear H.
  exists s. split; [exact Hrun|].
  unfold hungarian_run in Hrun.
  destruct original as [|row0 rest] eqn:Eo; [discriminate|]. rewrite <- Eo in *.
  destruct (handle_negatives _ _) as [m [e|]]; [discriminate|].
  destruct (work_final_values _ _ _ _ _ Hrun) as [E7 H01].
  split; [exact E7|].
  rewrite (output_solution_sum _ _ H01). split; [reflexivity|].
  apply wrap_in_range.
Qed.

Lemma reported_cost_is_starred_sum_witness :
  exists s,
    hungarian_run 12 sample_3x3 true = Ok s /\
    step s = 7 /\
    95 = Int.wrap (starred_sum sample_3x3 (M s)) /\
    (Int.in_range (starred_sum sample_3x3 (M s)) ->
     95 = starred_sum sample_3x3 (M s)).
Proof.
  apply (reported_cost_is_starred_sum sample_3x3 true 12 95).
  vm_compute. reflexivity.
Defined.

(** ** The final mask *)

(** C2: for every square N x N input, when the loop ends it has ended in
    step 7 and the mask then holds exactly N starred cells, one in every
    row and one in every column. *)
Theorem final_mask_is_permutation
    (n : nat) (original : matrix_t) (allow_negatives : bool) (fuel : nat) (s : state) :
  square n original ->
  hungarian_run fuel original allow_negatives = Ok s ->
  step s = 7 /\ permutation_matrix n (M s).
Proof.
  intros Hs H.
  assert (Hn : (0 < n)%nat).
  { destruct Hs as [Hl _]. destruct original; [discriminate H|simpl in Hl; lia]. }
  destruct (hungarian_run_start n original allow_negatives fuel s Hn Hs H)
    as [m [_ [Hm Hwork]]].
  destruct (work_final_struct n fuel m s Hm Hwork) as [Hinv E7].
  split; [exact E7|].
  destruct Hinv as [_ [[HsM _] [_ Hcase]]].
  destruct Hcase as [[[E|E] _]|[[E _]|[[[E|E] _]|[[E _]|[_ [Hmatch Hall]]]]]];
    try (rewrite E7 in E; discriminate).
  apply complete_matching_permutation; assumption.
Qed.

Lemma final_mask_is_permutation_witness :
  exists s, hungarian_run 12 sample_3x3 true = Ok s /\
            step s = 7 /\ permutation_matrix 3 (M s).
Proof.
  eexists. split; [vm_compute; reflexivity|].
  apply (final_mask_is_permutation 3 sample_3x3 true 12).
  - split; [reflexivity|repeat constructor].
  - vm_compute. reflexivity.
Defined.

(** ** Optimality *)

(** C1, at the failing input: on [[1,2,3],[2,4,6],[3,6,9]], with negatives
    allowed, the cheapest one-to-one assignment of rows to columns costs 10,
    but the solver returns no value at all: whatever number of turns it is
    given, the run ends in step 5 with an access outside the path buffer. *)
Theorem multiples_3x3_not_solved :
  is_min_assignment 3 multiples_3x3 10 /\
  hungarian 16 multiples_3x3 true = Fail out_of_range /\
  forall fuel v, hungarian fuel multiples_3x3 true <> Ok v.
Proof.
  split; [|split; [vm_compute; reflexivity|]].
  - split.
    + exists [2; 1; 0]%nat. split; [|vm_compute; reflexivity].
      apply perm_trans with [1; 0; 2]%nat; [apply perm_swap|].
      apply perm_trans with [1; 2; 0]%nat; [apply perm_skip, perm_swap|].
      apply perm_swap.
    + intros sigma Hp.
      pose proof (Permutation_length Hp) as Hlen.
      pose proof (Permutation_NoDup Hp (seq_NoDup 3 0)) as Hnd.
      assert (Hin : forall x, In x sigma -> (x < 3)%nat).
      { intros x Hx. apply (Permutation_in _ (Permutation_sym Hp)) in Hx.
        apply in_seq in Hx. lia. }
      destruct sigma as [|a [|b [|c [|d sigma]]]]; try discriminate.
      assert (Ha := Hin a (or_introl eq_refl)).
      assert (Hb := Hin b (or_intror (or_introl eq_refl))).
      assert (Hc := Hin c (or_intror (or_intror (or_introl eq_refl)))).
      inversion Hnd as [|? ? Hna Hnd1]; subst.
      inversion Hnd1 as [|? ? Hnb Hnd2]; subst.
      simpl in Hna, Hnb.
      destruct a as [|[|[|a]]]; try lia;
        destruct b as [|[|[|b]]]; try lia;
        destruct c as [|[|[|c]]]; try lia;
        try (exfalso; apply Hna; auto; fail);
        try (exfalso; apply Hnb; auto; fail);
        vm_compute; discriminate.
  - intros fuel v H.
    assert (H' : hungarian (fuel + 16) multiples_3x3 true = Ok v).
    { apply (hungarian_fuel fuel); [exact H|discriminate|lia]. }
    assert (H16 : hungarian (fuel + 16) multiples_3x3 true = Fail out_of_range).
    { apply (hungarian_fuel 16); [vm_compute; reflexivity|discriminate|lia]. }
    rewrite H16 in H'. discriminate.
Qed.

(** ** Inputs without columns *)

(** C8, amended: an input with at least one row whose rows all have zero
    columns is not rejected: the solver pads it to an R x R matrix of the
    maximum value, runs steps 1, 2, 3 and 7 and returns the cost 0; an
    EmptyMatrix error does not exist.  (An input with zero rows is left
    out: the source dereferences begin() of the empty container.) *)
Theorem zero_columns_cost_zero (original : matrix_t) (allow_negatives : bool) :
  original <> [] -> Forall (fun row => row = []) original ->
  (exists s, hungarian_run 4 original allow_negatives = Ok s /\ step s = 7) /\
  hungarian 4 original allow_negatives = Ok 0.
Proof.
  intros Hne Hrows.
  destruct (zero_columns_run original allow_negatives Hne Hrows) as [s [Hrun E7]].
  split; [exists s; auto|].
  unfold hungarian. rewrite Hrun. cbn [bind]. f_equal.
  unfold output_solution.
  destruct original as [|row0 rest]; [congruence|].
  inversion Hrows; subst. reflexivity.
Qed.

Lemma zero_columns_cost_zero_witness :
  (exists s, hungarian_run 4 [[]; []] true = Ok s /\ step s = 7) /\
  hungarian 4 [[]; []] true = Ok 0.
Proof.
  apply (zero_columns_cost_zero [[]; []] true).
  - discriminate.
  - repeat constructor.
Defined.

(** * Further properties of the code *)

(** ** Preprocessing *)

(** X1: handle_negatives with negatives allowed, on a matrix whose smallest
    entry is negative: as long as no entry minus that minimum leaves the int
    range, every entry x becomes x - min exactly, so no entry is negative
    afterwards and at least one entry is 0. *)
Theorem handle_negatives_creates_zero (m : matrix_t) :
  matrix_min m < 0 -> - Int.max <= matrix_min m ->
  mask_values (fun x => x - matrix_min m <= Int.max) m ->
  exists A,
    handle_negatives m true = (A, None) /\
    (forall r c, (r < length m)%nat -> (c < length (nth r m []))%nat ->
       get A r c = get m r c - matrix_min m /\ 0 <= get A r c) /\
    (exists r c, (r < length m)%nat /\ (c < length (nth r m []))%nat /\ get A r c = 0).
Proof.
  intros Hneg Hlow Hup.
  assert (Habs : Int.abs (matrix_min m) = - matrix_min m).
  { unfold Int.abs. rewrite Z.abs_neq by lia. apply wrap_in_range.
    unfold Int.in_range, Int.min, Int.max in *. lia. }
  assert (Hget : forall r c, (r < length m)%nat -> (c < length (nth r m []))%nat ->
            get (fst (handle_negatives m true)) r c = get m r c - matrix_min m /\
            0 <= get m r c - matrix_min m).
  { intros r c Hr Hc. rewrite handle_negatives_get by assumption.
    destruct (get_In m r c Hr Hc) as [Hrow Hx].
    pose proof (matrix_min_le m _ _ Hrow Hx) as Hle.
    unfold mask_values in Hup. rewrite Forall_forall in Hup.
    specialize (Hup _ Hrow). rewrite Forall_forall in Hup. specialize (Hup _ Hx).
    rewrite Habs. unfold Int.add. split; [|lia].
    replace (get m r c + - matrix_min m) with (get m r c - matrix_min m) by lia.
    apply wrap_in_range. unfold Int.in_range, Int.min, Int.max in *. lia. }
  exists (fst (handle_negatives m true)). split; [|split].
  - unfold handle_negatives. apply Z.ltb_lt in Hneg. rewrite Hneg. reflexivity.
  - intros r c Hr Hc. destruct (Hget r c Hr Hc) as [E Hpos]. rewrite E. auto.
  - destruct (matrix_min_attained m) as [E|[row [x [Hrow [Hx E]]]]].
    { unfold Int.max in E. lia. }
    destruct (In_nth _ _ [] Hrow) as [r [Hr Er]]. subst row.
    destruct (In_nth _ _ 0 Hx) as [c [Hc Ec]].
    exists r, c. split; [exact Hr|]. split; [exact Hc|].
    destruct (Hget r c Hr Hc) as [E' _]. rewrite E'. unfold get. lia.
Qed.

Lemma handle_negatives_creates_zero_witness :
  exists A,
    handle_negatives negative_2x2 true = (A, None) /\
    (forall r c, (r < length negative_2x2)%nat ->
                 (c < length (nth r negative_2x2 []))%nat ->
       get A r c = get negative_2x2 r c - matrix_min negative_2x2 /\ 0 <= get A r c) /\
    (exists r c, (r < length negative_2x2)%nat /\
                 (c < length (nth r negative_2x2 []))%nat /\ get A r c = 0).
Proof.
  apply (handle_negatives_creates_zero negative_2x2).
  - vm_compute. reflexivity.
  - vm_compute. discriminate.
  - unfold mask_values. repeat constructor; vm_compute; discriminate.
Defined.

(** X2: a matrix without a negative entry passes handle_negatives unchanged
    and without an exception, whether negatives are allowed or not. *)
Theorem handle_negatives_keeps_nonnegative (m : matrix_t) (allowed : bool) :
  mask_values (fun x => 0 <= x) m -> handle_negatives m allowed = (m, None).
Proof.
  intros Hpos. unfold handle_negatives.
  rewrite (matrix_min_nonneg m Hpos). reflexivity.
Qed.

Lemma handle_negatives_keeps_nonnegative_witness :
  handle_negatives sample_3x3 false = (sample_3x3, None).
Proof.
  apply (handle_negatives_keeps_nonnegative sample_3x3 false).
  unfold mask_values. repeat constructor; vm_compute; discriminate.
Defined.

(** X3: pad_matrix turns a matrix of R rows and C columns into a square
    matrix of size max(R, C): the entries of the R x C region are kept and
    every added entry is the largest int. *)
Theorem pad_matrix_square_of_max (m : matrix_t) :
  rectangular m ->
  let R := length m in
  let C := length (hd [] m) in
  let n := Nat.max R C in
  square n (pad_matrix m) /\
  forall r c, (r < n)%nat -> (c < n)%nat ->
    get (pad_matrix m) r c =
    if ((r <? R) && (c <? C))%nat then get m r c else Int.max.
Proof.
  intros Hrect R C n.
  assert (Hrow : forall r, (r < R)%nat -> length (nth r m []) = C).
  { intros r Hr. apply rectangular_row; assumption. }
  destruct Hrect as [_ Hrows].
  unfold pad_matrix. rewrite hd_nth0. fold R. fold C.
  destruct (C <? R)%nat eqn:E1; [|destruct (R <? C)%nat eqn:E2].
  - apply Nat.ltb_lt in E1. assert (En : n = R) by (unfold n; lia).
    rewrite En. split.
    + split; [apply length_map|]. apply Forall_map, Forall_forall.
      intros row _. apply length_resize.
    + intros r c Hr Hc. unfold get. rewrite nth_map_row by exact Hr.
      rewrite nth_resize_max by (rewrite ?Hrow by exact Hr; lia).
      rewrite (Hrow r Hr). apply Nat.ltb_lt in Hr. rewrite Hr. reflexivity.
  - apply Nat.ltb_lt in E2. assert (En : n = C) by (unfold n; lia).
    rewrite En. split.
    + split; [rewrite length_app, repeat_length; fold R; lia|].
      apply Forall_app. split; [exact Hrows|].
      apply Forall_forall. intros row Hin. apply repeat_spec in Hin. subst row.
      apply repeat_length.
    + intros r c Hr Hc. unfold get.
      destruct (r <? R)%nat eqn:Er.
      * apply Nat.ltb_lt in Er. rewrite app_nth1 by exact Er.
        apply Nat.ltb_lt in Hc. rewrite Hc. reflexivity.
      * apply Nat.ltb_ge in Er. rewrite app_nth2 by exact Er. fold R.
        rewrite nth_repeat_lt by lia. apply nth_repeat_lt. exact Hc.
  - apply Nat.ltb_ge in E1, E2. assert (En : n = R) by (unfold n; lia).
    assert (EC : C = R) by lia. rewrite En. split.
    + split; [reflexivity|]. rewrite <- EC. exact Hrows.
    + intros r c Hr Hc. rewrite EC.
      apply Nat.ltb_lt in Hr, Hc. rewrite Hr, Hc. reflexivity.
Qed.

Lemma pad_matrix_square_of_max_witness :
  square 3 (pad_matrix [[1; 2; 3]; [4; 5; 6]]) /\
  forall r c, (r < 3)%nat -> (c < 3)%nat ->
    get (pad_matrix [[1; 2; 3]; [4; 5; 6]]) r c =
    if ((r <? 2) && (c <? 3))%nat then get [[1; 2; 3]; [4; 5; 6]] r c else Int.max.
Proof.
  apply (pad_matrix_square_of_max [[1; 2; 3]; [4; 5; 6]]).
  split; [discriminate|]. repeat constructor.
Defined.

(** ** Steps 1 to 3 *)

(** X4: step 1 on a square matrix of non-negative ints subtracts from every
    row its smallest entry, exactly: afterwards no entry is negative and
    every row holds a 0.  The next step is 2. *)
Theorem step1_reduces_rows (n : nat) (m : matrix_t) :
  (0 < n)%nat -> square n m ->
  (forall r c, (r < n)%nat -> (c < n)%nat -> 0 <= get m r c <= Int.max) ->
  snd (step1 m) = 2 /\
  square n (fst (step1 m)) /\
  forall r, (r < n)%nat ->
    (forall c, (c < n)%nat ->
       get (fst (step1 m)) r c = get m r c - min_element (nth r m []) /\
       0 <= get (fst (step1 m)) r c) /\
    (exists c, (c < n)%nat /\ get (fst (step1 m)) r c = 0).
Proof.
  intros Hn Hs Hpos. split; [reflexivity|]. split; [apply square_step1; exact Hs|].
  intros r Hr.
  pose proof (square_length _ _ Hs) as Hl.
  pose proof (square_row _ _ _ Hs Hr) as Hrow.
  assert (Hne : nth r m [] <> []).
  { intros E. rewrite E in Hrow. simpl in Hrow. lia. }
  pose proof (min_element_in _ Hne) as Hin.
  destruct (In_nth _ _ 0 Hin) as [c0 [Hc0 Ec0]]. rewrite Hrow in Hc0.
  fold (get m r c0) in Ec0.
  assert (Hget : forall c, (c < n)%nat ->
            get (fst (step1 m)) r c = get m r c - min_element (nth r m []) /\
            min_element (nth r m []) <= get m r c).
  { intros c Hc.
    pose proof (min_element_le _ _ (get_in_row n m r c Hs Hr Hc)) as Hle.
    split; [|exact Hle].
    rewrite step1_get by (rewrite ?Hl, ?Hrow; assumption).
    pose proof (Hpos r c Hr Hc) as Hx. pose proof (Hpos r c0 Hr Hc0) as Hm.
    rewrite Ec0 in Hm.
    destruct (0 <? min_element (nth r m [])) eqn:E.
    - apply wrap_in_range. unfold Int.in_range, Int.min, Int.max in *. lia.
    - apply Z.ltb_ge in E. lia. }
  split.
  - intros c Hc. destruct (Hget c Hc) as [E Hle]. rewrite E. split; [reflexivity|lia].
  - exists c0. split; [exact Hc0|]. destruct (Hget c0 Hc0) as [E _]. rewrite E. lia.
Qed.

Lemma step1_reduces_rows_witness :
  snd (step1 sample_3x3) = 2 /\
  square 3 (fst (step1 sample_3x3)) /\
  forall r, (r < 3)%nat ->
    (forall c, (c < 3)%nat ->
       get (fst (step1 sample_3x3)) r c =
         get sample_3x3 r c - min_element (nth r sample_3x3 []) /\
       0 <= get (fst (step1 sample_3x3)) r c) /\
    (exists c, (c < 3)%nat /\ get (fst (step1 sample_3x3)) r c = 0).
Proof.
  apply (step1_reduces_rows 3 sample_3x3).
  - lia.
  - split; [reflexivity|repeat constructor].
  - intros r c Hr Hc.
    destruct r as [|[|[|r]]]; try lia;
      destruct c as [|[|[|c]]]; try lia; vm_compute; split; discriminate.
Defined.

(** X5: step 2, entered as the solver enters it (empty mask, nothing
    covered) on a square matrix, stars zeros greedily: the mask it leaves
    holds only 0 and 1, every star sits on a zero of the matrix, no row and
    no column holds two stars, and every zero of the matrix has a star in
    its row or in its column.  Both cover vectors come back cleared and the
    next step is 3. *)
Theorem step2_stars_independent_zeros (n : nat) (matrix : matrix_t) :
  square n matrix ->
  exists M',
    step2 matrix (repeat (repeat 0 n) n) (repeat 0 n) (repeat 0 n)
      = (M', repeat 0 n, repeat 0 n, 3) /\
    square n M' /\ mask_values is01 M' /\
    (forall r c, star M' r c -> get matrix r c = 0) /\
    matching M' /\
    (forall r c, (r < n)%nat -> (c < n)%nat -> get matrix r c = 0 ->
       (exists c', star M' r c') \/ (exists r', star M' r' c)).
Proof.
  intros Hs.
  assert (Hshape : shape n (repeat (repeat 0 n) n) (repeat 0 n) (repeat 0 n)).
  { split; [apply square_repeat|]. rewrite !repeat_length.
    split; [reflexivity|]. split; [reflexivity|].
    split; apply all_zero_bin, all_zero_repeat. }
  assert (Hzero : forall r c, get (repeat (repeat 0 n) n) r c = 0)
    by (intros r c; apply get_repeat).
  pose proof (step2_values is01 matrix (repeat (repeat 0 n) n) (repeat 0 n) (repeat 0 n))
    as Hval.
  destruct (step2 matrix (repeat (repeat 0 n) n) (repeat 0 n) (repeat 0 n))
    as [[[M' RC'] CC'] st'] eqn:E.
  destruct (step2_spec n matrix _ _ _ _ _ _ _ Hs Hshape Hzero
              (all_zero_repeat n) (all_zero_repeat n) E)
    as [Est [[HsM [HlR [HlC _]]] [Hmatch [HzR [HzC Hstar]]]]].
  pose proof (step2_maximal n matrix _ _ _ _ _ _ _ Hs Hshape Hzero
                (all_zero_repeat n) (all_zero_repeat n) E) as Hmax.
  exists M'. split.
  - rewrite (all_zero_is_repeat _ HzR), (all_zero_is_repeat _ HzC), HlR, HlC, Est.
    reflexivity.
  - split; [exact HsM|]. split.
    + apply Hval; [|right; reflexivity].
      apply mask_values_repeat. left. reflexivity.
    + split; [exact Hstar|]. split; [exact Hmatch|exact Hmax].
Qed.

Lemma step2_stars_independent_zeros_witness :
  exists M',
    step2 long_path_3x3 (repeat (repeat 0 3%nat) 3) (repeat 0 3%nat) (repeat 0 3%nat)
      = (M', repeat 0 3%nat, repeat 0 3%nat, 3) /\
    square 3 M' /\ mask_values is01 M' /\
    (forall r c, star M' r c -> get long_path_3x3 r c = 0) /\
    matching M' /\
    (forall r c, (r < 3)%nat -> (c < 3)%nat -> get long_path_3x3 r c = 0 ->
       (exists c', star M' r c') \/ (exists r', star M' r' c)).
Proof.
  apply (step2_stars_independent_zeros 3 long_path_3x3).
  split; [reflexivity|repeat constructor].
Defined.

(** X6: step 3 on a square mask, entered with no column covered, covers
    exactly the columns that hold a star and leaves the others uncovered;
    it goes on to step 7 when every column holds a star and to step 4
    otherwise. *)
Theorem step3_covers_starred_columns (n : nat) (M : matrix_t) :
  square n M ->
  let CC' := fst (step3 M (repeat 0 n)) in
  let st' := snd (step3 M (repeat 0 n)) in
  length CC' = n /\
  (forall c, (c < n)%nat ->
     ((exists r, star M r c) -> nth c CC' 0 = 1) /\
     ((forall r, ~ star M r c) -> nth c CC' 0 = 0)) /\
  ((forall c, (c < n)%nat -> exists r, star M r c) -> st' = 7) /\
  ((exists c, (c < n)%nat /\ forall r, ~ star M r c) -> st' = 4).
Proof.
  intros Hs CC' st'. subst CC' st'.
  destruct (step3 M (repeat 0 n)) as [CC' st'] eqn:E. simpl.
  destruct (step3_spec n M _ _ _ Hs (repeat_length 0 n) (all_zero_repeat n) E)
    as [Hl [Hbin [Hcov Hst]]].
  split; [exact Hl|]. split; [|split].
  - intros c Hc. split.
    + intros Hex. apply Hcov. exact Hex.
    + intros Hno. destruct (bin_nth CC' c Hbin) as [E0|E1]; [exact E0|].
      apply Hcov in E1. destruct E1 as [r Hr]. destruct (Hno r Hr).
  - intros Hall. destruct Hst as [[E7 _]|[_ [c [Hc E0]]]]; [exact E7|].
    destruct (Hall c Hc) as [r Hr].
    assert (E1 : nth c CC' 0 = 1) by (apply Hcov; exists r; exact Hr). lia.
  - intros [c [Hc Hno]]. destruct Hst as [[_ Hall]|[E4 _]]; [|exact E4].
    destruct (Hall c Hc) as [r Hr]. destruct (Hno r Hr).
Qed.

Lemma step3_covers_starred_columns_witness :
  let M := [[1; 0; 0]; [0; 1; 0]; [0; 0; 0]] in
  let CC' := fst (step3 M (repeat 0 3%nat)) in
  let st' := snd (step3 M (repeat 0 3%nat)) in
  length CC' = 3%nat /\
  (forall c, (c < 3)%nat ->
     ((exists r, star M r c) -> nth c CC' 0 = 1) /\
     ((forall r, ~ star M r c) -> nth c CC' 0 = 0)) /\
  ((forall c, (c < 3)%nat -> exists r, star M r c) -> st' = 7) /\
  ((exists c, (c < 3)%nat /\ forall r, ~ star M r c) -> st' = 4).
Proof.
  apply (step3_covers_starred_columns 3 [[1; 0; 0]; [0; 1; 0]; [0; 0; 0]]).
  split; [reflexivity|repeat constructor].
Defined.

(** ** The searches of steps 4 and 5 *)

(** X7: find_a_zero on a square matrix returns (-1, -1) exactly when no zero
    of the matrix lies in an uncovered row and an uncovered column;
    otherwise it returns such a zero, the first one in row-major order. *)
Theorem find_a_zero_first_uncovered (n : nat) (matrix : matrix_t) (RC CC : list Z) :
  (0 < n)%nat -> square n matrix ->
  (find_a_zero matrix RC CC = (-1, -1) <->
   forall r c, (r < n)%nat -> (c < n)%nat -> uncovered_zero matrix RC CC r c = false) /\
  (find_a_zero matrix RC CC = (-1, -1) \/
   exists r c,
     find_a_zero matrix RC CC = (Z.of_nat r, Z.of_nat c) /\
     (r < n)%nat /\ (c < n)%nat /\ uncovered_zero matrix RC CC r c = true /\
     forall r' c', (c' < n)%nat -> (r' < r)%nat \/ (r' = r /\ (c' < c)%nat) ->
       uncovered_zero matrix RC CC r' c' = false).
Proof.
  intros _ Hs.
  destruct (find_a_zero_spec n matrix RC CC Hs) as [[E Hno]|[r [c [Hr [Hc [Hu E]]]]]].
  - split; [|left; exact E]. split; [intros _; exact Hno|intros _; exact E].
  - split.
    + split.
      * intros E'. rewrite E in E'. inversion E'. lia.
      * intros Hno. rewrite (Hno r c Hr Hc) in Hu. discriminate.
    + right. exists r, c. split; [exact E|]. split; [exact Hr|]. split; [exact Hc|].
      split; [exact Hu|]. intros r' c' Hc' Hlt.
      unfold find_a_zero in E. rewrite (square_length _ _ Hs) in E.
      apply (find_a_zero_rows_first _ _ _ _ _ _ _ _ E); [exact Hc'|lia|exact Hlt].
Qed.

Lemma find_a_zero_first_uncovered_witness :
  let matrix := [[0; 0; 5]; [5; 0; 0]; [0; 5; 5]] in
  let RC := [0; 0; 0] in
  let CC := [1; 1; 0] in
  (find_a_zero matrix RC CC = (-1, -1) <->
   forall r c, (r < 3)%nat -> (c < 3)%nat -> uncovered_zero matrix RC CC r c = false) /\
  (find_a_zero matrix RC CC = (-1, -1) \/
   exists r c,
     find_a_zero matrix RC CC = (Z.of_nat r, Z.of_nat c) /\
     (r < 3)%nat /\ (c < 3)%nat /\ uncovered_zero matrix RC CC r c = true /\
     forall r' c', (c' < 3)%nat -> (r' < r)%nat \/ (r' = r /\ (c' < c)%nat) ->
       uncovered_zero matrix RC CC r' c' = false).
Proof.
  apply (find_a_zero_first_uncovered 3 [[0; 0; 5]; [5; 0; 0]; [0; 5; 5]]).
  - lia.
  - split; [reflexivity|repeat constructor].
Defined.

(** X8: on a square mask and a row inside it, star_in_row tells whether the
    row holds a star, and find_star_in_row returns -1 when it holds none
    and otherwise the column of its last star. *)
Theorem row_star_searches (n : nat) (M : matrix_t) (r : nat) :
  square n M -> (r < n)%nat ->
  (star_in_row (Z.of_nat r) M = true <-> exists c, star M r c) /\
  ((forall c, ~ star M r c) -> find_star_in_row (Z.of_nat r) M = -1) /\
  (forall c, star M r c -> (forall c', (c < c')%nat -> ~ star M r c') ->
     find_star_in_row (Z.of_nat r) M = Z.of_nat c).
Proof.
  intros Hs _. split; [apply (star_in_row_spec n); exact Hs|]. split.
  - intros Hno.
    destruct (find_star_in_row_spec n M r Hs) as [[E _]|[c [_ [Hc _]]]]; [exact E|].
    destruct (Hno c Hc).
  - intros c Hc Hlast. unfold find_star_in_row.
    rewrite Nat2Z.id, (square_length _ _ Hs).
    apply (fold_last_max (fun c => get M r c =? 1)).
    + apply (star_range n M r c Hs Hc).
    + apply Z.eqb_eq. exact Hc.
    + intros j Hj. apply Z.eqb_neq. apply Hlast. lia.
Qed.

Lemma row_star_searches_witness :
  let M := [[1; 2; 0]; [0; 1; 2]; [2; 0; 0]] in
  (star_in_row (Z.of_nat 1) M = true <-> exists c, star M 1 c) /\
  ((forall c, ~ star M 1 c) -> find_star_in_row (Z.of_nat 1) M = -1) /\
  (forall c, star M 1 c -> (forall c', (c < c')%nat -> ~ star M 1 c') ->
     find_star_in_row (Z.of_nat 1) M = Z.of_nat c).
Proof.
  apply (row_star_searches 3 [[1; 2; 0]; [0; 1; 2]; [2; 0; 0]] 1).
  - split; [reflexivity|repeat constructor].
  - lia.
Defined.

(** X9: the two searches of step 5 on a square mask.  find_star_in_col
    returns -1 when the column holds no star and otherwise the row of its
    last star.  find_prime_in_row returns the column of the last prime of
    the row; when the row holds no prime it hands back the value that its
    reference argument had on entry. *)
Theorem step5_searches (n : nat) (M : matrix_t) (r c : nat) (cvar : Z) :
  square n M -> (r < n)%nat -> (c < n)%nat ->
  ((forall r', ~ star M r' c) -> find_star_in_col (Z.of_nat c) M = -1) /\
  (forall r', star M r' c -> (forall r'', (r' < r'')%nat -> ~ star M r'' c) ->
     find_star_in_col (Z.of_nat c) M = Z.of_nat r') /\
  ((forall c', ~ prime M r c') -> find_prime_in_row (Z.of_nat r) cvar M = cvar) /\
  (forall c', prime M r c' -> (forall c'', (c' < c'')%nat -> ~ prime M r c'') ->
     find_prime_in_row (Z.of_nat r) cvar M = Z.of_nat c').
Proof.
  intros Hs _ _. split; [|split; [|split]].
  - intros Hno.
    destruct (find_star_in_col_spec n M c Hs) as [[E _]|[r' [_ [Hr' _]]]]; [exact E|].
    destruct (Hno r' Hr').
  - intros r' Hr' Hlast. unfold find_star_in_col.
    rewrite Nat2Z.id, (square_length _ _ Hs).
    apply (fold_last_max (fun r => get M r c =? 1)).
    + apply (star_range n M r' c Hs Hr').
    + apply Z.eqb_eq. exact Hr'.
    + intros j Hj. apply Z.eqb_neq. apply Hlast. lia.
  - intros Hno.
    destruct (find_prime_in_row_spec n M r cvar Hs) as [[E _]|[c' [_ [Hc' _]]]]; [exact E|].
    destruct (Hno c' Hc').
  - intros c' Hc' Hlast. unfold find_prime_in_row.
    rewrite Nat2Z.id, (square_length _ _ Hs).
    apply (fold_last_max (fun c => get M r c =? 2)).
    + apply (prime_range n M r c' Hs Hc').
    + apply Z.eqb_eq. exact Hc'.
    + intros j Hj. apply Z.eqb_neq. apply Hlast. lia.
Qed.

Lemma step5_searches_witness :
  let M := [[1; 2; 0]; [0; 1; 2]; [2; 0; 0]] in
  ((forall r', ~ star M r' 2) -> find_star_in_col (Z.of_nat 2) M = -1) /\
  (forall r', star M r' 2 -> (forall r'', (r' < r'')%nat -> ~ star M r'' 2) ->
     find_star_in_col (Z.of_nat 2) M = Z.of_nat r') /\
  ((forall c', ~ prime M 1 c') -> find_prime_in_row (Z.of_nat 1) (-1) M = -1) /\
  (forall c', prime M 1 c' -> (forall c'', (c' < c'')%nat -> ~ prime M 1 c'') ->
     find_prime_in_row (Z.of_nat 1) (-1) M = Z.of_nat c').
Proof.
  apply (step5_searches 3 [[1; 2; 0]; [0; 1; 2]; [2; 0; 0]] 1 2 (-1)).
  - split; [reflexivity|repeat constructor].
  - lia.
  - lia.
Defined.

(** X10: augment_path, given a buffer whose first path_count rows are
    distinct cells of a square mask, flips exactly these cells: a star on
    the path is erased, any other cell of the path (a prime, in step 5)
    becomes a star, and every cell off the path keeps its mark. *)
Theorem augment_path_flips_path (n : nat) (M : matrix_t) (path : path_t)
    (P : list (nat * nat)) :
  square n M -> NoDup P ->
  (forall r c, In (r, c) P -> (r < n)%nat /\ (c < n)%nat) ->
  holds path P ->
  exists M',
    augment_path path (Z.of_nat (length P)) M = Ok M' /\
    square n M' /\
    forall r c, get M' r c =
                if memb P r c then (if get M r c =? 1 then 0 else 1) else get M r c.
Proof.
  intros Hs Hnd Hin Hholds.
  exists (fold_left flip_cell P M). split.
  - unfold augment_path. rewrite Nat2Z.id.
    apply augment_loop_cells. apply holds_read. exact Hholds.
  - destruct (flip_cells_get n P M Hs Hnd Hin) as [HsM' Hget].
    split; [exact HsM'|]. intros r c. rewrite Hget. reflexivity.
Qed.

Lemma augment_path_flips_path_witness :
  let M := [[1; 2; 0]; [0; 0; 0]; [2; 0; 0]] in
  let path := [(2, 0); (0, 0); (0, 1); (0, 0)] in
  let P := [(2, 0); (0, 0); (0, 1)]%nat in
  exists M',
    augment_path path (Z.of_nat (length P)) M = Ok M' /\
    square 3 M' /\
    forall r c, get M' r c =
                if memb P r c then (if get M r c =? 1 then 0 else 1) else get M r c.
Proof.
  apply (augment_path_flips_path 3 [[1; 2; 0]; [0; 0; 0]; [2; 0; 0]]
           [(2, 0); (0, 0); (0, 1); (0, 0)] [(2, 0); (0, 0); (0, 1)]%nat).
  - split; [reflexivity|repeat constructor].
  - repeat constructor; simpl; intuition discriminate.
  - intros r c H. simpl in H.
    destruct H as [H|[H|[H|[]]]]; inversion H; subst; lia.
  - split; [simpl; lia|]. intros i Hi. simpl in Hi.
    destruct i as [|[|[|i]]]; try lia; reflexivity.
Defined.

(** ** Step 6 *)

(** X11: find_smallest on a square matrix returns the smaller of the value
    passed in and the smallest entry that lies in an uncovered row and an
    uncovered column: it is below or equal to both, and it is one of them.
    With every cell covered the value passed in comes back. *)
Theorem find_smallest_is_least_uncovered (n : nat) (matrix : matrix_t)
    (RC CC : list Z) (init : Z) :
  square n matrix ->
  let m := find_smallest init matrix RC CC in
  m <= init /\
  (forall r c, (r < n)%nat -> (c < n)%nat -> nth r RC 0 = 0 -> nth c CC 0 = 0 ->
     m <= get matrix r c) /\
  (m = init \/
   exists r c, (r < n)%nat /\ (c < n)%nat /\ nth r RC 0 = 0 /\ nth c CC 0 = 0 /\
               m = get matrix r c).
Proof.
  intros Hs m. subst m.
  destruct (find_smallest_spec n matrix RC CC init Hs) as [Hle [Hlow Hatt]].
  split; [exact Hle|]. split.
  - intros r c Hr Hc HR HC. apply Hlow; [exact Hr|exact Hc|]. split; assumption.
  - destruct Hatt as [E|[r [c [Hr [Hc [[HR HC] E]]]]]]; [left; exact E|].
    right. exists r, c. auto 6.
Qed.

Lemma find_smallest_is_least_uncovered_witness :
  let matrix := [[0; 0; 0]; [0; 1; 2]; [0; 2; 4]] in
  let RC := [1; 0; 0] in
  let CC := [1; 0; 0] in
  let m := find_smallest Int.max matrix RC CC in
  m <= Int.max /\
  (forall r c, (r < 3)%nat -> (c < 3)%nat -> nth r RC 0 = 0 -> nth c CC 0 = 0 ->
     m <= get matrix r c) /\
  (m = Int.max \/
   exists r c, (r < 3)%nat /\ (c < 3)%nat /\ nth r RC 0 = 0 /\ nth c CC 0 = 0 /\
               m = get matrix r c).
Proof.
  apply (find_smallest_is_least_uncovered 3 [[0; 0; 0]; [0; 1; 2]; [0; 2; 4]]
           [1; 0; 0] [1; 0; 0] Int.max).
  split; [reflexivity|repeat constructor].
Defined.

(** ** The turns of the loop *)

(** X12: the invariant of the loop of hungarian.  Whenever the loop starts
    a turn on an N x N working matrix, the step is one of 1..7; the working
    matrix and the mask are N x N, the mask holds only 0, 1 (star) and 2
    (prime), the covers are vectors of N zeros and ones and the path buffer
    has N+1 rows; no row and no column holds two stars, no row holds two
    primes, and every star and every prime sits on a zero of the working
    matrix. *)
Theorem loop_invariant (rows cols n : nat) (m : matrix_t) (s : state) :
  square n m -> reachable rows cols m s ->
  1 <= step s <= 7 /\
  square n (matrix s) /\ square n (M s) /\ mask_values is012 (M s) /\
  length (RowCover s) = n /\ length (ColCover s) = n /\
  bin (RowCover s) /\ bin (ColCover s) /\
  length (path s) = (n + 1)%nat /\
  matching (M s) /\
  (forall r c c', prime (M s) r c -> prime (M s) r c' -> c = c') /\
  (forall r c, star (M s) r c \/ prime (M s) r c -> get (matrix s) r c = 0).
Proof.
  intros Hs Hr.
  pose proof (reachable_struct _ _ n _ _ Hs Hr) as Hinv.
  pose proof (reachable_values _ _ _ _ Hr) as Hval.
  pose proof (reachable_path_length _ _ _ _ Hr) as Hpl.
  rewrite (square_length _ _ Hs) in Hpl.
  destruct (struct_marks n s Hinv Hval) as [Hmatch Hpu].
  destruct Hinv as [Hmx [[HsM [HlR [HlC [HbR HbC]]]] [Hzm _]]].
  destruct Hval as [Hst [H012 _]].
  repeat match goal with |- _ /\ _ => split end; try assumption.
  - apply Hst.
  - apply Hst.
Qed.

Lemma loop_invariant_witness :
  let s := state_after 6 sample_3x3 in
  1 <= step s <= 7 /\
  square 3 (matrix s) /\ square 3 (M s) /\ mask_values is012 (M s) /\
  length (RowCover s) = 3%nat /\ length (ColCover s) = 3%nat /\
  bin (RowCover s) /\ bin (ColCover s) /\
  length (path s) = (3 + 1)%nat /\
  matching (M s) /\
  (forall r c c', prime (M s) r c -> prime (M s) r c' -> c = c') /\
  (forall r c, star (M s) r c \/ prime (M s) r c -> get (matrix s) r c = 0).
Proof.
  apply (loop_invariant 3 3 3 sample_3x3 (state_after 6 sample_3x3)).
  - split; [reflexivity|repeat constructor].
  - apply (state_after_reachable 6 sample_3x3).
    eexists. split; [vm_compute; reflexivity|vm_compute; discriminate].
Defined.

(** X13: a turn of the loop in step 4, on an N x N working matrix.  The
    loop of step 4 ends within N+1 turns of its own.  It leaves the working
    matrix and all stars as they are, and it ends either in step 6, with no
    zero of the matrix left in an uncovered row and an uncovered column, or
    in step 5, with path_row_0 and path_col_0 set to a primed zero whose
    row holds no star. *)
Theorem step4_turn (rows cols n : nat) (m : matrix_t) (s : state) (fuel : nat) :
  square n m -> reachable rows cols m s -> step s = 4 -> (n + 1 <= fuel)%nat ->
  exists s',
    work_step fuel rows cols s = Ok (s', false) /\
    matrix s' = matrix s /\
    (forall r c, star (M s') r c <-> star (M s) r c) /\
    ((step s' = 6 /\
      forall r c, (r < n)%nat -> (c < n)%nat ->
        uncovered_zero (matrix s') (RowCover s') (ColCover s') r c = false) \/
     (step s' = 5 /\
      exists r c, path_row_0 s' = Z.of_nat r /\ path_col_0 s' = Z.of_nat c /\
        (r < n)%nat /\ (c < n)%nat /\
        get (matrix s') r c = 0 /\ prime (M s') r c /\
        forall y, ~ star (M s') r y)).
Proof.
  intros Hs Hr E Hfuel.
  pose proof (reachable_struct _ _ n _ _ Hs Hr) as Hinv.
  destruct (struct_step4 n s Hinv (or_introl E)) as [L HL].
  destruct Hinv as [Hmx [Hsh [Hzm _]]].
  destruct (step4_loop_total n (matrix s) fuel (M s) (RowCover s) (ColCover s) L
              (path_row_0 s) (path_col_0 s) Hmx Hsh Hzm HL) as [res [Hok Hpost]];
    [lia|].
  rewrite (work_step_4 _ _ _ _ E). unfold step4. rewrite Hok.
  destruct res as [[[[[M' RC'] CC'] r0'] c0'] st']. simpl in Hpost.
  destruct Hpost as [_ [Hzm' [Hstar Hend]]].
  eexists. split; [reflexivity|]. simpl. split; [reflexivity|]. split.
  - intros r c. symmetry. apply Hstar.
  - destruct Hend as [[E6 [L' [_ [Hno _]]]]|[E5 [L' [r [c [Er [Ec [Hlr [Hlc Haug]]]]]]]]].
    + left. split; [exact E6|exact Hno].
    + right. split; [exact E5|]. exists r, c.
      destruct Haug as [_ [_ [_ [Hp [Hnos _]]]]].
      repeat match goal with |- _ /\ _ => split end; try assumption.
      apply Hzm'. right. exact Hp.
Qed.

Lemma step4_turn_witness :
  let s := state_after 3 long_path_3x3 in
  exists s',
    work_step 8 3 3 s = Ok (s', false) /\
    matrix s' = matrix s /\
    (forall r c, star (M s') r c <-> star (M s) r c) /\
    ((step s' = 6 /\
      forall r c, (r < 3)%nat -> (c < 3)%nat ->
        uncovered_zero (matrix s') (RowCover s') (ColCover s') r c = false) \/
     (step s' = 5 /\
      exists r c, path_row_0 s' = Z.of_nat r /\ path_col_0 s' = Z.of_nat c /\
        (r < 3)%nat /\ (c < 3)%nat /\
        get (matrix s') r c = 0 /\ prime (M s') r c /\
        forall y, ~ star (M s') r y)).
Proof.
  apply (step4_turn 3 3 3 long_path_3x3 (state_after 3 long_path_3x3) 8).
  - split; [reflexivity|repeat constructor].
  - apply (state_after_reachable 3 long_path_3x3).
    eexists. split; [vm_compute; reflexivity|vm_compute; discriminate].
  - reflexivity.
  - lia.
Defined.

(** X14: a turn of the loop in step 5, on an N x N working matrix.  Given
    N turns for its own loop, step 5 either leaves its path buffer or
    returns, and when it returns: the next step is 3, the working matrix is
    unchanged, both covers are cleared, no prime is left, no row and no
    column holds two stars, every star sits on a zero, and the rows that
    hold a star are the rows that held one before together with the row of
    the primed zero it started from, which held none: one more row is
    starred. *)
Theorem step5_turn (rows cols n : nat) (m : matrix_t) (s : state) (fuel : nat) :
  square n m -> reachable rows cols m s -> step s = 5 -> (n <= fuel)%nat ->
  work_step fuel rows cols s = Fail out_of_range \/
  exists s',
    work_step fuel rows cols s = Ok (s', false) /\
    step s' = 3 /\ matrix s' = matrix s /\
    all_zero (RowCover s') /\ all_zero (ColCover s') /\
    (forall r c, ~ prime (M s') r c) /\
    matching (M s') /\
    (forall r c, star (M s') r c -> get (matrix s') r c = 0) /\
    (forall c, ~ star (M s) (Z.to_nat (path_row_0 s)) c) /\
    (forall r, (exists c, star (M s') r c) <->
               (exists c, star (M s) r c) \/ r = Z.to_nat (path_row_0 s)).
Proof.
  intros Hs Hr E Hfuel.
  pose proof (reachable_struct _ _ n _ _ Hs Hr) as Hinv.
  destruct (struct_step5 n s Hinv E) as [L [r0 [c0 [Er [Ec Haug]]]]].
  destruct Hinv as [Hmx [[HsM _] [Hzm _]]].
  pose proof (aug_rows_lt n _ _ _ _ HsM Haug) as HL.
  rewrite (work_step_5 _ _ _ _ E), Er, Ec.
  destruct (step5_total n (M s) (RowCover s) (ColCover s) L r0 c0 fuel (path s)
              HsM Haug) as [Hf|[p' [M' [Hok Hpost]]]]; [lia| |].
  - left. rewrite Hf. reflexivity.
  - right. rewrite Hok. eexists. split; [reflexivity|]. simpl.
    destruct Hpost as [_ [Hmatch [Hnp [Hrows Hfrom]]]].
    destruct Haug as [_ [_ [_ [_ [Hno _]]]]].
    rewrite Nat2Z.id.
    repeat match goal with |- _ /\ _ => split end;
      try reflexivity; try assumption; try apply clear_covers_zero.
    intros r c Hst. apply Hzm. apply Hfrom. exact Hst.
Qed.

Lemma step5_turn_witness :
  let s := state_after 6 sample_3x3 in
  work_step 8 3 3 s = Fail out_of_range \/
  exists s',
    work_step 8 3 3 s = Ok (s', false) /\
    step s' = 3 /\ matrix s' = matrix s /\
    all_zero (RowCover s') /\ all_zero (ColCover s') /\
    (forall r c, ~ prime (M s') r c) /\
    matching (M s') /\
    (forall r c, star (M s') r c -> get (matrix s') r c = 0) /\
    (forall c, ~ star (M s) (Z.to_nat (path_row_0 s)) c) /\
    (forall r, (exists c, star (M s') r c) <->
               (exists c, star (M s) r c) \/ r = Z.to_nat (path_row_0 s)).
Proof.
  apply (step5_turn 3 3 3 sample_3x3 (state_after 6 sample_3x3) 8).
  - split; [reflexivity|repeat constructor].
  - apply (state_after_reachable 6 sample_3x3).
    eexists. split; [vm_compute; reflexivity|vm_compute; discriminate].
  - reflexivity.
  - lia.
Defined.

(** X15: the alternating path of step 5 on an N x N mask has at most 2N-1
    cells.  Whenever the loop is in step 5, step 5 run on any path buffer of
    2N-1 rows or more stays inside the buffer and returns. *)
Theorem step5_path_fits (rows cols n : nat) (m : matrix_t) (s : state)
    (fuel : nat) (buf : path_t) :
  square n m -> reachable rows cols m s -> step s = 5 ->
  (n <= fuel)%nat -> (2 * n - 1 <= length buf)%nat ->
  exists buf' M',
    step5 fuel buf (path_row_0 s) (path_col_0 s) (M s) (RowCover s) (ColCover s)
      = Ok (buf', M', clear_covers (RowCover s), clear_covers (ColCover s), 3).
Proof.
  intros Hs Hr E Hfuel Hbuf.
  pose proof (reachable_struct _ _ n _ _ Hs Hr) as Hinv.
  destruct (struct_step5 n s Hinv E) as [L [r0 [c0 [Er [Ec Haug]]]]].
  destruct Hinv as [_ [[HsM _] _]].
  pose proof (aug_rows_lt n _ _ _ _ HsM Haug) as HL.
  rewrite Er, Ec.
  destruct (step5_fits n (M s) (RowCover s) (ColCover s) L r0 c0 fuel buf HsM Haug)
    as [buf' [M' [Hok _]]]; [lia|lia|].
  exists buf', M'. exact Hok.
Qed.

Lemma step5_path_fits_witness :
  let s := state_after 4 long_path_3x3 in
  exists buf' M',
    step5 3 (repeat (0, 0) 5) (path_row_0 s) (path_col_0 s) (M s)
          (RowCover s) (ColCover s)
      = Ok (buf', M', clear_covers (RowCover s), clear_covers (ColCover s), 3).
Proof.
  apply (step5_path_fits 3 3 3 long_path_3x3 (state_after 4 long_path_3x3) 3
           (repeat (0, 0) 5)).
  - split; [reflexivity|repeat constructor].
  - apply (state_after_reachable 4 long_path_3x3).
    eexists. split; [vm_compute; reflexivity|vm_compute; discriminate].
  - reflexivity.
  - lia.
  - simpl. lia.
Defined.

(** X16: a turn of the loop in step 6, on an N x N working matrix of ints.
    Step 6 returns to step 4 with the mask and both covers as they were;
    every star and every prime still sits on a zero of the new matrix, and
    the new matrix has a zero in an uncovered row and an uncovered column,
    for step 4 to prime. *)
Theorem step6_turn (rows cols n : nat) (m : matrix_t) (s : state) (fuel : nat) :
  square n m -> mask_values Int.in_range m ->
  reachable rows cols m s -> step s = 6 ->
  exists s',
    work_step fuel rows cols s = Ok (s', false) /\
    step s' = 4 /\
    M s' = M s /\ RowCover s' = RowCover s /\ ColCover s' = ColCover s /\
    (forall r c, star (M s') r c \/ prime (M s') r c -> get (matrix s') r c = 0) /\
    (exists r c, (r < n)%nat /\ (c < n)%nat /\
       uncovered_zero (matrix s') (RowCover s') (ColCover s') r c = true).
Proof.
  intros Hs Hrange Hr E.
  pose proof (reachable_struct _ _ n _ _ Hs Hr) as Hinv.
  pose proof (reachable_range _ _ _ _ Hrange Hr) as Hrg.
  destruct (struct_step4 n s Hinv (or_intror E)) as [L HL].
  destruct Hinv as [Hmx [Hsh [Hzm _]]].
  rewrite (work_step_6 _ _ _ _ E).
  eexists. split; [reflexivity|]. simpl.
  repeat match goal with |- _ /\ _ => split end; try reflexivity.
  - apply (step6_zero_marks n _ _ _ _ L); assumption.
  - apply (step6_creates_zero n _ (M s) _ _ L); assumption.
Qed.

Lemma step6_turn_witness :
  let s := state_after 4 sample_3x3 in
  exists s',
    work_step 8 3 3 s = Ok (s', false) /\
    step s' = 4 /\
    M s' = M s /\ RowCover s' = RowCover s /\ ColCover s' = ColCover s /\
    (forall r c, star (M s') r c \/ prime (M s') r c -> get (matrix s') r c = 0) /\
    (exists r c, (r < 3)%nat /\ (c < 3)%nat /\
       uncovered_zero (matrix s') (RowCover s') (ColCover s') r c = true).
Proof.
  apply (step6_turn 3 3 3 sample_3x3 (state_after 4 sample_3x3) 8).
  - split; [reflexivity|repeat constructor].
  - unfold mask_values. repeat constructor; vm_compute; discriminate.
  - apply (state_after_reachable 4 sample_3x3).
    eexists. split; [vm_compute; reflexivity|vm_compute; discriminate].
  - reflexivity.
Defined.

(** ** Whole runs *)

(** X17: every run on a rectangular matrix of ints ends.  With N the larger
    of the numbers of rows and columns, a bound of N(2N+5)+N+5 on the turns
    of the loops is never used up, and the run ends in one of three ways:
    with the exception of handle_negatives, which needs
    allow_negatives = false; with an access outside the path buffer in
    step 5; or with the end of the loop in step 7. *)
Theorem run_ends_within_bound (original : matrix_t) (allow_negatives : bool)
    (fuel : nat) :
  rectangular original -> mask_values Int.in_range original ->
  let n := Nat.max (length original) (length (hd [] original)) in
  (n * (2 * n + 5) + n + 5 <= fuel)%nat ->
  (allow_negatives = false /\
   hungarian_run fuel original allow_negatives = Fail runtime_error) \/
  hungarian_run fuel original allow_negatives = Fail out_of_range \/
  exists s, hungarian_run fuel original allow_negatives = Ok s /\ step s = 7.
Proof.
  intros Hrect Hrange n Hfuel.
  pose proof (rectangular_dims _ Hrect) as Hn. fold n in Hn.
  pose proof (run_start original allow_negatives Hrect Hrange) as Hst.
  cbv zeta in Hst. fold n in Hst.
  destruct Hst as [[Ea Hf]|[P [HsP [HrP Hrun]]]].
  - left. split; [exact Ea|apply Hf].
  - right. rewrite Hrun.
    apply (work_ends n P); assumption.
Qed.

Lemma run_ends_within_bound_witness :
  (true = false /\ hungarian_run 50 [[3; 1; 2]; [1; 3; 2]] true = Fail runtime_error) \/
  hungarian_run 50 [[3; 1; 2]; [1; 3; 2]] true = Fail out_of_range \/
  exists s, hungarian_run 50 [[3; 1; 2]; [1; 3; 2]] true = Ok s /\ step s = 7.
Proof.
  apply (run_ends_within_bound [[3; 1; 2]; [1; 3; 2]] true 50).
  - split; [discriminate|repeat constructor].
  - unfold mask_values. repeat constructor; vm_compute; discriminate.
  - simpl. lia.
Defined.

(** X18: the mask that a run on a rectangular R x C matrix ends with.  It
    has R rows of C entries, all 0 or 1, with at most one star in a row and
    at most one in a column; when R <= C every row holds a star, and when
    C <= R every column holds one: min(R, C) rows are assigned to columns
    of the original matrix. *)
Theorem final_mask_of_rectangular (original : matrix_t) (allow_negatives : bool)
    (fuel : nat) (s : state) :
  rectangular original ->
  hungarian_run fuel original allow_negatives = Ok s ->
  let R := length original in
  let C := length (hd [] original) in
  step s = 7 /\
  length (M s) = R /\ Forall (fun row => length row = C) (M s) /\
  mask_values is01 (M s) /\ matching (M s) /\
  ((R <= C)%nat -> forall r, (r < R)%nat -> exists c, (c < C)%nat /\ star (M s) r c) /\
  ((C <= R)%nat -> forall c, (c < C)%nat -> exists r, (r < R)%nat /\ star (M s) r c).
Proof.
  intros Hrect H R C.
  destruct (handle_negatives original allow_negatives) as [A [e|]] eqn:Hh.
  { unfold hungarian_run in H.
    destruct original as [|row0 rest] eqn:Eo; [discriminate|]. rewrite <- Eo in *.
    rewrite (copy_original_rectangular _ Hrect), Hh in H. discriminate. }
  rewrite (hungarian_run_rectangular _ _ _ _ Hrect Hh) in H. fold R C in H.
  destruct (handle_negatives_rectangular _ _ _ Hrect Hh) as [HrA [HlA HcA]].
  pose proof (pad_matrix_is_square A HrA) as HsP. rewrite HlA, HcA in HsP.
  fold R C in HsP. set (n := Nat.max R C) in *.
  destruct (work_final_values _ _ _ _ _ H) as [E7 H01].
  destruct (work_reaches R C (pad_matrix A) fuel _ _ (reach_init _ _ _) H)
    as [s7 [Hr7 [E7' EM]]].
  pose proof (reachable_struct _ _ n _ _ HsP Hr7) as Hinv.
  destruct Hinv as [_ [[HsM _] [_ Hcase]]].
  destruct Hcase as [[[E|E] _]|[[E _]|[[[E|E] _]|[[E _]|[_ [Hmatch Hall]]]]]];
    try (rewrite E7' in E; discriminate).
  assert (Hget : forall r c, get (M s) r c =
            if ((r <? R) && (c <? C))%nat then get (M s7) r c else 0).
  { intros r c. rewrite EM. apply (get_resize_mask n); [exact HsM|lia|lia]. }
  assert (Hstar : forall r c, star (M s) r c <->
            (r < R)%nat /\ (c < C)%nat /\ star (M s7) r c).
  { intros r c. unfold star. rewrite Hget.
    destruct (Nat.ltb_spec r R) as [Er|Er], (Nat.ltb_spec c C) as [Ec|Ec]; simpl;
      (split; [intros H0|intros [H1 [H2 H0]]]);
      try discriminate; try lia; auto. }
  destruct (length_resize_mask n (M s7) R C HsM) as [Hlen Hrows]; [lia|].
  rewrite <- EM in Hlen, Hrows.
  split; [exact E7|]. split; [exact Hlen|]. split; [exact Hrows|].
  split; [exact H01|]. split; [|split].
  - destruct Hmatch as [Hrow Hcol]. split.
    + intros r c c' H1 H2. apply Hstar in H1, H2.
      destruct H1 as [_ [_ H1]], H2 as [_ [_ H2]]. eapply Hrow; eassumption.
    + intros r r' c H1 H2. apply Hstar in H1, H2.
      destruct H1 as [_ [_ H1]], H2 as [_ [_ H2]]. eapply Hcol; eassumption.
  - intros HRC r Hr.
    destruct (matched_rows n (M s7) HsM Hmatch Hall r) as [c Hc]; [lia|].
    exists c. destruct (star_range n _ _ _ HsM Hc) as [_ Hcn].
    assert (Hc' : (c < C)%nat) by lia.
    split; [exact Hc'|]. apply Hstar. auto.
  - intros HCR c Hc.
    destruct (Hall c) as [r Hr]; [lia|].
    exists r. destruct (star_range n _ _ _ HsM Hr) as [Hrn _].
    assert (Hr' : (r < R)%nat) by lia.
    split; [exact Hr'|]. apply Hstar. auto.
Qed.

Lemma final_mask_of_rectangular_witness :
  exists s,
    hungarian_run 30 [[3; 1; 2]; [1; 3; 2]] true = Ok s /\
    step s = 7 /\
    length (M s) = 2%nat /\ Forall (fun row => length row = 3%nat) (M s) /\
    mask_values is01 (M s) /\ matching (M s) /\
    ((2 <= 3)%nat -> forall r, (r < 2)%nat -> exists c, (c < 3)%nat /\ star (M s) r c) /\
    ((3 <= 2)%nat -> forall c, (c < 3)%nat -> exists r, (r < 2)%nat /\ star (M s) r c).
Proof.
  eexists. split; [vm_compute; reflexivity|].
  apply (final_mask_of_rectangular [[3; 1; 2]; [1; 3; 2]] true 30).
  - split; [discriminate|repeat constructor].
  - vm_compute. reflexivity.
Defined.

(** X19: an input with at most two rows and at most two columns never
    makes step 5 leave its path buffer: with negatives allowed, 25 turns
    are enough for the run on such a matrix of ints to end in step 7 and
    for hungarian to return a value. *)
Theorem small_inputs_always_return (original : matrix_t) (fuel : nat) :
  rectangular original -> mask_values Int.in_range original ->
  (length original <= 2)%nat -> (length (hd [] original) <= 2)%nat ->
  (25 <= fuel)%nat ->
  (exists s, hungarian_run fuel original true = Ok s /\ step s = 7) /\
  (exists v, hungarian fuel original true = Ok v).
Proof.
  intros Hrect Hrange HR HC Hfuel.
  pose proof (rectangular_dims _ Hrect) as Hn.
  pose proof (run_start original true Hrect Hrange) as Hst. cbv zeta in Hst.
  set (n := Nat.max (length original) (length (hd [] original))) in *.
  assert (Hn2 : (n <= 2)%nat) by (unfold n; lia).
  destruct Hst as [[Ea _]|[P [HsP [HrP Hrun]]]]; [discriminate|].
  assert (Hrun7 : exists s, hungarian_run fuel original true = Ok s /\ step s = 7).
  { rewrite Hrun.
    destruct (work_ends n P (length original) (length (hd [] original)) fuel
                Hn HsP HrP) as [Hf|Hok].
    - assert (Hc : n = 1%nat \/ n = 2%nat) by lia.
      destruct Hc as [-> | ->]; simpl; lia.
    - exfalso. exact (small_work_no_overrun _ _ n P fuel Hn2 HsP Hf).
    - exact Hok. }
  split; [exact Hrun7|].
  destruct Hrun7 as [s [Hs _]]. unfold hungarian. rewrite Hs. simpl. eexists. reflexivity.
Qed.

Lemma small_inputs_always_return_witness :
  (exists s, hungarian_run 25 [[1; 2]; [2; 4]] true = Ok s /\ step s = 7) /\
  (exists v, hungarian 25 [[1; 2]; [2; 4]] true = Ok v).
Proof.
  apply (small_inputs_always_return [[1; 2]; [2; 4]] 25).
  - split; [discriminate|repeat constructor].
  - unfold mask_values. repeat constructor; vm_compute; discriminate.
  - simpl. lia.
  - simpl. lia.
  - lia.
Defined.

(** ** Arithmetic within bounds *)

(** X20: step 6 without overflow.  When the loop was entered on an N x N
    working matrix with entries between 0 and K, 2K within the int range,
    then in every turn of step 6 the smallest uncovered value is positive,
    and every entry x becomes exactly x, plus that value if its row is
    covered, minus that value if its column is uncovered; the new entry
    lies between 0 and 2K. *)
Theorem step6_is_exact (rows cols n : nat) (m : matrix_t) (K : Z) (s : state) :
  (0 < n)%nat -> square n m ->
  (forall r c, (r < n)%nat -> (c < n)%nat -> 0 <= get m r c <= K) ->
  2 * K <= Int.max ->
  reachable rows cols m s -> step s = 6 ->
  let minval := find_smallest Int.max (matrix s) (RowCover s) (ColCover s) in
  let matrix' := fst (step6 (matrix s) (RowCover s) (ColCover s)) in
  0 < minval /\
  forall r c, (r < n)%nat -> (c < n)%nat ->
    get matrix' r c =
      get (matrix s) r c + (if nth r (RowCover s) 0 =? 1 then minval else 0)
                         - (if nth c (ColCover s) 0 =? 0 then minval else 0) /\
    0 <= get matrix' r c <= 2 * K.
Proof.
  intros Hn Hs HA HK Hr E minval matrix'. subst matrix'.
  destruct (reachable_value _ _ n m K s Hn Hs HA HK Hr) as [Hinv [Hrange [u [v Hpot]]]].
  pose proof (reachable_no_zero6 _ _ n m s Hs Hr E) as Hnz.
  destruct (struct_step4 n s Hinv (or_intror E)) as [L HL].
  destruct Hinv as [Hmx [Hsh [Hzm _]]].
  destruct (step6_entries n m K _ _ _ _ L u v Hmx Hrange Hsh HL Hzm HA HK Hpot)
    as [Hm0 Hent].
  fold minval in Hm0, Hent. split; [|exact Hent].
  destruct (find_smallest_spec n (matrix s) (RowCover s) (ColCover s) Int.max Hmx)
    as [_ [_ Hatt]].
  fold minval in Hatt.
  destruct Hatt as [Emax|[r [c [Hlr [Hlc [[HR HC] Em]]]]]].
  - rewrite Emax. unfold Int.max. lia.
  - specialize (Hnz r c Hlr Hlc). unfold uncovered_zero in Hnz.
    rewrite HR, HC in Hnz. simpl in Hnz. rewrite !andb_true_r in Hnz.
    apply Z.eqb_neq in Hnz. lia.
Qed.

Lemma step6_is_exact_witness :
  let s := state_after 4 sample_3x3 in
  let minval := find_smallest Int.max (matrix s) (RowCover s) (ColCover s) in
  let matrix' := fst (step6 (matrix s) (RowCover s) (ColCover s)) in
  0 < minval /\
  forall r c, (r < 3)%nat -> (c < 3)%nat ->
    get matrix' r c =
      get (matrix s) r c + (if nth r (RowCover s) 0 =? 1 then minval else 0)
                         - (if nth c (ColCover s) 0 =? 0 then minval else 0) /\
    0 <= get matrix' r c <= 2 * 60.
Proof.
  apply (step6_is_exact 3 3 3 sample_3x3 60 (state_after 4 sample_3x3)).
  - lia.
  - split; [reflexivity|repeat constructor].
  - intros r c Hr Hc.
    destruct r as [|[|[|r]]]; try lia;
      destruct c as [|[|[|c]]]; try lia; vm_compute; split; discriminate.
  - vm_compute. discriminate.
  - apply (state_after_reachable 4 sample_3x3).
    eexists. split; [vm_compute; reflexivity|vm_compute; discriminate].
  - reflexivity.
Defined.

(** X21: the turns of the loop keep the assignment problem.  When the loop
    was entered on an N x N working matrix with entries between 0 and K, 2K
    within the int range, then whenever it starts a turn no entry of the
    working matrix is negative, and there is one number by which the cost
    of every one-to-one assignment of rows to columns is lower in the
    working matrix than in the matrix the loop was entered on: a cheapest
    assignment of the one is a cheapest assignment of the other. *)
Theorem turns_keep_cheapest_assignment (rows cols n : nat) (m : matrix_t) (K : Z)
    (s : state) :
  (0 < n)%nat -> square n m ->
  (forall r c, (r < n)%nat -> (c < n)%nat -> 0 <= get m r c <= K) ->
  2 * K <= Int.max ->
  reachable rows cols m s ->
  (forall r c, (r < n)%nat -> (c < n)%nat -> 0 <= get (matrix s) r c) /\
  exists k, forall sigma, Permutation (seq 0 n) sigma ->
    assignment_cost (matrix s) sigma = assignment_cost m sigma - k.
Proof.
  intros Hn Hs HA HK Hr.
  destruct (reachable_value _ _ n m K s Hn Hs HA HK Hr)
    as [_ [_ [u [v [H1 [H2 _]]]]]].
  split; [exact H2|].
  exists (sumZ (map u (seq 0 n)) + sumZ (map v (seq 0 n))).
  intros sigma Hp. apply potentials_cost; assumption.
Qed.

Lemma turns_keep_cheapest_assignment_witness :
  let s := state_after 6 sample_3x3 in
  (forall r c, (r < 3)%nat -> (c < 3)%nat -> 0 <= get (matrix s) r c) /\
  exists k, forall sigma, Permutation (seq 0 3) sigma ->
    assignment_cost (matrix s) sigma = assignment_cost sample_3x3 sigma - k.
Proof.
  apply (turns_keep_cheapest_assignment 3 3 3 sample_3x3 60
           (state_after 6 sample_3x3)).
  - lia.
  - split; [reflexivity|repeat constructor].
  - intros r c Hr Hc.
    destruct r as [|[|[|r]]]; try lia;
      destruct c as [|[|[|c]]]; try lia; vm_compute; split; discriminate.
  - vm_compute. discriminate.
  - apply (state_after_reachable 6 sample_3x3).
    eexists. split; [vm_compute; reflexivity|vm_compute; discriminate].
Defined.

(** X22: on a rectangular matrix without a negative entry the flag
    allow_negatives makes no difference: hungarian behaves the same with
    false as with true. *)
Theorem flag_is_irrelevant_without_negatives (original : matrix_t) (fuel : nat) :
  rectangular original -> mask_values (fun x => 0 <= x) original ->
  hungarian fuel original false = hungarian fuel original true.
Proof.
  intros Hrect Hpos. unfold hungarian, hungarian_run.
  destruct original as [|row0 rest] eqn:Eo; [reflexivity|]. rewrite <- Eo in *.
  rewrite (copy_original_rectangular _ Hrect). unfold handle_negatives.
  rewrite (matrix_min_nonneg original Hpos). reflexivity.
Qed.

Lemma flag_is_irrelevant_without_negatives_witness :
  hungarian 12 sample_3x3 false = hungarian 12 sample_3x3 true.
Proof.
  apply (flag_is_irrelevant_without_negatives sample_3x3 12).
  - split; [discriminate|repeat constructor].
  - unfold mask_values. repeat constructor; vm_compute; discriminate.
Defined.

(** ** The order of the steps and the covers *)

(** X23: the order of the steps.  A turn of the loop that returns goes from
    step 1 to 2, from 2 to 3, from 3 to 4 or 7, from 4 to 5 or 6, from 5 to
    3 and from 6 to 4, without ending the loop; step 7 ends the loop; a
    step outside 1..7 would end it with the state unchanged.  So step 5,
    which reads path_row_0 and path_col_0, is only entered from step 4. *)
Theorem order_of_steps (fuel rows cols : nat) (s s' : state) (d : bool) :
  work_step fuel rows cols s = Ok (s', d) ->
  (step s = 1 -> step s' = 2 /\ d = false) /\
  (step s = 2 -> step s' = 3 /\ d = false) /\
  (step s = 3 -> (step s' = 4 \/ step s' = 7) /\ d = false) /\
  (step s = 4 -> (step s' = 5 \/ step s' = 6) /\ d = false) /\
  (step s = 5 -> step s' = 3 /\ d = false) /\
  (step s = 6 -> step s' = 4 /\ d = false) /\
  (step s = 7 -> step s' = 7 /\ d = true) /\
  (~ 1 <= step s <= 7 -> s' = s /\ d = true).
Proof.
  intros H.
  destruct (step_cases (step s)) as [E|[E|[E|[E|[E|[E|[E|E]]]]]]];
    repeat match goal with |- _ /\ _ => split end; intros E'; try lia.
  - rewrite (work_step_1 _ _ _ _ E) in H. inversion H; subst. auto.
  - destruct (step2 (matrix s) (M s) (RowCover s) (ColCover s))
      as [[[M' RC'] CC'] st'] eqn:E2.
    rewrite (work_step_2 _ _ _ _ _ _ _ _ E E2) in H. inversion H; subst.
    apply step2_next in E2. auto.
  - destruct (step3 (M s) (ColCover s)) as [CC' st'] eqn:E3.
    rewrite (work_step_3 _ _ _ _ _ _ E E3) in H. inversion H; subst.
    apply step3_next in E3. simpl. split; [lia|reflexivity].
  - rewrite (work_step_4 _ _ _ _ E) in H.
    destruct (step4 _ _ _ _ _ _ _) as [[[[[[M' RC'] CC'] r0'] c0'] st']|e] eqn:E4;
      [|discriminate].
    inversion H; subst. unfold step4 in E4. apply step4_loop_next in E4. auto.
  - rewrite (work_step_5 _ _ _ _ E) in H.
    destruct (step5 _ _ _ _ _ _ _) as [[[[[p' M'] RC'] CC'] st']|e] eqn:E5;
      [|discriminate].
    inversion H; subst. apply step5_next in E5. auto.
  - rewrite (work_step_6 _ _ _ _ E) in H. inversion H; subst. auto.
  - rewrite (work_step_7 _ _ _ _ E) in H. inversion H; subst. auto.
  - rewrite (work_step_other _ _ _ _ E) in H. inversion H; subst. auto.
Qed.

Lemma order_of_steps_witness :
  let s := state_after 3 sample_3x3 in
  let s' := state_after 4 sample_3x3 in
  let d := false in
  (step s = 1 -> step s' = 2 /\ d = false) /\
  (step s = 2 -> step s' = 3 /\ d = false) /\
  (step s = 3 -> (step s' = 4 \/ step s' = 7) /\ d = false) /\
  (step s = 4 -> (step s' = 5 \/ step s' = 6) /\ d = false) /\
  (step s = 5 -> step s' = 3 /\ d = false) /\
  (step s = 6 -> step s' = 4 /\ d = false) /\
  (step s = 7 -> step s' = 7 /\ d = true) /\
  (~ 1 <= step s <= 7 -> s' = s /\ d = true).
Proof.
  apply (order_of_steps 8 3 3 (state_after 3 sample_3x3) (state_after 4 sample_3x3)
           false).
  vm_compute. reflexivity.
Defined.

(** X24: the covers in steps 4 and 6.  Whenever the loop starts a turn in
    step 4 or 6 on an N x N working matrix, every star is covered by
    exactly one of its row and its column, every prime lies in a covered
    row and an uncovered column, every covered row holds a star and a
    prime, some row holds no star and some column is uncovered. *)
Theorem covers_in_steps_4_and_6 (rows cols n : nat) (m : matrix_t) (s : state) :
  square n m -> reachable rows cols m s -> step s = 4 \/ step s = 6 ->
  (forall r c, star (M s) r c ->
     nth r (RowCover s) 0 + nth c (ColCover s) 0 = 1) /\
  (forall r c, prime (M s) r c ->
     nth r (RowCover s) 0 = 1 /\ nth c (ColCover s) 0 = 0) /\
  (forall r, nth r (RowCover s) 0 = 1 ->
     (exists c, star (M s) r c) /\ (exists c, prime (M s) r c)) /\
  (exists r, (r < n)%nat /\ forall c, ~ star (M s) r c) /\
  (exists c, (c < n)%nat /\ nth c (ColCover s) 0 = 0).
Proof.
  intros Hs Hr E.
  pose proof (reachable_struct _ _ n _ _ Hs Hr) as Hinv.
  destruct (struct_step4 n s Hinv E)
    as [L [_ [Hcov [Hpc [_ [HL [Hord [Hrow Hcol]]]]]]]].
  split; [exact Hcov|]. split; [exact Hpc|]. split; [|split; assumption].
  intros r HR. apply HL in HR. split.
  - exact (ord_star _ _ _ Hord HR).
  - exact (ord_prime _ _ _ Hord HR).
Qed.

Lemma covers_in_steps_4_and_6_witness :
  let s := state_after 5 sample_3x3 in
  (forall r c, star (M s) r c ->
     nth r (RowCover s) 0 + nth c (ColCover s) 0 = 1) /\
  (forall r c, prime (M s) r c ->
     nth r (RowCover s) 0 = 1 /\ nth c (ColCover s) 0 = 0) /\
  (forall r, nth r (RowCover s) 0 = 1 ->
     (exists c, star (M s) r c) /\ (exists c, prime (M s) r c)) /\
  (exists r, (r < 3)%nat /\ forall c, ~ star (M s) r c) /\
  (exists c, (c < 3)%nat /\ nth c (ColCover s) 0 = 0).
Proof.
  apply (covers_in_steps_4_and_6 3 3 3 sample_3x3 (state_after 5 sample_3x3)).
  - split; [reflexivity|repeat constructor].
  - apply (state_after_reachable 5 sample_3x3).
    eexists. split; [vm_compute; reflexivity|vm_compute; discriminate].
  - left. reflexivity.
Defined.

(** ** The returned value *)

(** X25: whatever the values, wrapped or not: when hungarian returns on a
    square N x N matrix, the value it returns is the cost, summed in the
    element type, of a one-to-one assignment of the N rows to the N columns,
    namely of the assignment that the stars of the final mask stand for. *)
Theorem result_is_cost_of_an_assignment (n : nat) (original : matrix_t)
    (allow_negatives : bool) (fuel : nat) (v : Z) :
  square n original ->
  hungarian fuel original allow_negatives = Ok v ->
  exists s sigma,
    hungarian_run fuel original allow_negatives = Ok s /\
    Permutation (seq 0 n) sigma /\
    (forall r, (r < n)%nat -> star (M s) r (nth r sigma O)) /\
    v = Int.wrap (assignment_cost original sigma).
Proof.
  intros Hs H. unfold hungarian in H.
  apply bind_ok in H. destruct H as [s [Hrun H]]. inversion H; subst; clear H.
  assert (Hn : (0 < n)%nat).
  { destruct Hs as [Hl _]. destruct original; [discriminate Hrun|simpl in Hl; lia]. }
  destruct (hungarian_run_start n original allow_negatives fuel s Hn Hs Hrun)
    as [m [_ [Hm Hwork]]].
  destruct (work_final_struct n fuel m s Hm Hwork) as [Hinv E7].
  destruct (work_final_values _ _ _ _ _ Hwork) as [_ H01].
  destruct Hinv as [_ [[HsM _] [_ Hcase]]].
  destruct Hcase as [[[E|E] _]|[[E _]|[[[E|E] _]|[[E _]|[_ [Hmatch Hall]]]]]];
    try (rewrite E7 in E; discriminate).
  exists s, (assignment n (M s)).
  split; [exact Hrun|].
  split; [apply assignment_permutation; assumption|]. split.
  - intros r Hr. rewrite (assignment_nth n (M s) r Hr).
    apply (star_col_spec n (M s) HsM Hmatch Hall r Hr).
  - rewrite (output_solution_sum _ _ H01). f_equal.
    assert (Hlen : length original = n) by apply Hs.
    assert (Hhd : length (hd [] original) = n).
    { pose proof (square_row n original 0 Hs Hn) as Hr.
      destruct original; [simpl in Hlen; lia|exact Hr]. }
    unfold starred_sum. rewrite Hlen, Hhd.
    rewrite (starred_cells_by_rows n (M s) HsM Hmatch Hall
               (fun rc => get original (fst rc) (snd rc))).
    rewrite (assignment_cost_rows n (M s)). reflexivity.
Qed.

Lemma result_is_cost_of_an_assignment_witness :
  exists s sigma,
    hungarian_run 12 wrapping_2x2 true = Ok s /\
    Permutation (seq 0 2) sigma /\
    (forall r, (r < 2)%nat -> star (M s) r (nth r sigma O)) /\
    2147483646 = Int.wrap (assignment_cost wrapping_2x2 sigma).
Proof.
  apply (result_is_cost_of_an_assignment 2 wrapping_2x2 true 12 2147483646).
  - split; [reflexivity|repeat constructor].
  - vm_compute. reflexivity.
Defined.

(** X26: on square matrices of size 1 or 2 the solver is correct without
    reservation.  With entries between -B and B, 4 B within the int range
    and negatives allowed, hungarian returns within a bound of 25 turns,
    and the value it returns is the minimum over all one-to-one assignments
    of rows to columns of the sum of the assigned entries. *)
Theorem small_inputs_optimal (n : nat) (original : matrix_t) (B : Z) (fuel : nat) :
  (0 < n <= 2)%nat -> square n original ->
  (forall r c, (r < n)%nat -> (c < n)%nat -> - B <= get original r c <= B) ->
  4 * B <= Int.max -> (25 <= fuel)%nat ->
  exists v, hungarian fuel original true = Ok v /\ is_min_assignment n original v.
Proof.
  intros [Hn Hn2] Hs Hb H4 Hfuel.
  assert (HB0 : 0 <= B) by (pose proof (Hb O O Hn Hn); lia).
  destruct (handle_negatives_shift n original B Hn Hs Hb) as [A [shift [Hh [HsA [HrA HA]]]]];
    [lia|].
  unfold hungarian. rewrite (hungarian_run_square n original true _ A Hn Hs Hh).
  destruct (work_terminates n fuel (n * W n + 4) (init_state A) Hn
              (init_run_inv n A HsA HrA)) as [Hf|[s Hok]].
  - assert (Hc : n = 1%nat \/ n = 2%nat) by lia.
    destruct Hc as [-> | ->]; unfold W; simpl; lia.
  - exfalso. exact (small_work_no_overrun n n n A fuel Hn2 HsA Hf).
  - rewrite Hok. cbn [bind]. eexists. split; [reflexivity|].
    destruct (work_final_value n A (2 * B) fuel s Hn HsA HrA) as [Hstruct Hvalue];
      [intros r c Hr Hc; apply HA; assumption|lia|exact Hok|].
    destruct (work_final_values _ _ _ _ _ Hok) as [E7 H01].
    destruct Hstruct as [_ [[HsM _] [Hzm Hcase]]].
    destruct Hcase as [[[E|E] _]|[[E _]|[[[E|E] _]|[[E _]|[_ [Hmatch Hall]]]]]];
      try (rewrite E7 in E; discriminate).
    destruct Hvalue as [_ [u [v Hpot]]].
    assert (Hlen : length original = n) by apply Hs.
    assert (Hhd : length (hd [] original) = n).
    { pose proof (square_row n original 0 Hs Hn) as Hr.
      destruct original; [simpl in Hlen; lia|exact Hr]. }
    destruct (complete_matching_optimal n (M s) HsM Hmatch Hall original A shift
                (matrix s) u v Hlen Hhd Hzm Hpot) as [Hsum Hmin].
    { intros r c Hr Hc. apply HA; assumption. }
    rewrite (output_solution_sum _ _ H01).
    rewrite wrap_in_range; [exact Hmin|].
    rewrite Hsum, (assignment_cost_rows n (M s)).
    pose proof (sumZ_map_bound (fun r => get original r (star_col (M s) r)) B (seq 0 n))
      as Hbound.
    rewrite length_seq in Hbound.
    unfold Int.in_range, Int.min, Int.max in *.
    assert (Hterms : forall x, In x (seq 0 n) ->
              - B <= get original x (star_col (M s) x) <= B).
    { intros r Hr. apply in_seq in Hr.
      destruct (star_col_spec n (M s) HsM Hmatch Hall r) as [_ Hc]; [lia|].
      apply Hb; [lia|exact Hc]. }
    specialize (Hbound Hterms).
    assert (Hnz : 0 <= Z.of_nat n <= 2) by lia. nia.
Qed.

Lemma small_inputs_optimal_witness :
  exists v, hungarian 25 negative_2x2 true = Ok v /\ is_min_assignment 2 negative_2x2 v.
Proof.
  apply (small_inputs_optimal 2 negative_2x2 4 25).
  - lia.
  - split; [reflexivity|repeat constructor].
  - intros r c Hr Hc.
    destruct r as [|[|r]]; try lia;
      destruct c as [|[|c]]; try lia; vm_compute; split; discriminate.
  - vm_compute. discriminate.
  - lia.
Defined.

(** ** Optimality within the range bound *)

(* Outside the bound of the next theorem: on [[2147483647,0],[0,-1]] the
   solver returns 2147483646, the cost of the diagonal, although the other
   assignment costs 0: the shift by abs(min) = 1 wraps the entry 2147483647
   around. *)
Lemma overflow_breaks_optimality :
  exists fuel v, hungarian fuel wrapping_2x2 true = Ok v /\
                 ~ is_min_assignment 2 wrapping_2x2 v.
Proof.
  exists 12%nat, 2147483646. split; [vm_compute; reflexivity|].
  intros [_ Hmin].
  assert (Hp : Permutation (seq 0 2) [1; 0]%nat) by apply perm_swap.
  specialize (Hmin _ Hp). vm_compute in Hmin. apply Hmin. reflexivity.
Qed.

(** X27: within the range bound the solver is optimal wherever it returns.
    For every non-empty square N x N matrix whose entries lie between -B
    and B, with 4 B and N B within the int range, the run (negatives
    allowed) ends after finitely many turns, either in step 5 with an
    access outside the path buffer or with hungarian returning the minimum
    over all permutations sigma of {0..N-1} of the sum of
    original[i][sigma(i)]. *)
Theorem hungarian_optimal (n : nat) (original : matrix_t) (B : Z) :
  (0 < n)%nat -> square n original ->
  (forall r c, (r < n)%nat -> (c < n)%nat -> - B <= get original r c <= B) ->
  4 * B <= Int.max -> Z.of_nat n * B <= Int.max ->
  exists fuel,
    hungarian fuel original true = Fail out_of_range \/
    exists v, hungarian fuel original true = Ok v /\ is_min_assignment n original v.
Proof.
  intros Hn Hs Hb H4 HnB.
  assert (HB0 : 0 <= B) by (pose proof (Hb O O Hn Hn); lia).
  destruct (handle_negatives_shift n original B Hn Hs Hb) as [A [shift [Hh [HsA [HrA HA]]]]];
    [lia|].
  exists (n * W n + 4 + n + 1)%nat.
  unfold hungarian. rewrite (hungarian_run_square n original true _ A Hn Hs Hh).
  destruct (work_terminates n (n * W n + 4 + n + 1) (n * W n + 4) (init_state A) Hn
              (init_run_inv n A HsA HrA)) as [Hf|[s Hok]]; [lia| |].
  - left. rewrite Hf. reflexivity.
  - right. rewrite Hok. cbn [bind]. eexists. split; [reflexivity|].
    destruct (work_final_value n A (2 * B) (n * W n + 4 + n + 1) s Hn HsA HrA)
      as [Hstruct Hvalue];
      [intros r c Hr Hc; apply HA; assumption|lia|exact Hok|].
    destruct (work_final_values _ _ _ _ _ Hok) as [E7 H01].
    destruct Hstruct as [_ [[HsM _] [Hzm Hcase]]].
    destruct Hcase as [[[E|E] _]|[[E _]|[[[E|E] _]|[[E _]|[_ [Hmatch Hall]]]]]];
      try (rewrite E7 in E; discriminate).
    destruct Hvalue as [_ [u [v Hpot]]].
    assert (Hlen : length original = n) by apply Hs.
    assert (Hhd : length (hd [] original) = n).
    { pose proof (square_row n original 0 Hs Hn) as Hr.
      destruct original; [simpl in Hlen; lia|exact Hr]. }
    destruct (complete_matching_optimal n (M s) HsM Hmatch Hall original A shift
                (matrix s) u v Hlen Hhd Hzm Hpot) as [Hsum Hmin].
    { intros r c Hr Hc. apply HA; assumption. }
    rewrite (output_solution_sum _ _ H01).
    rewrite wrap_in_range; [exact Hmin|].
    rewrite Hsum, (assignment_cost_rows n (M s)).
    pose proof (sumZ_map_bound (fun r => get original r (star_col (M s) r)) B (seq 0 n))
      as Hbound.
    rewrite length_seq in Hbound.
    unfold Int.in_range, Int.min, Int.max in *.
    assert (Hterms : forall x, In x (seq 0 n) ->
              - B <= get original x (star_col (M s) x) <= B).
    { intros r Hr. apply in_seq in Hr.
      destruct (star_col_spec n (M s) HsM Hmatch Hall r) as [_ Hc]; [lia|].
      apply Hb; [lia|exact Hc]. }
    specialize (Hbound Hterms). lia.
Qed.

Lemma hungarian_optimal_witness :
  exists fuel,
    hungarian fuel sample_3x3 true = Fail out_of_range \/
    exists v, hungarian fuel sample_3x3 true = Ok v /\ is_min_assignment 3 sample_3x3 v.
Proof.
  apply (hungarian_optimal 3 sample_3x3 60).
  - lia.
  - split; [reflexivity|repeat constructor].
  - intros r c Hr Hc.
    destruct r as [|[|[|r]]]; try lia;
      destruct c as [|[|[|c]]]; try lia; vm_compute; split; discriminate.
  - vm_compute. discriminate.
  - vm_compute. discriminate.
Defined.
